(** * Longstaff-Schwartz American put pricer: model and properties

    A shallow embedding of the C++ pricing engine of the repository
    (lsm_pricer.cpp, lsm_pricer_arena.cpp, lsm_pricer_simd.cpp,
    lsm_pricer_mp.cpp, lsm_pricer_ultimate.cpp, arena_allocator.h).

    Conventions.
    - [double] is an abstract carrier [D] with the operations the source
      applies to it ([DoubleOps]).  Structural theorems hold for every
      interpretation, IEEE-754 binary64 included; two instances are
      given: [float_ops] (Rocq's primitive binary64 floats, used to run
      the code) and [real_ops] (exact real arithmetic, used where a claim
      is a statement of real analysis).
    - [int] is a [Z] in the range of a 32-bit integer; a sum or product
      the code takes in [int] wraps around ([to_int]), as the compilers
      of the build implement it.  Loop counters and indices, which are
      non-negative whenever a loop runs, are [nat].
    - [std::vector] is a [list], indexed with stdpp's lookup and insert.
      A call whose loops would leave a vector has no defined result
      ([Undefined]); every other access is in range.  Vectors on the heap
      are taken to get the memory they ask for.
    - [std::mt19937_64] together with [std::normal_distribution] is an
      abstract generator state with a [rng_draw] step ([NormalStream]);
      a generator is seeded with the [int] its seed expression yields. *)

From Stdlib Require Import ZArith Reals Floats Lia Lra List Bool.
From stdpp Require Import base tactics option list.

Local Open Scope Z_scope.

(** ** The numeric interface *)

Class DoubleOps (D : Type) := {
  d_zero : D;                      (* the literal 0.0 *)
  d_half : D;                      (* the literal 0.5 *)
  d_of_int : Z -> D;               (* conversion int -> double *)
  d_add : D -> D -> D;
  d_sub : D -> D -> D;
  d_mul : D -> D -> D;
  d_div : D -> D -> D;
  d_neg : D -> D;                  (* unary minus *)
  d_lt : D -> D -> bool;           (* a < b *)
  d_abs : D -> D;                  (* std::abs *)
  d_exp : D -> D;                  (* std::exp, and xsimd::exp on each lane *)
  d_sqrt : D -> D                  (* std::sqrt *)
}.

Section DoubleDerived.
Context {D : Type} `{DoubleOps D}.

(** [a > b] is [b < a]. *)
Definition d_gt (a b : D) : bool := d_lt b a.

(** [std::max(a, b)] is [(a < b) ? b : a]. *)
Definition d_max (a b : D) : D := if d_lt a b then b else a.
End DoubleDerived.

(** IEEE-754 binary64, with the exponential taken as a parameter: the
    C library provides it, the repository does not. *)
Fixpoint float_of_pos (p : positive) : float :=
  match p with
  | xH => 1%float
  | xO q => (2 * float_of_pos q)%float
  | xI q => (2 * float_of_pos q + 1)%float
  end.

(** Exact for every value of a 32-bit [int]. *)
Definition float_of_int (z : Z) : float :=
  match z with
  | Z0 => 0%float
  | Zpos p => float_of_pos p
  | Zneg p => PrimFloat.opp (float_of_pos p)
  end.

Definition float_ops (fexp : float -> float) : DoubleOps float := {|
  d_zero := 0%float;
  d_half := 0.5%float;
  d_of_int := float_of_int;
  d_add := PrimFloat.add;
  d_sub := PrimFloat.sub;
  d_mul := PrimFloat.mul;
  d_div := PrimFloat.div;
  d_neg := PrimFloat.opp;
  d_lt := PrimFloat.ltb;
  d_abs := PrimFloat.abs;
  d_exp := fexp;
  d_sqrt := PrimFloat.sqrt
|}.

(** Exact real arithmetic: no rounding, no overflow, no NaN.  It reads
    the statements that stipulate exact arithmetic, and only those.
    [R_sqrt.sqrt] is the square root on arguments that are not negative;
    a statement that depends on the lattice takes a maturity that is not
    negative. *)
Definition Rltb (a b : R) : bool := if Rlt_dec a b then true else false.

Definition real_ops : DoubleOps R := {|
  d_zero := 0%R;
  d_half := (1 / 2)%R;
  d_of_int := IZR;
  d_add := Rplus;
  d_sub := Rminus;
  d_mul := Rmult;
  d_div := Rdiv;
  d_neg := Ropp;
  d_lt := Rltb;
  d_abs := Rabs;
  d_exp := Rtrigo_def.exp;
  d_sqrt := R_sqrt.sqrt
|}.

(** The random stream: generator and distribution object together. *)
Class NormalStream (D : Type) := {
  rng_state : Type;
  rng_seed : Z -> rng_state;               (* std::mt19937_64 rng(seed) *)
  rng_draw : rng_state -> D * rng_state    (* dist(rng) *)
}.

(** ** Exceptions and outcomes *)

Inductive exn : Type :=
  | runtime_error    (* std::runtime_error: the declared configuration error *)
  | bad_alloc        (* std::bad_alloc: arena exhausted *)
  | length_error.    (* std::length_error: std::vector of a negative count *)

(** How a call ends: with a value, with an exception, or with no defined
    result because it reads or writes outside a vector. *)
Inductive outcome (A : Type) : Type :=
  | Ok (a : A)
  | Throw (e : exn)
  | Undefined.
Arguments Ok {A} a.
Arguments Throw {A} e.
Arguments Undefined {A}.

Definition is_ok {A} (o : outcome A) : bool :=
  match o with Ok _ => true | _ => false end.

(** ** int *)

Definition INT_MAX : Z := 2 ^ 31 - 1.
Definition INT_MIN : Z := - 2 ^ 31.

Definition is_int (z : Z) : bool := (INT_MIN <=? z) && (z <=? INT_MAX).

(** The [int] an expression yields when its exact value is [z]: the value
    itself when it fits, and otherwise the one it wraps around to. *)
Definition to_int (z : Z) : Z := (z - INT_MIN) mod 2 ^ 32 + INT_MIN.

(** ** arena_allocator.h *)

Module ArenaModel.

(** [size_t] is 64 bits wide. *)
Definition size_t_modulus : Z := 2 ^ 64.
Definition to_size_t (z : Z) : Z := z mod size_t_modulus.

(** [memory.size()] and [offset]; the bytes themselves are not modelled. *)
Record Arena : Type := mkArena { memory_size : Z; offset : Z }.

(** [explicit Arena(size_t size_in_bytes)] *)
Definition new_arena (size_in_bytes : Z) : Arena :=
  mkArena (to_size_t size_in_bytes) 0.

(** [char* allocate(size_t size, size_t alignment)]: the result is the
    start of the region as an offset into [memory], with the arena
    after the call; a throw leaves the arena as it was. *)
Definition allocate (size alignment : Z) (a : Arena) : outcome Z * Arena :=
  let aligned_offset :=
    Z.land (to_size_t (offset a + alignment - 1))
           (to_size_t (Z.lnot (to_size_t (alignment - 1)))) in
  if to_size_t (aligned_offset + size) >? memory_size a
  then (Throw bad_alloc, a)
  else (Ok aligned_offset,
        mkArena (memory_size a) (to_size_t (aligned_offset + size))).

(** [void reset()] *)
Definition reset (a : Arena) : Arena := mkArena (memory_size a) 0.

(** The smallest multiple of [alignment] that is at least [off]. *)
Definition round_up (off alignment : Z) : Z :=
  (off + alignment - 1) / alignment * alignment.

End ArenaModel.

(** ** Vectors and the three table layouts *)

Section Tables.
Context {D : Type} `{DoubleOps D}.

(** [v[i]] *)
Definition vget (v : list D) (i : nat) : D := default d_zero (v !! i).

(** [m[i]] for a vector of vectors *)
Definition vrow (m : list (list D)) (i : nat) : list D := default [] (m !! i).

(** A table indexed by (path, time), as each variant lays it out. *)
Record Layout : Type := mkLayout {
  table : Type;
  t_get : table -> nat -> nat -> D;
  t_set : table -> nat -> nat -> D -> table;
  (** value-initialised table for [n] paths and [cols] time indices *)
  t_zero : nat -> nat -> table
}.

(** [std::vector<std::vector<double>> S(num_paths, std::vector<double>(num_steps + 1))],
    read and written as [S[i][j]]
    (lsm_pricer.cpp). *)
Definition path_major : Layout := {|
  table := list (list D);
  t_get := fun m i j => vget (vrow m i) j;
  t_set := fun m i j v => <[i := <[j := v]> (vrow m i)]> m;
  t_zero := fun n cols => replicate n (replicate cols d_zero)
|}.

(** [S_time_steps(num_steps + 1, std::vector<double>(num_paths))],
    read and written as [S_time_steps[j][i]]
    (lsm_pricer_simd.cpp, lsm_pricer_ultimate.cpp). *)
Definition time_major : Layout := {|
  table := list (list D);
  t_get := fun m i j => vget (vrow m j) i;
  t_set := fun m i j v => <[j := <[i := v]> (vrow m j)]> m;
  t_zero := fun n cols => replicate cols (replicate n d_zero)
|}.

(** [S_flat(num_paths * (num_steps + 1))] with the accessor
    [S_flat[path * (num_steps + 1) + time]]
    (lsm_pricer_arena.cpp, lsm_pricer_mp.cpp). *)
Definition flat (stride : nat) : Layout := {|
  table := list D;
  t_get := fun m i j => vget m (i * stride + j);
  t_set := fun m i j v => <[(i * stride + j)%nat := v]> m;
  t_zero := fun n cols => replicate (n * cols) d_zero
|}.
End Tables.

Arguments Layout D : clear implicits.

(** ** polyfit (lsm_pricer.cpp) *)

Section Polyfit.
Context {D : Type} `{DoubleOps D}.

(** The seven running sums of the first loop. *)
Record PowerSums : Type := mkSums {
  S_x : D; S_y : D; S_xx : D; S_xy : D; S_xxx : D; S_xxy : D; S_xxxx : D
}.

Definition sums_step (s : PowerSums) (p : D * D) : PowerSums :=
  let xi := p.1 in
  let yi := p.2 in
  let xi_2 := d_mul xi xi in
  {| S_x := d_add (S_x s) xi;
     S_y := d_add (S_y s) yi;
     S_xx := d_add (S_xx s) xi_2;
     S_xy := d_add (S_xy s) (d_mul xi yi);
     S_xxx := d_add (S_xxx s) (d_mul xi xi_2);
     S_xxy := d_add (S_xxy s) (d_mul xi_2 yi);
     S_xxxx := d_add (S_xxxx s) (d_mul xi_2 xi_2) |}.

Definition power_sums (x y : list D) : PowerSums :=
  fold_left sums_step (zip x y)
    (mkSums d_zero d_zero d_zero d_zero d_zero d_zero d_zero).

(** The system [A] (3 by 3) with its right-hand side [b]. *)
Definition system : Type := list (list D) * list D.

Definition A_get (s : system) (i j : nat) : D := vget (vrow s.1 i) j.
Definition b_get (s : system) (i : nat) : D := vget s.2 i.

Definition normal_equations (n : nat) (s : PowerSums) : system :=
  ([ [d_of_int (Z.of_nat n); S_x s; S_xx s];
     [S_x s; S_xx s; S_xxx s];
     [S_xx s; S_xxx s; S_xxxx s] ],
   [S_y s; S_xy s; S_xxy s]).

(** [for (j = i + 1; j < 3; ++j) if (abs(A[j][i]) > abs(A[pivot][i])) pivot = j;] *)
Definition find_pivot (s : system) (i : nat) : nat :=
  fold_left
    (fun pivot j =>
       if d_gt (d_abs (A_get s j i)) (d_abs (A_get s pivot i)) then j else pivot)
    (seq (i + 1) (3 - (i + 1))) i.

(** [std::swap(A[i], A[pivot]); std::swap(b[i], b[pivot]);] *)
Definition swap_rows (s : system) (i pivot : nat) : system :=
  (<[pivot := vrow s.1 i]> (<[i := vrow s.1 pivot]> s.1),
   <[pivot := vget s.2 i]> (<[i := vget s.2 pivot]> s.2)).

(** The body of [for (j = i + 1; j < 3; ++j)]: subtract [factor] times
    row [i] from row [j], columns [i..2], and the same on [b]. *)
Definition eliminate_row (i : nat) (s : system) (j : nat) : system :=
  let factor := d_div (A_get s j i) (A_get s i i) in
  let A' :=
    fold_left
      (fun A k =>
         <[j := <[k := d_sub (vget (vrow A j) k)
                            (d_mul factor (vget (vrow A i) k))]> (vrow A j)]> A)
      (seq i (3 - i)) s.1 in
  (A', <[j := d_sub (b_get s j) (d_mul factor (b_get s i))]> s.2).

Definition eliminate_column (s : system) (i : nat) : system :=
  let s1 := swap_rows s i (find_pivot s i) in
  fold_left (eliminate_row i) (seq (i + 1) (3 - (i + 1))) s1.

Definition gaussian_elimination (s : system) : system :=
  fold_left eliminate_column (seq 0 3) s.

(** [for (i = 2; i >= 0; --i)]: [coeffs] starts as three zeros. *)
Definition back_substitute (s : system) : list D :=
  fold_left
    (fun coeffs i =>
       let sum :=
         fold_left (fun sum j => d_add sum (d_mul (A_get s i j) (vget coeffs j)))
                   (seq (i + 1) (3 - (i + 1))) d_zero in
       <[i := d_div (d_sub (b_get s i) sum) (A_get s i i)]> coeffs)
    [2%nat; 1%nat; 0%nat] (replicate 3 d_zero).

(** Coefficients, highest power first. *)
Definition polyfit (x y : list D) : list D :=
  let s := gaussian_elimination (normal_equations (length x) (power_sums x y)) in
  let coeffs := back_substitute s in
  [vget coeffs 2; vget coeffs 1; vget coeffs 0].
End Polyfit.

(** ** The pricing engine

    The five translation units repeat one algorithm; they differ in the
    layout of the two tables, in how the normal deviates are drawn and in
    where memory comes from.  The stages below are written once over a
    [Layout] and instantiated by each variant. *)

Section Engine.
Context {D : Type} `{DoubleOps D}.

(** *** Backward induction and aggregation *)
Section Backward.
Variable L : Layout D.              (* layout of the cash-flow table *)
Variable S : nat -> nat -> D.       (* the price lattice, read as S(i, t) *)
Variables K r dt : D.
Variables num_paths num_steps : nat.

(** [std::exp(-r * periods * dt)] *)
Definition discount (periods : Z) : D :=
  d_exp (d_mul (d_mul (d_neg r) (d_of_int periods)) dt).

(** [CF(i, num_steps) = std::max(0.0, K - S(i, num_steps))] for every path. *)
Definition terminal_payoffs (cf : table L) : table L :=
  fold_left
    (fun cf i => t_set L cf i num_steps (d_max d_zero (d_sub K (S i num_steps))))
    (seq 0 num_paths) cf.

(** The scan [for (j = from; j <= num_steps; ++j) if (CF(i, j) > 0.0) { ...; break; }]:
    the index at which it stops, if any. *)
Definition first_positive (cf : table L) (i from : nat) : option nat :=
  List.find (fun j => d_gt (t_get L cf i j) d_zero)
            (seq from (num_steps + 1 - from)).

(** [future_cf] of path [i] at date [t]. *)
Definition future_cf (cf : table L) (t i : nat) : D :=
  match first_positive cf i (t + 1) with
  | Some j => d_mul (t_get L cf i j) (discount (Z.of_nat j - Z.of_nat t))
  | None => d_zero
  end.

(** The selection pass fills three parallel vectors. *)
Definition in_the_money_paths (t : nat) : list nat :=
  List.filter (fun i => d_gt (d_sub K (S i t)) d_zero) (seq 0 num_paths).

Definition x_itm (t : nat) : list D :=
  map (fun i => S i t) (in_the_money_paths t).

Definition y_itm (cf : table L) (t : nat) : list D :=
  map (future_cf cf t) (in_the_money_paths t).

(** [coeffs[0] * x_val * x_val + coeffs[1] * x_val + coeffs[2]] *)
Definition continuation_value (coeffs : list D) (x_val : D) : D :=
  d_add (d_add (d_mul (d_mul (vget coeffs 0) x_val) x_val)
               (d_mul (vget coeffs 1) x_val))
        (vget coeffs 2).

Definition intrinsic_value (t path_idx : nat) : D :=
  d_max d_zero (d_sub K (S path_idx t)).

(** The body of [if (intrinsic_value > continuation_value)]. *)
Definition exercise_update (cf : table L) (t path_idx : nat) : table L :=
  fold_left (fun cf j => t_set L cf path_idx j d_zero)
            (seq (t + 1) (num_steps - t))
            (t_set L cf path_idx t (intrinsic_value t path_idx)).

Definition exercises (coeffs : list D) (t path_idx : nat) (x_val : D) : bool :=
  d_gt (intrinsic_value t path_idx) (continuation_value coeffs x_val).

Definition exercise_step (coeffs : list D) (t : nat)
    (cf : table L) (p : nat * D) : table L :=
  if exercises coeffs t p.1 p.2 then exercise_update cf t p.1 else cf.

(** One iteration of [for (t = num_steps - 1; t > 0; --t)]. *)
Definition process_date (cf : table L) (t : nat) : table L :=
  match x_itm t with
  | [] => cf
  | _ :: _ =>
      let coeffs := polyfit (x_itm t) (y_itm cf t) in
      fold_left (exercise_step coeffs t)
                (zip (in_the_money_paths t) (x_itm t)) cf
  end.

(** The dates [num_steps - 1, ..., from], in the order they are processed. *)
Definition dates_down_to (from : nat) : list nat :=
  rev (seq from (num_steps - from)).

Definition interior_dates : list nat := dates_down_to 1.

(** The table once the dates [num_steps - 1 .. t] have been processed. *)
Definition backward_down_to (t : nat) (cf : table L) : table L :=
  fold_left process_date (dates_down_to t) cf.

Definition backward_induction (cf : table L) : table L :=
  backward_down_to 1 cf.

(** What path [i] adds to [total_payoff]. *)
Definition path_payoff (cf : table L) (i : nat) : option D :=
  match first_positive cf i 1 with
  | Some j => Some (d_mul (t_get L cf i j) (discount (Z.of_nat j)))
  | None => None
  end.

Definition add_payoff (cf : table L) (total : D) (i : nat) : D :=
  match path_payoff cf i with
  | Some p => d_add total p
  | None => total
  end.

(** The sequential pricing loop. *)
Definition total_payoff (cf : table L) : D :=
  fold_left (add_payoff cf) (seq 0 num_paths) d_zero.

(** [#pragma omp parallel for reduction(+:total_payoff)]: thread [w]
    accumulates, from 0, the iterations [thread_of] gives it; the
    partial sums are then added to the initial 0.0, one thread after
    the other in the order [order] in which the threads finish. *)
Definition partial_payoff (thread_of : nat -> nat) (cf : table L) (w : nat) : D :=
  fold_left (add_payoff cf)
            (List.filter (fun i => Nat.eqb (thread_of i) w) (seq 0 num_paths))
            d_zero.

Definition total_payoff_omp (order : list nat) (thread_of : nat -> nat)
    (cf : table L) : D :=
  fold_left (fun total w => d_add total (partial_payoff thread_of cf w))
            order d_zero.

(** [return total_payoff / num_paths;] *)
Definition average (total : D) : D :=
  d_div total (d_of_int (Z.of_nat num_paths)).
End Backward.

(** *** Forward simulation *)
Section Forward.
Context `{NormalStream D}.
Variables S0 r sigma dt : D.
Variables num_paths num_steps : nat.

(** [(r - 0.5 * sigma * sigma) * dt] *)
Definition drift_term : D :=
  d_mul (d_sub r (d_mul (d_mul d_half sigma) sigma)) dt.

(** [sigma * std::sqrt(dt)] *)
Definition vol_term : D := d_mul sigma (d_sqrt dt).

(** [std::exp((r - 0.5 * sigma * sigma) * dt + sigma * std::sqrt(dt) * Z)] *)
Definition growth (Z : D) : D :=
  d_exp (d_add drift_term (d_mul vol_term Z)).

(** Scalar variants: one generator, paths in order, time inside. *)
Definition simulate_step (L : Layout D) (i : nat)
    (st : table L * rng_state) (j : nat) : table L * rng_state :=
  let '(Z, g) := rng_draw st.2 in
  (t_set L st.1 i j (d_mul (t_get L st.1 i (j - 1)) (growth Z)), g).

Definition simulate_path (L : Layout D)
    (st : table L * rng_state) (i : nat) : table L * rng_state :=
  fold_left (simulate_step L i) (seq 1 num_steps)
            (t_set L st.1 i 0 S0, st.2).

Definition simulate_paths (L : Layout D) (S : table L) (g : rng_state)
    : table L * rng_state :=
  fold_left (simulate_path L) (seq 0 num_paths) (S, g).

(** Threaded variants: [generators.emplace_back(seed + i)] for every
    thread [i]. *)
Definition make_generators (max_threads : nat) (seed : Z) : list rng_state :=
  map (fun i => rng_seed (to_int (seed + Z.of_nat i))) (seq 0 max_threads).

(** [distributions[thread_id](generators[thread_id])];
    [thread_id] is below [max_threads] in every execution. *)
Definition draw_from (gens : list rng_state) (thread_id : nat)
    : D * list rng_state :=
  match gens !! thread_id with
  | Some g => let '(Z, g') := rng_draw g in (Z, <[thread_id := g']> gens)
  | None => (d_zero, gens)
  end.

Definition simulate_step_mp (L : Layout D) (thread_id i : nat)
    (st : table L * list rng_state) (j : nat) : table L * list rng_state :=
  let '(Z, gens) := draw_from st.2 thread_id in
  (t_set L st.1 i j (d_mul (t_get L st.1 i (j - 1)) (growth Z)), gens).

(** [#pragma omp parallel for] over the paths: iteration [i] runs on
    thread [thread_of i]; iterations of one thread run in increasing
    order and touch only that thread's generator and path [i]. *)
Definition simulate_paths_mp (L : Layout D) (thread_of : nat -> nat)
    (S : table L) (gens : list rng_state) : table L * list rng_state :=
  fold_left
    (fun st i =>
       fold_left (simulate_step_mp L (thread_of i) i) (seq 1 num_steps)
                 (t_set L st.1 i 0 S0, st.2))
    (seq 0 num_paths) (S, gens).

(** SIMD variants, on [S_time_steps]. *)

(** [xs::load_unaligned(p + i)]: [batch_size] consecutive doubles *)
Definition load_unaligned (batch_size : nat) (v : list D) (i : nat) : list D :=
  take batch_size (drop i v).

(** [xs::store_unaligned(p + i, batch)] *)
Definition store_unaligned (v : list D) (i : nat) (batch : list D) : list D :=
  take i v ++ batch ++ drop (i + length batch) v.

(** [s_prev_batch * xs::exp(r_dt_batch + sigma_sqrt_dt_batch * z_batch)],
    lane by lane *)
Definition batch_update (s_prev_batch z_batch : list D) : list D :=
  zip_with (fun s Z => d_mul s (d_exp (d_add drift_term (d_mul vol_term Z))))
           s_prev_batch z_batch.

(** The values of [i] in [for (i = 0; i < num_paths; i += batch_size)] *)
Definition batch_starts (batch_size : nat) : list nat :=
  map (fun k => (k * batch_size)%nat)
      (seq 0 ((num_paths + batch_size - 1) / batch_size)).

(** [for (i = 0; i < num_paths; ++i) Z_buffer[i] = dist(rng);] *)
Definition fill_Z_buffer (g : rng_state) : list D * rng_state :=
  fold_left
    (fun st i => let '(Z, g') := rng_draw st.2 in (<[i := Z]> st.1, g'))
    (seq 0 num_paths) (replicate num_paths d_zero, g).

Definition simd_time_step (batch_size : nat)
    (st : list (list D) * rng_state) (j : nat) : list (list D) * rng_state :=
  let '(Z_buffer, g) := fill_Z_buffer st.2 in
  let s_prev := vrow st.1 (j - 1) in
  let s_curr :=
    fold_left
      (fun s_curr i =>
         store_unaligned s_curr i
           (batch_update (load_unaligned batch_size s_prev i)
                         (load_unaligned batch_size Z_buffer i)))
      (batch_starts batch_size) (vrow st.1 j) in
  (<[j := s_curr]> st.1, g).

(** [std::fill(S_time_steps[0].begin(), S_time_steps[0].end(), S0)] *)
Definition fill_row0 (S : list (list D)) : list (list D) :=
  <[0%nat := replicate (length (vrow S 0)) S0]> S.

Definition simulate_simd (batch_size : nat) (S : list (list D)) (g : rng_state)
    : list (list D) * rng_state :=
  fold_left (simd_time_step batch_size) (seq 1 num_steps) (fill_row0 S, g).

(** [for (k = 0; k < batch_size; ++k) z_buffer[k] = distributions[thread_id](generators[thread_id]);] *)
Definition fill_z_buffer (batch_size thread_id : nat) (gens : list rng_state)
    : list D * list rng_state :=
  fold_left
    (fun st k => let '(Z, gens') := draw_from st.2 thread_id in
                 (<[k := Z]> st.1, gens'))
    (seq 0 batch_size) (replicate batch_size d_zero, gens).

(** One time step of the ultimate variant: the batches are the
    iterations of a parallel loop; [thread_of j i] runs the batch
    that starts at [i]. *)
Definition ultimate_time_step (batch_size : nat) (thread_of : nat -> nat -> nat)
    (st : list (list D) * list rng_state) (j : nat)
    : list (list D) * list rng_state :=
  let s_prev := vrow st.1 (j - 1) in
  let '(s_curr, gens) :=
    fold_left
      (fun acc i =>
         let '(z_buffer, gens') := fill_z_buffer batch_size (thread_of j i) acc.2 in
         (store_unaligned acc.1 i
            (batch_update (load_unaligned batch_size s_prev i) z_buffer),
          gens'))
      (batch_starts batch_size) (vrow st.1 j, st.2) in
  (<[j := s_curr]> st.1, gens).

Definition simulate_ultimate (batch_size : nat) (thread_of : nat -> nat -> nat)
    (S : list (list D)) (gens : list rng_state)
    : list (list D) * list rng_state :=
  fold_left (ultimate_time_step batch_size thread_of) (seq 1 num_steps)
            (fill_row0 S, gens).
End Forward.
End Engine.

(** ** Allocation from the arena *)

Module ArenaMonad.
Import ArenaModel.

(** Code that threads the arena and may throw. *)
Definition ArenaM (A : Type) : Type := Arena -> outcome A * Arena.

Definition ret {A} (x : A) : ArenaM A := fun a => (Ok x, a).
Definition throw {A} (e : exn) : ArenaM A := fun a => (Throw e, a).
Definition undefined {A} : ArenaM A := fun a => (Undefined, a).
Definition bind {A B} (m : ArenaM A) (k : A -> ArenaM B) : ArenaM B :=
  fun a => match m a with
           | (Ok x, a') => k x a'
           | (Throw e, a') => (Throw e, a')
           | (Undefined, a') => (Undefined, a')
           end.

Notation "'let!' x ':=' m 'in' k" := (bind m (fun x => k))
  (at level 10, x name, m at level 100, k at level 200).
Notation "'do!' m 'in' k" := (bind m (fun _ => k))
  (at level 10, m at level 100, k at level 200).

(** Sizes and alignments of the element types on the supported
    (64-bit) platforms. *)
Definition sizeof_double : Z := 8.
Definition alignof_double : Z := 8.
Definition sizeof_int : Z := 4.
Definition alignof_int : Z := 4.

(** [std::vector<T, ArenaAllocator<T>> v(n, alloc)]: a negative count
    converts to a size above [max_size()]; an empty vector allocates
    nothing; otherwise [ArenaAllocator<T>::allocate(n)] calls
    [arena->allocate(n * sizeof(T), alignof(T))]. *)
Definition arena_vector (n elt_size elt_align : Z) : ArenaM unit :=
  if n <? 0 then throw length_error
  else if n =? 0 then ret tt
  else let! p := allocate (to_size_t (n * elt_size)) elt_align in ret tt.

Fixpoint repeatM (k : nat) (m : ArenaM unit) : ArenaM unit :=
  match k with
  | O => ret tt
  | S k' => do! m in repeatM k' m
  end.

(** [std::vector<std::vector<double, ArenaAllocator<double>>>
      v(count, std::vector<double, ArenaAllocator<double>>(n, alloc))]:
    the prototype row is built first, then copied [count] times, every
    copy allocating from the same arena. *)
Definition arena_rows (count n : Z) : ArenaM unit :=
  do! arena_vector n sizeof_double alignof_double in
  if count <? 0 then throw length_error
  else repeatM (Z.to_nat count) (arena_vector n sizeof_double alignof_double).
End ArenaMonad.

(** ** The five pricing functions *)

(** What a completed call has computed. *)
Record LsmRun (TS TCF D : Type) : Type := mkRun {
  run_S : TS;            (* the price lattice *)
  run_CF : TCF;          (* the cash-flow table after backward induction *)
  run_total : D;         (* total_payoff *)
  run_price : D          (* the value returned *)
}.
Arguments mkRun {TS TCF D}.
Arguments run_S {TS TCF D}.
Arguments run_CF {TS TCF D}.
Arguments run_total {TS TCF D}.
Arguments run_price {TS TCF D}.

Definition outcome_map {A B} (f : A -> B) (o : outcome A) : outcome B :=
  match o with Ok a => Ok (f a) | Throw e => Throw e | Undefined => Undefined end.

(** The OpenMP runtime as the code observes it: [omp_get_max_threads()],
    for the iterations of each parallel loop [omp_get_thread_num()], and
    the time at which each thread finishes the reduction loop.  Loop 0 is
    the final reduction; loop 1 is the path loop of the mp variant; loop
    [j] is time step [j] of the ultimate variant. *)
Record OmpRuntime : Type := mkOmp {
  omp_max_threads : nat;
  omp_thread_num : nat -> nat -> nat;
  omp_finish_time : nat -> nat
}.

(** The threads in the order in which they finish: [w] goes before every
    thread that does not finish earlier. *)
Fixpoint insert_thread (finish : nat -> nat) (w : nat) (l : list nat) : list nat :=
  match l with
  | [] => [w]
  | w' :: l' =>
      if (finish w <=? finish w')%nat then w :: l
      else w' :: insert_thread finish w l'
  end.

Definition finish_order (omp : OmpRuntime) : list nat :=
  fold_right (insert_thread (omp_finish_time omp)) [] (seq 0 (omp_max_threads omp)).

(** [num_paths] and [num_steps] are [int]s: a value outside that type is
    no argument of the functions, and the model gives it no result. *)
Definition int_counts (num_paths num_steps : Z) : bool :=
  is_int num_paths && is_int num_steps.

(** The loops of the arena and mp variants stay inside the flat vectors,
    with indices [path * (num_steps + 1) + time] that fit an [int]: there
    is no path, or a row holds an entry and the whole table has at most
    [INT_MAX] of them. *)
Definition flat_in_bounds (num_paths row_length : Z) : bool :=
  (num_paths <=? 0) || ((0 <? row_length) && (num_paths * row_length <=? INT_MAX)).

Section Variants.
Context {D : Type} `{DoubleOps D} `{NormalStream D}.
Import ArenaModel ArenaMonad.

(** [xs::batch<double>::size], fixed by the target architecture. *)
Variable batch_size : nat.
Variable omp : OmpRuntime.

(** Backward induction and pricing on a finished lattice. *)
Definition cash_flow_table (LS LC : Layout D) (S : table LS)
    (K r dt : D) (N M cols : nat) : table LC :=
  let Sget := t_get LS S in
  backward_induction LC Sget K r dt N M
    (terminal_payoffs LC Sget K N M (t_zero LC N cols)).

(** lsm_pricer.cpp.  A row has [num_steps + 1] entries; with a path and
    an empty row, [S[i][0] = S0] writes outside the row. *)
Definition lsm_cpp_run (S0 K T r sigma : D) (num_paths num_steps seed : Z)
    : outcome (LsmRun (list (list D)) (list (list D)) D) :=
  if negb (int_counts num_paths num_steps) then Undefined
  else
    let row_length := to_int (num_steps + 1) in
    if (row_length <? 0) || (num_paths <? 0) then Throw length_error
    else if (0 <? num_paths) && (row_length =? 0) then Undefined
    else
      let N := Z.to_nat num_paths in
      let M := Z.to_nat num_steps in
      let cols := Z.to_nat row_length in
      let dt := d_div T (d_of_int num_steps) in
      let S := (simulate_paths S0 r sigma dt N M path_major
                  (t_zero path_major N cols) (rng_seed (to_int seed))).1 in
      let cash_flows := cash_flow_table path_major path_major S K r dt N M cols in
      let total := total_payoff path_major r dt N M cash_flows in
      Ok (mkRun S cash_flows total (average N total)).

Definition price_american_put_lsm_cpp (S0 K T r sigma : D)
    (num_paths num_steps seed : Z) : outcome D :=
  outcome_map run_price (lsm_cpp_run S0 K T r sigma num_paths num_steps seed).

(** lsm_pricer_simd.cpp.  There are [num_steps + 1] rows; without a row,
    [S_time_steps[0]] is outside the table. *)
Definition lsm_simd_run (S0 K T r sigma : D) (num_paths num_steps seed : Z)
    : outcome (LsmRun (list (list D)) (list (list D)) D) :=
  if negb (to_size_t num_paths mod Z.of_nat batch_size =? 0)
  then Throw runtime_error
  else if negb (int_counts num_paths num_steps) then Undefined
  else
    let row_count := to_int (num_steps + 1) in
    if (num_paths <? 0) || (row_count <? 0) then Throw length_error
    else if row_count =? 0 then Undefined
    else
      let N := Z.to_nat num_paths in
      let M := Z.to_nat num_steps in
      let cols := Z.to_nat row_count in
      let dt := d_div T (d_of_int num_steps) in
      let S := (simulate_simd S0 r sigma dt N M batch_size
                  (t_zero time_major N cols) (rng_seed (to_int seed))).1 in
      let cash_flows := cash_flow_table time_major time_major S K r dt N M cols in
      let total := total_payoff time_major r dt N M cash_flows in
      Ok (mkRun S cash_flows total (average N total)).

Definition price_american_put_lsm_simd (S0 K T r sigma : D)
    (num_paths num_steps seed : Z) : outcome D :=
  outcome_map run_price (lsm_simd_run S0 K T r sigma num_paths num_steps seed).

(** lsm_pricer_arena.cpp: the five vectors are allocated before the
    first loop. *)
Definition lsm_arena_run (arena : Arena) (S0 K T r sigma : D)
    (num_paths num_steps seed : Z)
    : outcome (LsmRun (list D) (list D) D) * Arena :=
  (if negb (int_counts num_paths num_steps) then undefined
   else
     let row_length := to_int (num_steps + 1) in
     let cells := to_int (num_paths * row_length) in
     let N := Z.to_nat num_paths in
     let M := Z.to_nat num_steps in
     let cols := Z.to_nat row_length in
     let dt := d_div T (d_of_int num_steps) in
     do! arena_vector cells sizeof_double alignof_double in
     do! arena_vector cells sizeof_double alignof_double in
     do! arena_vector num_paths sizeof_int alignof_int in
     do! arena_vector num_paths sizeof_double alignof_double in
     do! arena_vector num_paths sizeof_double alignof_double in
     if negb (flat_in_bounds num_paths row_length) then undefined
     else
       let S := (simulate_paths S0 r sigma dt N M (flat cols)
                   (t_zero (flat cols) N cols) (rng_seed (to_int seed))).1 in
       let cash_flows := cash_flow_table (flat cols) (flat cols) S K r dt N M cols in
       let total := total_payoff (flat cols) r dt N M cash_flows in
       ret (mkRun S cash_flows total (average N total)))
  (reset arena).

Definition price_american_put_lsm_arena (arena : Arena) (S0 K T r sigma : D)
    (num_paths num_steps seed : Z) : outcome D * Arena :=
  let res := lsm_arena_run arena S0 K T r sigma num_paths num_steps seed in
  (outcome_map run_price res.1, res.2).

(** lsm_pricer_mp.cpp: the lattice is simulated before the cash-flow
    table is allocated. *)
Definition lsm_mp_run (arena : Arena) (S0 K T r sigma : D)
    (num_paths num_steps seed : Z)
    : outcome (LsmRun (list D) (list D) D) * Arena :=
  (if negb (int_counts num_paths num_steps) then undefined
   else
     let row_length := to_int (num_steps + 1) in
     let cells := to_int (num_paths * row_length) in
     let N := Z.to_nat num_paths in
     let M := Z.to_nat num_steps in
     let cols := Z.to_nat row_length in
     let dt := d_div T (d_of_int num_steps) in
     let generators := make_generators (omp_max_threads omp) seed in
     do! arena_vector cells sizeof_double alignof_double in
     if negb (flat_in_bounds num_paths row_length) then undefined
     else
       let S := (simulate_paths_mp S0 r sigma dt N M (flat cols)
                   (omp_thread_num omp 1)
                   (t_zero (flat cols) N cols) generators).1 in
       do! arena_vector cells sizeof_double alignof_double in
       do! arena_vector num_paths sizeof_int alignof_int in
       do! arena_vector num_paths sizeof_double alignof_double in
       do! arena_vector num_paths sizeof_double alignof_double in
       let cash_flows := cash_flow_table (flat cols) (flat cols) S K r dt N M cols in
       let total := total_payoff_omp (flat cols) r dt N M
                      (finish_order omp) (omp_thread_num omp 0) cash_flows in
       ret (mkRun S cash_flows total (average N total)))
  (reset arena).

Definition price_american_put_lsm_mp (arena : Arena) (S0 K T r sigma : D)
    (num_paths num_steps seed : Z) : outcome D * Arena :=
  let res := lsm_mp_run arena S0 K T r sigma num_paths num_steps seed in
  (outcome_map run_price res.1, res.2).

(** lsm_pricer_ultimate.cpp: the rows of the lattice are allocated and
    filled before those of the cash-flow table. *)
Definition lsm_ultimate_run (arena : Arena) (S0 K T r sigma : D)
    (num_paths num_steps seed : Z)
    : outcome (LsmRun (list (list D)) (list (list D)) D) * Arena :=
  (if negb (to_size_t num_paths mod Z.of_nat batch_size =? 0)
   then throw runtime_error
   else if negb (int_counts num_paths num_steps) then undefined
   else
     let row_count := to_int (num_steps + 1) in
     let N := Z.to_nat num_paths in
     let M := Z.to_nat num_steps in
     let cols := Z.to_nat row_count in
     let dt := d_div T (d_of_int num_steps) in
     let generators := make_generators (omp_max_threads omp) seed in
     do! arena_rows row_count num_paths in
     if row_count =? 0 then undefined
     else
       let S := (simulate_ultimate S0 r sigma dt N M batch_size
                   (omp_thread_num omp)
                   (t_zero time_major N cols) generators).1 in
       do! arena_rows row_count num_paths in
       do! arena_vector num_paths sizeof_int alignof_int in
       do! arena_vector num_paths sizeof_double alignof_double in
       do! arena_vector num_paths sizeof_double alignof_double in
       let cash_flows := cash_flow_table time_major time_major S K r dt N M cols in
       let total := total_payoff_omp time_major r dt N M
                      (finish_order omp) (omp_thread_num omp 0) cash_flows in
       ret (mkRun S cash_flows total (average N total)))
  (reset arena).

Definition price_american_put_lsm_ultimate (arena : Arena) (S0 K T r sigma : D)
    (num_paths num_steps seed : Z) : outcome D * Arena :=
  let res := lsm_ultimate_run arena S0 K T r sigma num_paths num_steps seed in
  (outcome_map run_price res.1, res.2).
End Variants.

(** ** The entry points by backend *)

Inductive Backend : Type := Cpp | CppArena | CppSimd | CppMp | CppUltimate.

Section Dispatch.
Context {D : Type} `{DoubleOps D} `{NormalStream D}.
Import ArenaModel.
Variable batch_size : nat.
Variable omp : OmpRuntime.

(** The layout a backend gives both of its tables. *)
Definition backend_layout (b : Backend) (cols : nat) : Layout D :=
  match b with
  | Cpp => path_major
  | CppArena | CppMp => flat cols
  | CppSimd | CppUltimate => time_major
  end.

Definition backend_table (b : Backend) (num_steps : Z) : Type :=
  table (backend_layout b (Z.to_nat (num_steps + 1))).

(** A call of backend [b]; the backends without an arena ignore [arena]
    and hand it back. *)
Definition lsm_run (b : Backend) (arena : Arena) (S0 K T r sigma : D)
    (num_paths num_steps seed : Z)
    : outcome (LsmRun (backend_table b num_steps) (backend_table b num_steps) D)
      * Arena :=
  match b with
  | Cpp => (lsm_cpp_run S0 K T r sigma num_paths num_steps seed, arena)
  | CppSimd =>
      (lsm_simd_run batch_size S0 K T r sigma num_paths num_steps seed, arena)
  | CppArena => lsm_arena_run arena S0 K T r sigma num_paths num_steps seed
  | CppMp => lsm_mp_run omp arena S0 K T r sigma num_paths num_steps seed
  | CppUltimate =>
      lsm_ultimate_run batch_size omp arena S0 K T r sigma num_paths num_steps seed
  end.

(** The lattice the forward stage of backend [b] leaves. *)
Definition backend_lattice (b : Backend) (S0 r sigma dt : D) (N M cols : nat)
    (seed : Z) : table (backend_layout b cols) :=
  match b with
  | Cpp =>
      (simulate_paths S0 r sigma dt N M path_major
         (t_zero path_major N cols) (rng_seed (to_int seed))).1
  | CppArena =>
      (simulate_paths S0 r sigma dt N M (flat cols)
         (t_zero (flat cols) N cols) (rng_seed (to_int seed))).1
  | CppSimd =>
      (simulate_simd S0 r sigma dt N M batch_size
         (t_zero time_major N cols) (rng_seed (to_int seed))).1
  | CppMp =>
      (simulate_paths_mp S0 r sigma dt N M (flat cols) (omp_thread_num omp 1)
         (t_zero (flat cols) N cols)
         (make_generators (omp_max_threads omp) seed)).1
  | CppUltimate =>
      (simulate_ultimate S0 r sigma dt N M batch_size (omp_thread_num omp)
         (t_zero time_major N cols)
         (make_generators (omp_max_threads omp) seed)).1
  end.

(** [total_payoff] as backend [b] accumulates it. *)
Definition backend_total (b : Backend) (r dt : D) (N M cols : nat)
    (cf : table (backend_layout b cols)) : D :=
  match b with
  | CppMp | CppUltimate =>
      total_payoff_omp (backend_layout b cols) r dt N M
        (finish_order omp) (omp_thread_num omp 0) cf
  | _ => total_payoff (backend_layout b cols) r dt N M cf
  end.

Definition price (b : Backend) (arena : Arena) (S0 K T r sigma : D)
    (num_paths num_steps seed : Z) : outcome D * Arena :=
  match b with
  | Cpp => (price_american_put_lsm_cpp S0 K T r sigma num_paths num_steps seed, arena)
  | CppSimd =>
      (price_american_put_lsm_simd batch_size S0 K T r sigma num_paths num_steps seed,
       arena)
  | CppArena =>
      price_american_put_lsm_arena arena S0 K T r sigma num_paths num_steps seed
  | CppMp =>
      price_american_put_lsm_mp omp arena S0 K T r sigma num_paths num_steps seed
  | CppUltimate =>
      price_american_put_lsm_ultimate batch_size omp arena S0 K T r sigma
        num_paths num_steps seed
  end.
End Dispatch.

(** ** Which deviate drives which lattice entry *)

(** How many of the iterations [0, n) a schedule runs on thread [w]. *)
Definition thread_share (thread_of : nat -> nat) (w n : nat) : nat :=
  length (List.filter (fun i => Nat.eqb (thread_of i) w) (seq 0 n)).

Section DrawSites.
Variable batch_size : nat.
Variable omp : OmpRuntime.
Variables N M : nat.

(** The thread that runs batch [b] of time step [j]. *)
Definition batch_thread (j b : nat) : nat := omp_thread_num omp j (b * batch_size).

(** The batches thread [w] has run in the time steps before [j]. *)
Definition steps_share (w j : nat) : nat :=
  fold_left (fun acc j' => (acc + thread_share (batch_thread j') w (N / batch_size))%nat)
            (seq 1 (j - 1)) 0%nat.

(** For backend [b], the stream (thread) and the position in that
    stream of the deviate that produces [S(i, j)] from [S(i, j - 1)]. *)
Definition draw_site (b : Backend) (i j : nat) : nat * nat :=
  match b with
  | Cpp | CppArena => (0, i * M + (j - 1))%nat
  | CppSimd => (0, (j - 1) * N + i)%nat
  | CppMp =>
      let w := omp_thread_num omp 1 i in
      (w, M * thread_share (omp_thread_num omp 1) w i + (j - 1))%nat
  | CppUltimate =>
      let w := batch_thread j (i / batch_size) in
      (w, batch_size * (steps_share w j + thread_share (batch_thread j) w (i / batch_size))
          + i mod batch_size)%nat
  end.

(** The seed of stream [w]. *)
Definition stream_seed (b : Backend) (seed : Z) (w : nat) : Z :=
  match b with
  | CppMp | CppUltimate => to_int (seed + Z.of_nat w)
  | _ => to_int seed
  end.
End DrawSites.

(** ** Specification vocabulary *)

Section Vocabulary.
Context {D : Type} `{DoubleOps D}.

(** What the proofs need of a layout on an [N] by [cols] table. *)
Record LayoutLaws (L : Layout D) (N cols : nat) (wf : table L -> Prop) : Prop := {
  wf_zero : wf (t_zero L N cols);
  wf_set : forall m i j v, wf m -> wf (t_set L m i j v);
  get_zero : forall i j, (i < N)%nat -> (j < cols)%nat ->
    t_get L (t_zero L N cols) i j = d_zero;
  get_set_eq : forall m i j v, wf m -> (i < N)%nat -> (j < cols)%nat ->
    t_get L (t_set L m i j v) i j = v;
  get_set_ne : forall m i j i' j' v, wf m ->
    (i < N)%nat -> (j < cols)%nat -> (i' < N)%nat -> (j' < cols)%nat ->
    (i, j) <> (i', j') ->
    t_get L (t_set L m i j v) i' j' = t_get L m i' j'
}.

(** Shapes of the three layouts. *)
Definition rows_shape (n len : nat) (m : list (list D)) : Prop :=
  length m = n /\ Forall (fun row => length row = len) m.

Definition backend_shape (b : Backend) (N cols : nat)
    : table (backend_layout b cols) -> Prop :=
  match b with
  | Cpp => rows_shape N cols
  | CppArena | CppMp => fun m : list D => length m = (N * cols)%nat
  | CppSimd | CppUltimate => rows_shape cols N
  end.

(** Single exercise: on every path at most one date in [1, M] carries a
    nonzero cash flow. *)
Definition single_exercise (L : Layout D) (N M : nat) (cf : table L) : Prop :=
  forall i j1 j2, (i < N)%nat ->
    (1 <= j1 <= M)%nat -> (1 <= j2 <= M)%nat ->
    t_get L cf i j1 <> d_zero -> t_get L cf i j2 <> d_zero -> j1 = j2.

(** The invariant of the backward loop just before date [t - 1] is
    processed: nothing is recorded before [t], and from [t] on a nonzero
    entry has only zeros after it. *)
Definition cf_inv (L : Layout D) (N M t : nat) (cf : table L) : Prop :=
  forall i, (i < N)%nat ->
    (forall j, (j < t)%nat -> t_get L cf i j = d_zero) /\
    (forall j1 j2, (t <= j1)%nat -> (j1 < j2 <= M)%nat ->
       t_get L cf i j1 <> d_zero -> t_get L cf i j2 = d_zero).

(** Every entry is the literal zero or tests positive. *)
Definition cf_sign (L : Layout D) (N M : nat) (cf : table L) : Prop :=
  forall i j, (i < N)%nat -> (j <= M)%nat ->
    t_get L cf i j = d_zero \/ d_lt d_zero (t_get L cf i j) = true.

Context `{NormalStream D}.

(** The generator after [k] draws, and the [k]-th deviate (from 0). *)
Fixpoint rng_advance (k : nat) (g : rng_state) : rng_state :=
  match k with
  | O => g
  | S k' => rng_advance k' (rng_draw g).2
  end.

Definition nth_draw (g : rng_state) (k : nat) : D := (rng_draw (rng_advance k g)).1.

(** Each of the [W] per-thread generators is its seeded state advanced
    by [count w] draws. *)
Definition gens_after (W : nat) (seed : Z) (count : nat -> nat)
    (gens : list rng_state) : Prop :=
  length gens = W /\
  forall w, (w < W)%nat ->
    gens !! w = Some (rng_advance (count w) (rng_seed (to_int (seed + Z.of_nat w)))).

(** The entry of row [j] at path [i] of the ultimate variant, from the
    previous row: the deviate is that of its batch's thread. *)
Definition ultimate_entry (batch_size : nat) (omp : OmpRuntime) (N : nat) (seed : Z)
    (r sigma dt : D) (s_prev : list D) (j i : nat) : D :=
  let w := batch_thread batch_size omp j (i / batch_size) in
  d_mul (vget s_prev i)
    (growth r sigma dt
       (nth_draw (rng_seed (to_int (seed + Z.of_nat w)))
          (batch_size * (steps_share batch_size omp N w j
                         + thread_share (batch_thread batch_size omp j) w (i / batch_size))
           + i mod batch_size))).
End Vocabulary.

(** Arena code that has a defined result and can fail only by exhausting
    the arena. *)
Definition only_bad_alloc {A : Type} (m : ArenaMonad.ArenaM A) : Prop :=
  forall a, match (m a).1 with
            | Ok _ => True
            | Throw e => e = bad_alloc
            | Undefined => False
            end.

(** The lane-width check of the SIMD variants fails. *)
Definition lane_mismatch (batch_size : nat) (num_paths : Z) : Prop :=
  ArenaModel.to_size_t num_paths mod Z.of_nat batch_size <> 0.

(** [f 0 + ... + f (n - 1)] over the reals. *)
Fixpoint Rsum (f : nat -> R) (n : nat) : R :=
  match n with
  | O => 0%R
  | S n' => (Rsum f n' + f n')%R
  end.

(** Path [i] of [cf] holds [v] at exactly one date, which is at or after
    [t], and the literal zero at every other date. *)
Definition pays_once {D : Type} `{DoubleOps D} (L : Layout D) (M t : nat)
    (v : D) (cf : table L) (i : nat) : Prop :=
  exists j, (t <= j <= M)%nat /\ t_get L cf i j = v /\
            forall j', (j' <= M)%nat -> j' <> j -> t_get L cf i j' = d_zero.

(** What path [i] contributes to the total, as a real number. *)
Definition payoff_or_zero (L : Layout R) (r dt : R) (M : nat) (cf : table L) (i : nat) : R :=
  match @path_payoff R real_ops L r dt M cf i with
  | Some p => p
  | None => 0%R
  end.

(** ** Concrete instances used to run the model *)

(** A generator that replays a fixed table of deviates; it stands in for
    the standard library's generator where a run needs concrete draws. *)
Definition sample_deviates : list float :=
  [0.5; -1.25; 0.25; 2; -0.75; 1.5]%float.

Definition sample_stream : NormalStream float := {|
  rng_state := nat;
  rng_seed := fun seed => Z.to_nat seed;
  rng_draw := fun n => (nth (n mod 6) sample_deviates 0%float, S n)
|}.

(** An exponential for the float instance that is exact at zero, where the
    C library's is exact too ([exp(+-0)] is 1), and otherwise answers
    with [other]. *)
Definition exp_at_zero (other : float -> float) (x : float) : float :=
  if PrimFloat.eqb x 0 then 1%float else other x.

(** A stand-in exponential, exact at zero; it only serves to run the
    model on sample inputs. *)
Definition sample_exp : float -> float :=
  exp_at_zero (fun x => (1 + x + x * x / 2)%float).

(** An exponential for the float instance that is also right where
    binary64 leaves it no choice: above 710 the exponential exceeds the
    largest double and is [+infinity], below -746 it is less than half
    the smallest positive double and is [+0]. *)
Definition exp_out_of_range (other : float -> float) (x : float) : float :=
  if PrimFloat.ltb 710 x then infinity
  else if PrimFloat.ltb x (-746) then 0%float
  else exp_at_zero other x.

Definition sample_arena : ArenaModel.Arena := ArenaModel.mkArena 4096 64.

Definition sample_ops : DoubleOps float := float_ops sample_exp.

(** A two-path lattice and cash-flow table for a three-date grid: path 0
    is in the money at date 1 and holds a terminal cash flow of 10. *)
Definition sample_lattice (i t : nat) : float :=
  match i with O => 90%float | _ => 110%float end.

Definition sample_cash_flows : list (list float) :=
  [[0; 0; 10]; [0; 0; 0]]%float.

Definition sample_deviates_R : list R := [1 / 2; - (5 / 4); 1 / 4; 2]%R.

Definition sample_stream_R : NormalStream R := {|
  rng_state := nat;
  rng_seed := fun seed => Z.to_nat seed;
  rng_draw := fun n => (nth (n mod 4) sample_deviates_R 0%R, S n)
|}.

(** Two threads that take the iterations in turn; thread 1 finishes first. *)
Definition two_threads : OmpRuntime :=
  mkOmp 2 (fun _ i => (i mod 2)%nat) (fun w => (1 - w)%nat).

(** ** Vocabulary for comparing variants *)

(** Two tables, each in its own layout, hold the same value at every
    (path, time) of an [N] by [cols] grid. *)
Definition tables_agree {D : Type} `{DoubleOps D} (L1 L2 : Layout D) (N cols : nat)
    (m1 : table L1) (m2 : table L2) : Prop :=
  forall i j, (i < N)%nat -> (j < cols)%nat -> t_get L1 m1 i j = t_get L2 m2 i j.

(** A runtime that runs everything on thread 0. *)
Definition single_threaded (omp : OmpRuntime) : Prop :=
  omp_max_threads omp = 1%nat /\ forall loop i, omp_thread_num omp loop i = 0%nat.

Definition one_thread : OmpRuntime := mkOmp 1 (fun _ _ => 0%nat) (fun _ => 0%nat).

(** Every entry of path [i] up to date [M] is the literal zero or the
    exercise value [K - S(i, j)] of its own date, which then tests
    positive. *)
Definition cf_intrinsic {D : Type} `{DoubleOps D} (L : Layout D)
    (S : nat -> nat -> D) (K : D) (N M : nat) (cf : table L) : Prop :=
  forall i j, (i < N)%nat -> (j <= M)%nat ->
    t_get L cf i j = d_zero \/
    (t_get L cf i j = d_sub K (S i j) /\ d_gt (d_sub K (S i j)) d_zero = true).

(** ** Vocabulary for the arena *)

(** Started at offset [off] within the capacity, the arena code [m] ends
    at offset [off'] when the capacity allows it and throws
    [std::bad_alloc] when it does not. *)
Definition arena_usage {A : Type} (m : ArenaMonad.ArenaM A) (off off' : Z) : Prop :=
  forall cap,
    (off' <= cap ->
       exists x, m (ArenaModel.mkArena cap off) = (Ok x, ArenaModel.mkArena cap off')) /\
    (off <= cap < off' ->
       exists a', m (ArenaModel.mkArena cap off) = (Throw bad_alloc, a')).

(** Bytes the arena and mp variants take from the arena: two tables of
    [num_paths * (num_steps + 1)] doubles, [num_paths] ints padded to the
    alignment of a double, and two vectors of [num_paths] doubles. *)
Definition arena_bytes_needed (num_paths num_steps : Z) : Z :=
  16 * (num_paths * (num_steps + 1)) + 8 * ((num_paths + 1) / 2) + 16 * num_paths.

(** Bytes the ultimate variant takes: each table is [num_steps + 1] rows
    copied from a prototype row that is itself allocated from the arena. *)
Definition ultimate_bytes_needed (num_paths num_steps : Z) : Z :=
  16 * (num_paths * (num_steps + 2)) + 8 * ((num_paths + 1) / 2) + 16 * num_paths.

(** ** Vocabulary for the fit, over the reals *)

(** A system laid out as three rows of three and three right-hand sides. *)
Definition explicit_system (s : @system R) : @system R :=
  ([ [@A_get R real_ops s 0 0; @A_get R real_ops s 0 1; @A_get R real_ops s 0 2];
     [@A_get R real_ops s 1 0; @A_get R real_ops s 1 1; @A_get R real_ops s 1 2];
     [@A_get R real_ops s 2 0; @A_get R real_ops s 2 1; @A_get R real_ops s 2 2] ],
   [@b_get R real_ops s 0; @b_get R real_ops s 1; @b_get R real_ops s 2]).

Definition is_3x3 (s : @system R) : Prop := s = explicit_system s.

(** The determinant of [A]. *)
Definition det3 (s : @system R) : R :=
  let a := @A_get R real_ops s in
  let '(a00, a01, a02) := (a 0 0, a 0 1, a 0 2)%nat in
  let '(a10, a11, a12) := (a 1 0, a 1 1, a 1 2)%nat in
  let '(a20, a21, a22) := (a 2 0, a 2 1, a 2 2)%nat in
  (a00 * (a11 * a22 - a12 * a21)
   - a01 * (a10 * a22 - a12 * a20)
   + a02 * (a10 * a21 - a11 * a20))%R.

(** [A c = b]. *)
Definition solves (s : @system R) (c0 c1 c2 : R) : Prop :=
  let a := @A_get R real_ops s in
  let b := @b_get R real_ops s in
  let '(a00, a01, a02, b0) := (a 0 0, a 0 1, a 0 2, b 0)%nat in
  let '(a10, a11, a12, b1) := (a 1 0, a 1 1, a 1 2, b 1)%nat in
  let '(a20, a21, a22, b2) := (a 2 0, a 2 1, a 2 2, b 2)%nat in
  (a00 * c0 + a01 * c1 + a02 * c2 = b0)%R /\
  (a10 * c0 + a11 * c1 + a12 * c2 = b1)%R /\
  (a20 * c0 + a21 * c1 + a22 * c2 = b2)%R.

(** The sum of a list of reals. *)
Definition Rlist_sum (l : list R) : R := fold_right Rplus 0%R l.

(** The residuals [y_i - (c2 x_i^2 + c1 x_i + c0)] of a quadratic given by
    its coefficients, highest power first. *)
Definition residuals (coeffs : list R) (x y : list R) : list (R * R) :=
  map (fun p : R * R =>
         (p.1, (p.2 - @continuation_value R real_ops coeffs p.1)%R))
      (zip x y).

(** The value of the quadratic with coefficients [c2 c1 c0]. *)
Definition quadratic (c2 c1 c0 x : R) : R := (c2 * x * x + c1 * x + c0)%R.

(** ** bindings.cpp: the functions exported to Python *)

(** How a call of an exported function ends: with a value, with the
    [py::value_error] a handler throws, with a C++ exception that no
    handler of the binding catches, or with no defined result. *)
Inductive py_outcome (A : Type) : Type :=
  | Returned (a : A)
  | Raised_value_error
  | Propagated (e : exn)
  | No_defined_result.
Arguments Returned {A} a.
Arguments Raised_value_error {A}.
Arguments Propagated {A} e.
Arguments No_defined_result {A}.

(** A lambda without a handler. *)
Definition no_handler {A} (o : outcome A) : py_outcome A :=
  match o with
  | Ok a => Returned a
  | Throw e => Propagated e
  | Undefined => No_defined_result
  end.

(** [try { return f(...); } catch (const std::runtime_error& e) { throw py::value_error(e.what()); }] *)
Definition catch_runtime_error {A} (o : outcome A) : py_outcome A :=
  match o with
  | Ok a => Returned a
  | Throw runtime_error => Raised_value_error
  | Throw e => Propagated e
  | Undefined => No_defined_result
  end.

(** [static_cast<double>(n)] for a [size_t]: rounded to nearest, ties to
    even; above [2^63] through the halved value with a sticky low bit. *)
Definition double_of_size_t (z : Z) : float :=
  if z <? 2 ^ 63 then PrimFloat.of_uint63 (Uint63.of_Z z)
  else (PrimFloat.of_uint63 (Uint63.of_Z (Z.lor (z / 2) (z mod 2))) * 2)%float.

(** [static_cast<size_t>(x)] for a double: truncation, defined for a
    finite [x] in [0, 2^64). *)
Definition size_t_of_double (x : float) : Z :=
  match Prim2SF x with
  | S754_finite false m e =>
      match e with
      | Z0 => Zpos m
      | Zpos p => Zpos m * 2 ^ Zpos p
      | Zneg p => Zpos m / 2 ^ Zpos p
      end
  | _ => 0
  end.

Section Bindings.
Context {D : Type} `{DoubleOps D} `{NormalStream D}.
Import ArenaModel ArenaMonad.
Variable batch_size : nat.
Variable omp : OmpRuntime.

(** [total_bytes_needed] of the arena-backed lambdas, in [size_t];
    [num_steps + 1] is taken in [int] before it is converted. *)
Definition total_bytes_needed (num_paths num_steps : Z) : Z :=
  let s_matrix_bytes :=
    to_size_t (to_size_t (to_size_t num_paths * to_size_t (to_int (num_steps + 1)))
               * sizeof_double) in
  let cf_matrix_bytes := s_matrix_bytes in
  let itm_paths_bytes := to_size_t (to_size_t num_paths * sizeof_int) in
  let x_itm_bytes := to_size_t (to_size_t num_paths * sizeof_double) in
  let y_itm_bytes := x_itm_bytes in
  to_size_t (s_matrix_bytes + cf_matrix_bytes + itm_paths_bytes
             + x_itm_bytes + y_itm_bytes).

(** [static_cast<size_t>(total_bytes_needed * 1.1)] *)
Definition scaled_bytes (num_paths num_steps : Z) : Z :=
  size_t_of_double
    (PrimFloat.mul (double_of_size_t (total_bytes_needed num_paths num_steps))
                   0x1.199999999999ap+0%float).

(** [size_t overhead = 1024 * 10;] *)
Definition overhead : Z := 1024 * 10.

Definition memory_estimate (b : Backend) (num_paths num_steps : Z) : Z :=
  match b with
  | CppArena => scaled_bytes num_paths num_steps
  | CppMp | CppUltimate => to_size_t (scaled_bytes num_paths num_steps + overhead)
  | Cpp | CppSimd => 0
  end.

(** The five functions of the module [lsm_cpp_backend]: the scalar one
    is exported as it is; each arena-backed lambda builds an arena of
    its estimate; the SIMD and ultimate lambdas translate
    [std::runtime_error]. *)
Definition lsm_cpp_backend (b : Backend) (S0 K T r sigma : D)
    (num_paths num_steps seed : Z) : py_outcome D :=
  let arena := new_arena (memory_estimate b num_paths num_steps) in
  let result :=
    (price batch_size omp b arena S0 K T r sigma num_paths num_steps seed).1 in
  match b with
  | Cpp | CppArena | CppMp => no_handler result
  | CppSimd | CppUltimate => catch_runtime_error result
  end.
End Bindings.

(** ** int arithmetic and the order of the reduction *)

Section IntProofs.
Lemma to_int_small z : INT_MIN <= z <= INT_MAX -> to_int z = z.
Proof.
  unfold to_int, INT_MIN, INT_MAX. intros Hz.
  rewrite Z.mod_small; lia.
Qed.

Lemma to_int_range z : INT_MIN <= to_int z <= INT_MAX.
Proof.
  unfold to_int, INT_MIN, INT_MAX.
  pose proof (Z.mod_pos_bound (z - - 2 ^ 31) (2 ^ 32) ltac:(lia)). lia.
Qed.

Lemma is_int_spec z : is_int z = true <-> INT_MIN <= z <= INT_MAX.
Proof. unfold is_int. rewrite andb_true_iff, !Z.leb_le. done. Qed.

Lemma int_counts_spec num_paths num_steps :
  int_counts num_paths num_steps = true <->
  (INT_MIN <= num_paths <= INT_MAX) /\ (INT_MIN <= num_steps <= INT_MAX).
Proof. unfold int_counts. by rewrite andb_true_iff, !is_int_spec. Qed.

(** [num_steps + 1] at the largest [int] wraps to the smallest. *)
Lemma to_int_succ_max : to_int (INT_MAX + 1) = INT_MIN.
Proof. reflexivity. Qed.

Lemma insert_thread_perm finish w l : Permutation (insert_thread finish w l) (w :: l).
Proof.
  induction l as [|w' l IH]; simpl; [done|].
  destruct (finish w <=? finish w')%nat; [done|].
  rewrite IH. apply perm_swap.
Qed.

(** Every thread is combined once. *)
Lemma finish_order_perm omp : Permutation (finish_order omp) (seq 0 (omp_max_threads omp)).
Proof.
  unfold finish_order. induction (seq 0 (omp_max_threads omp)) as [|w l IH]; simpl; [done|].
  by rewrite insert_thread_perm, IH.
Qed.

Lemma finish_order_single omp : omp_max_threads omp = 1%nat -> finish_order omp = [0%nat].
Proof. unfold finish_order. by intros ->. Qed.
End IntProofs.

(** * Properties *)

(** ** Layout laws *)

Section LayoutProofs.
Context {D : Type} `{DoubleOps D}.

Lemma vget_insert_eq (v : list D) i x : (i < length v)%nat -> vget (<[i := x]> v) i = x.
Proof. intros Hi. unfold vget. by rewrite list_lookup_insert_eq. Qed.

Lemma vget_insert_ne (v : list D) i j x : i <> j -> vget (<[i := x]> v) j = vget v j.
Proof. intros Hne. unfold vget. by rewrite list_lookup_insert_ne. Qed.

Lemma vget_replicate n (x : D) i : (i < n)%nat -> vget (replicate n x) i = x.
Proof. intros Hi. unfold vget. by rewrite lookup_replicate_2. Qed.

Lemma vrow_insert_eq (m : list (list D)) i row :
  (i < length m)%nat -> vrow (<[i := row]> m) i = row.
Proof. intros Hi. unfold vrow. by rewrite list_lookup_insert_eq. Qed.

Lemma vrow_insert_ne (m : list (list D)) i j row :
  i <> j -> vrow (<[i := row]> m) j = vrow m j.
Proof. intros Hne. unfold vrow. by rewrite list_lookup_insert_ne. Qed.

Lemma vrow_length n len (m : list (list D)) i :
  rows_shape n len m -> (i < n)%nat -> length (vrow m i) = len.
Proof.
  intros [Hlen Hall] Hi. unfold vrow.
  destruct (m !! i) as [row|] eqn:E.
  - simpl. by eapply (Forall_lookup_1 _ _ _ _ Hall E).
  - apply lookup_ge_None in E. lia.
Qed.

Lemma rows_shape_insert n len (m : list (list D)) i row :
  rows_shape n len m -> length row = len -> rows_shape n len (<[i := row]> m).
Proof.
  intros [Hlen Hall] Hrow. split.
  - by rewrite length_insert.
  - by apply Forall_insert.
Qed.

Lemma rows_shape_set_inner n len (m : list (list D)) i j v :
  rows_shape n len m -> rows_shape n len (<[i := <[j := v]> (vrow m i)]> m).
Proof.
  intros Hm. destruct (decide (i < n)%nat) as [Hi|Hi].
  - apply rows_shape_insert; [done|]. rewrite length_insert. by eapply vrow_length.
  - rewrite list_insert_ge; [done|]. destruct Hm. lia.
Qed.

Lemma rows_shape_replicate n len (x : D) :
  rows_shape n len (replicate n (replicate len x)).
Proof.
  split; [by rewrite length_replicate|].
  apply Forall_replicate. by rewrite length_replicate.
Qed.

Lemma path_major_laws N cols : LayoutLaws path_major N cols (rows_shape N cols).
Proof.
  split; simpl.
  - apply rows_shape_replicate.
  - intros. by apply rows_shape_set_inner.
  - intros i j Hi Hj. unfold vrow. rewrite lookup_replicate_2 by done. simpl.
    by apply vget_replicate.
  - intros m i j v Hm Hi Hj.
    rewrite vrow_insert_eq by (destruct Hm; lia).
    apply vget_insert_eq. by rewrite (vrow_length N cols).
  - intros m i j i' j' v Hm Hi Hj Hi' Hj' Hne.
    destruct (decide (i = i')) as [->|Hii].
    + rewrite vrow_insert_eq by (destruct Hm; lia).
      apply vget_insert_ne. congruence.
    + by rewrite vrow_insert_ne.
Qed.

Lemma time_major_laws N cols : LayoutLaws time_major N cols (rows_shape cols N).
Proof.
  split; simpl.
  - apply rows_shape_replicate.
  - intros. by apply rows_shape_set_inner.
  - intros i j Hi Hj. unfold vrow. rewrite lookup_replicate_2 by done. simpl.
    by apply vget_replicate.
  - intros m i j v Hm Hi Hj.
    rewrite vrow_insert_eq by (destruct Hm; lia).
    apply vget_insert_eq. by rewrite (vrow_length cols N).
  - intros m i j i' j' v Hm Hi Hj Hi' Hj' Hne.
    destruct (decide (j = j')) as [->|Hjj].
    + rewrite vrow_insert_eq by (destruct Hm; lia).
      apply vget_insert_ne. congruence.
    + by rewrite vrow_insert_ne.
Qed.

Lemma flat_index_inj cols i j i' j' :
  (j < cols)%nat -> (j' < cols)%nat ->
  (i * cols + j = i' * cols + j')%nat -> i = i' /\ j = j'.
Proof.
  intros Hj Hj' Heq.
  assert (i = i') as ->; [|lia].
  destruct (Nat.lt_trichotomy i i') as [Hlt|[Heq'|Hgt]]; [|done|].
  - assert ((i + 1) * cols <= i' * cols)%nat by (apply Nat.mul_le_mono_r; lia). lia.
  - assert ((i' + 1) * cols <= i * cols)%nat by (apply Nat.mul_le_mono_r; lia). lia.
Qed.

Lemma flat_laws N cols :
  LayoutLaws (flat cols) N cols (fun m : list D => length m = (N * cols)%nat).
Proof.
  split; simpl.
  - by rewrite length_replicate.
  - intros m i j v Hm. by rewrite length_insert.
  - intros i j Hi Hj. apply vget_replicate. nia.
  - intros m i j v Hm Hi Hj. apply vget_insert_eq. nia.
  - intros m i j i' j' v Hm Hi Hj Hi' Hj' Hne.
    apply vget_insert_ne. intros Heq.
    apply flat_index_inj in Heq as [-> ->]; done.
Qed.

Lemma backend_laws (b : Backend) N cols :
  LayoutLaws (backend_layout b cols) N cols (backend_shape b N cols).
Proof.
  destruct b; simpl.
  - apply path_major_laws.
  - apply flat_laws.
  - apply time_major_laws.
  - apply flat_laws.
  - apply time_major_laws.
Qed.
End LayoutProofs.

(** ** Backward induction on any layout *)

Section FoldLemmas.
Lemma fold_left_invariant {A B} (f : A -> B -> A) (P : A -> Prop) l a :
  P a -> (forall a b, In b l -> P a -> P (f a b)) -> P (fold_left f l a).
Proof.
  revert a. induction l as [|b l IH]; intros a Ha Hstep; simpl; [done|].
  apply IH.
  - apply Hstep; [by left|done].
  - intros a' b' Hin. apply Hstep. by right.
Qed.

Lemma find_some_first {A} (p : A -> bool) l x :
  List.find p l = Some x ->
  exists l1 l2, l = l1 ++ x :: l2 /\ p x = true /\ forall y, In y l1 -> p y = false.
Proof.
  induction l as [|a l IH]; simpl; [done|].
  destruct (p a) eqn:Hpa.
  - intros [= ->]. exists [], l. split; [done|]. split; [done|]. intros y [].
  - intros Hfind. destruct (IH Hfind) as (l1 & l2 & -> & Hpx & Hl1).
    exists (a :: l1), l2. split; [done|]. split; [done|].
    intros y [<-|Hy]; [done|by apply Hl1].
Qed.

Lemma find_none_all {A} (p : A -> bool) l :
  List.find p l = None -> forall y, In y l -> p y = false.
Proof. intros Hnone y Hy. by apply (List.find_none p l). Qed.

(** The first hit of a scan over [from, from + len). *)
Lemma find_seq_first (p : nat -> bool) from len j :
  List.find p (seq from len) = Some j ->
  (from <= j < from + len)%nat /\ p j = true /\
  forall j', (from <= j' < j)%nat -> p j' = false.
Proof.
  revert from. induction len as [|len IH]; intros from; simpl; [done|].
  destruct (p from) eqn:Hp.
  - intros [= <-]. split; [lia|]. split; [done|]. intros; lia.
  - intros Hfind. destruct (IH _ Hfind) as (Hr & Hpj & Hbefore).
    split; [lia|]. split; [done|].
    intros j' Hj'. destruct (decide (j' = from)) as [->|Hne]; [done|].
    apply Hbefore. lia.
Qed.

Lemma find_seq_none (p : nat -> bool) from len :
  List.find p (seq from len) = None ->
  forall j, (from <= j < from + len)%nat -> p j = false.
Proof.
  intros Hnone j Hj. apply (List.find_none p _ Hnone). apply in_seq. lia.
Qed.

Lemma fold_left_pointwise {A B} (f g : A -> B -> A) l a :
  (forall a b, f a b = g a b) -> fold_left f l a = fold_left g l a.
Proof.
  intros Hfg. revert a. induction l as [|b l IH]; intros a; simpl; [done|].
  by rewrite Hfg, IH.
Qed.
End FoldLemmas.

Section BackwardProofs.
Context {D : Type} `{DoubleOps D}.
Variable L : Layout D.
Variables N M : nat.
Variable wf : table L -> Prop.
Hypothesis laws : LayoutLaws L N (M + 1) wf.
Variable S : nat -> nat -> D.
Variables K r dt : D.

Local Abbreviation get := (t_get L).
Local Abbreviation set := (t_set L).

(** [std::max(0.0, x)] is the literal zero or tests positive. *)
Lemma d_max_zero_sign (x : D) :
  d_max d_zero x = d_zero \/ d_lt d_zero (d_max d_zero x) = true.
Proof. unfold d_max. destruct (d_lt d_zero x) eqn:E; [by right|by left]. Qed.

(** Writing one column of several paths. *)
Lemma fold_set_column_wf (f : nat -> D) j l cf :
  wf cf -> wf (fold_left (fun cf i => set cf i j (f i)) l cf).
Proof.
  intros Hwf. apply fold_left_invariant; [done|].
  intros a b _ Ha. by apply (wf_set _ _ _ _ laws).
Qed.

Lemma fold_set_column_get (f : nat -> D) j l cf i' j' :
  wf cf -> (j < M + 1)%nat -> (forall i, i ∈ l -> (i < N)%nat) ->
  (i' < N)%nat -> (j' < M + 1)%nat ->
  get (fold_left (fun cf i => set cf i j (f i)) l cf) i' j' =
    if decide (j' = j /\ i' ∈ l) then f i' else get cf i' j'.
Proof.
  intros Hwf Hj Hl Hi' Hj'. revert cf Hwf.
  induction l as [|i l IH] using rev_ind; intros cf Hwf.
  - simpl. case_decide as Hd; [|done]. destruct Hd as [_ Hd]. by apply elem_of_nil in Hd.
  - rewrite fold_left_app. simpl.
    assert (Hi : (i < N)%nat) by (apply Hl, elem_of_app; right; by left).
    assert (Hwf' : wf (fold_left (fun cf i => set cf i j (f i)) l cf))
      by by apply fold_set_column_wf.
    destruct (decide ((i, j) = (i', j'))) as [[= -> ->]|Hne].
    + rewrite (get_set_eq _ _ _ _ laws) by done.
      rewrite decide_True; [done|]. split; [done|]. apply elem_of_app. right. by left.
    + rewrite (get_set_ne _ _ _ _ laws) by done.
      rewrite IH by (done || intros; apply Hl, elem_of_app; by left).
      case_decide as Hd1; case_decide as Hd2; try done.
      * destruct Hd2. destruct Hd1 as [-> Hin]. split; [done|].
        apply elem_of_app. by left.
      * destruct Hd1. destruct Hd2 as [-> Hin]. split; [done|].
        apply elem_of_app in Hin as [Hin|Hin]; [done|].
        apply list_elem_of_singleton in Hin. congruence.
Qed.

(** Writing several columns of one path with one value. *)
Lemma fold_set_row_wf (v : D) i l cf :
  wf cf -> wf (fold_left (fun cf j => set cf i j v) l cf).
Proof.
  intros Hwf. apply fold_left_invariant; [done|].
  intros a b _ Ha. by apply (wf_set _ _ _ _ laws).
Qed.

Lemma fold_set_row_get (v : D) i l cf i' j' :
  wf cf -> (i < N)%nat -> (forall j, j ∈ l -> (j < M + 1)%nat) ->
  (i' < N)%nat -> (j' < M + 1)%nat ->
  get (fold_left (fun cf j => set cf i j v) l cf) i' j' =
    if decide (i' = i /\ j' ∈ l) then v else get cf i' j'.
Proof.
  intros Hwf Hi Hl Hi' Hj'. revert cf Hwf.
  induction l as [|j l IH] using rev_ind; intros cf Hwf.
  - simpl. case_decide as Hd; [|done]. destruct Hd as [_ Hd]. by apply elem_of_nil in Hd.
  - rewrite fold_left_app. simpl.
    assert (Hj : (j < M + 1)%nat) by (apply Hl, elem_of_app; right; by left).
    assert (Hwf' : wf (fold_left (fun cf j => set cf i j v) l cf))
      by by apply fold_set_row_wf.
    destruct (decide ((i, j) = (i', j'))) as [[= -> ->]|Hne].
    + rewrite (get_set_eq _ _ _ _ laws) by done.
      rewrite decide_True; [done|]. split; [done|]. apply elem_of_app. right. by left.
    + rewrite (get_set_ne _ _ _ _ laws) by done.
      rewrite IH by (done || intros; apply Hl, elem_of_app; by left).
      case_decide as Hd1; case_decide as Hd2; try done.
      * destruct Hd2. destruct Hd1 as [-> Hin]. split; [done|].
        apply elem_of_app. by left.
      * destruct Hd1. destruct Hd2 as [-> Hin]. split; [done|].
        apply elem_of_app in Hin as [Hin|Hin]; [done|].
        apply list_elem_of_singleton in Hin. congruence.
Qed.

(** *** Terminal payoffs *)

Lemma terminal_payoffs_wf cf : wf cf -> wf (terminal_payoffs L S K N M cf).
Proof. apply fold_set_column_wf. Qed.

Lemma terminal_payoffs_get cf i j :
  wf cf -> (i < N)%nat -> (j < M + 1)%nat ->
  get (terminal_payoffs L S K N M cf) i j =
    if decide (j = M) then d_max d_zero (d_sub K (S i M)) else get cf i j.
Proof.
  intros Hwf Hi Hj. unfold terminal_payoffs.
  rewrite (fold_set_column_get (fun i => d_max d_zero (d_sub K (S i M))))
    by (done || lia || intros ? ?%elem_of_seq; lia).
  case_decide as Hd1; case_decide as Hd2; try done.
  - by destruct Hd1.
  - destruct Hd1. split; [done|]. apply elem_of_seq. lia.
Qed.

(** *** The exercise update *)

Lemma exercise_update_wf cf t i : wf cf -> wf (exercise_update L S K M cf t i).
Proof. intros Hwf. apply fold_set_row_wf. by apply (wf_set _ _ _ _ laws). Qed.

Lemma exercise_update_get cf t i i' j' :
  wf cf -> (i < N)%nat -> (t <= M)%nat -> (i' < N)%nat -> (j' < M + 1)%nat ->
  get (exercise_update L S K M cf t i) i' j' =
    if decide (i' = i) then
      if decide (j' = t) then intrinsic_value S K t i
      else if decide (t < j')%nat then d_zero else get cf i' j'
    else get cf i' j'.
Proof.
  intros Hwf Hi Ht Hi' Hj'. unfold exercise_update.
  rewrite fold_set_row_get;
    [|by apply (wf_set _ _ _ _ laws)|done|intros ? ?%elem_of_seq; lia|done|done].
  case_decide as Hd.
  - destruct Hd as [-> Hin%elem_of_seq].
    rewrite decide_True by done. rewrite decide_False by lia.
    by rewrite decide_True by lia.
  - destruct (decide (i' = i)) as [->|Hne].
    + destruct (decide (j' = t)) as [->|Hjt].
      * by rewrite (get_set_eq _ _ _ _ laws) by (done || lia).
      * rewrite (get_set_ne _ _ _ _ laws) by (done || lia || congruence).
        case_decide as Hlt; [|done].
        destruct Hd. split; [done|]. apply elem_of_seq. lia.
    + by rewrite (get_set_ne _ _ _ _ laws) by (done || lia || congruence).
Qed.

(** *** One date *)

Lemma in_the_money_paths_spec t i :
  In i (in_the_money_paths S K N t) <->
  (i < N)%nat /\ d_gt (d_sub K (S i t)) d_zero = true.
Proof.
  unfold in_the_money_paths. rewrite filter_In, in_seq. intuition lia.
Qed.

Lemma zip_x_itm t :
  zip (in_the_money_paths S K N t) (x_itm S K N t) =
  map (fun i => (i, S i t)) (in_the_money_paths S K N t).
Proof.
  unfold x_itm. induction (in_the_money_paths S K N t) as [|i l IH]; simpl; [done|].
  by rewrite <- IH.
Qed.

(** A property kept by every exercise update of date [t] is kept by the date. *)
Lemma process_date_invariant (P : table L -> Prop) cf t :
  P cf ->
  (forall cf i, (i < N)%nat -> d_gt (d_sub K (S i t)) d_zero = true ->
                P cf -> P (exercise_update L S K M cf t i)) ->
  P (process_date L S K r dt N M cf t).
Proof.
  intros HP Hstep. unfold process_date.
  destruct (x_itm S K N t) eqn:Ex; [done|]. rewrite <- Ex. clear Ex.
  rewrite zip_x_itm. apply fold_left_invariant; [done|].
  intros a p Hin Ha. apply in_map_iff in Hin as (i & <- & Hi).
  apply in_the_money_paths_spec in Hi as [Hi Hitm].
  unfold exercise_step. simpl. destruct (exercises _ _ _ _ _ _); [|done].
  by apply Hstep.
Qed.

Lemma process_date_wf cf t : wf cf -> wf (process_date L S K r dt N M cf t).
Proof.
  intros Hwf. apply (process_date_invariant wf); [done|].
  intros. by apply exercise_update_wf.
Qed.

(** A date writes nothing but zeros outside its own column. *)
Lemma process_date_keeps_zero cf t i j :
  wf cf -> (t <= M)%nat -> (i < N)%nat -> (j <= M)%nat -> j <> t ->
  get cf i j = d_zero -> get (process_date L S K r dt N M cf t) i j = d_zero.
Proof.
  intros Hwf Ht Hi Hj Hne Hz.
  apply (process_date_invariant (fun cf => wf cf /\ get cf i j = d_zero)); [done|].
  intros cf' i' Hi' _ [Hwf' Hz']. split; [by apply exercise_update_wf|].
  rewrite exercise_update_get by (done || lia).
  repeat case_decide; done.
Qed.

Lemma cf_inv_weaken t cf : cf_inv L N M (t + 1) cf -> cf_inv L N M t cf.
Proof.
  intros Hinv i Hi. destruct (Hinv i Hi) as [Hbefore Hafter]. split.
  - intros j Hj. apply Hbefore. lia.
  - intros j1 j2 Hj1 Hj2 Hnz. destruct (decide (j1 = t)) as [->|Hne].
    + destruct Hnz. apply Hbefore. lia.
    + apply (Hafter j1 j2); [lia|done|done].
Qed.

Lemma cf_inv_weaken_le t t' cf : (t' <= t)%nat -> cf_inv L N M t cf -> cf_inv L N M t' cf.
Proof.
  induction 1 as [|t Hle IH]; [done|].
  intros Hinv. apply IH, cf_inv_weaken. by replace (t + 1)%nat with (Datatypes.S t) by lia.
Qed.

Lemma exercise_update_cf_inv cf t i :
  wf cf -> (i < N)%nat -> (t <= M)%nat ->
  cf_inv L N M t cf -> cf_inv L N M t (exercise_update L S K M cf t i).
Proof.
  intros Hwf Hi Ht Hinv i' Hi'. destruct (Hinv i' Hi') as [Hbefore Hafter]. split.
  - intros j Hj. rewrite exercise_update_get by (done || lia).
    repeat case_decide; try lia; by apply Hbefore.
  - intros j1 j2 Hj1 Hj2. rewrite !exercise_update_get by (done || lia).
    repeat case_decide; try lia; try done. by apply Hafter.
Qed.

Lemma process_date_cf_inv cf t :
  wf cf -> (t <= M)%nat ->
  cf_inv L N M (t + 1) cf -> cf_inv L N M t (process_date L S K r dt N M cf t).
Proof.
  intros Hwf Ht Hinv.
  apply (process_date_invariant (fun cf => wf cf /\ cf_inv L N M t cf)).
  - split; [done|]. by apply cf_inv_weaken.
  - intros cf' i Hi _ [Hwf' Hinv']. split; [by apply exercise_update_wf|].
    by apply exercise_update_cf_inv.
Qed.

Lemma exercise_update_cf_sign cf t i :
  wf cf -> (i < N)%nat -> (t <= M)%nat ->
  cf_sign L N M cf -> cf_sign L N M (exercise_update L S K M cf t i).
Proof.
  intros Hwf Hi Ht Hsign i' j' Hi' Hj'. rewrite exercise_update_get by (done || lia).
  repeat case_decide; try by apply Hsign.
  - apply d_max_zero_sign.
  - by left.
Qed.

Lemma process_date_cf_sign cf t :
  wf cf -> (t <= M)%nat ->
  cf_sign L N M cf -> cf_sign L N M (process_date L S K r dt N M cf t).
Proof.
  intros Hwf Ht Hsign.
  apply (process_date_invariant (fun cf => wf cf /\ cf_sign L N M cf)); [done|].
  intros cf' i Hi _ [Hwf' Hs']. split; [by apply exercise_update_wf|].
  by apply exercise_update_cf_sign.
Qed.

(** If the decision of date [t] is to exercise on path [i], the date
    leaves the intrinsic value at [(i, t)] and zeros after it. *)
Lemma process_date_exercised cf t i :
  wf cf -> (t <= M)%nat -> In i (in_the_money_paths S K N t) ->
  exercises S K (polyfit (x_itm S K N t) (y_itm L S K r dt N M cf t)) t i (S i t) = true ->
  get (process_date L S K r dt N M cf t) i t = intrinsic_value S K t i /\
  forall j, (t < j <= M)%nat -> get (process_date L S K r dt N M cf t) i j = d_zero.
Proof.
  intros Hwf Ht Hin Hex.
  assert (Hi : (i < N)%nat) by by apply in_the_money_paths_spec in Hin as [? _].
  unfold process_date.
  destruct (x_itm S K N t) as [|x0 xs] eqn:Ex.
  { unfold x_itm in Ex. apply map_eq_nil in Ex. rewrite Ex in Hin. destruct Hin. }
  rewrite <- Ex in *. clear Ex. rewrite zip_x_itm.
  set (coeffs := polyfit _ _) in *.
  set (Q := fun cf : table L =>
              wf cf /\ (get cf i t = intrinsic_value S K t i /\
                        forall j, (t < j <= M)%nat -> get cf i j = d_zero)).
  assert (Hstep : forall cf p, In p (in_the_money_paths S K N t) -> wf cf ->
            (Q cf \/ p = i) ->
            Q (exercise_step L S K M coeffs t cf (p, S p t))).
  { intros cf' p Hp Hwf' Hcase.
    assert (Hp' : (p < N)%nat) by by apply in_the_money_paths_spec in Hp as [? _].
    unfold exercise_step. simpl.
    destruct (exercises S K coeffs t p (S p t)) eqn:Ep.
    - split; [by apply exercise_update_wf|].
      split.
      + rewrite exercise_update_get by (done || lia).
        destruct Hcase as [(_ & Hq & _)| ->]; repeat case_decide; try done; congruence.
      + intros j Hj. rewrite exercise_update_get by (done || lia).
        destruct Hcase as [(_ & _ & Hq)| ->]; repeat case_decide; try done; try lia.
        by apply Hq.
    - destruct Hcase as [HQ| ->]; [done|]. congruence. }
  assert (Hfold : forall l cf, (forall p, In p l -> In p (in_the_money_paths S K N t)) ->
            wf cf -> (Q cf \/ In i l) ->
            Q (fold_left (exercise_step L S K M coeffs t)
                         (map (fun p => (p, S p t)) l) cf)).
  { induction l as [|p l IH]; intros cf' Hl Hwf' Hcase; simpl.
    - simpl in Hcase. by destruct Hcase as [HQ|[]].
    - assert (Hp : In p (in_the_money_paths S K N t)) by (apply Hl; by left).
      assert (Hl' : forall p, In p l -> In p (in_the_money_paths S K N t))
        by (intros; apply Hl; by right).
      assert (Hwf'' : wf (exercise_step L S K M coeffs t cf' (p, S p t))).
      { unfold exercise_step. simpl.
        destruct (exercises S K coeffs t p (S p t)); [|done].
        by apply exercise_update_wf. }
      simpl in Hcase. destruct Hcase as [HQ|[->|Hin']].
      + apply IH; [done|done|]. left. apply Hstep; [done|done|by left].
      + apply IH; [done|done|]. left. apply Hstep; [done|done|by right].
      + apply IH; [done|done|]. by right. }
  apply (Hfold _ cf); [done|done|by right].
Qed.

(** *** All the dates *)

Lemma dates_down_to_step t :
  (t < M)%nat -> dates_down_to M t = dates_down_to M (t + 1) ++ [t].
Proof.
  intros Ht. unfold dates_down_to.
  replace (M - t)%nat with (Datatypes.S (M - (t + 1))) by lia.
  simpl. by replace (Datatypes.S t) with (t + 1)%nat by lia.
Qed.

Lemma dates_down_to_done t : (M <= t)%nat -> dates_down_to M t = [].
Proof. intros Ht. unfold dates_down_to. by replace (M - t)%nat with 0%nat by lia. Qed.

Lemma backward_down_to_step t cf :
  (t < M)%nat ->
  backward_down_to L S K r dt N M t cf =
  process_date L S K r dt N M (backward_down_to L S K r dt N M (t + 1) cf) t.
Proof.
  intros Ht. unfold backward_down_to. rewrite dates_down_to_step by done.
  by rewrite fold_left_app.
Qed.

Lemma backward_down_to_done t cf :
  (M <= t)%nat -> backward_down_to L S K r dt N M t cf = cf.
Proof. intros Ht. unfold backward_down_to. by rewrite dates_down_to_done. Qed.

(** Induction over the dates, from [M] downwards. *)
Lemma backward_down_to_ind (P : nat -> table L -> Prop) cf :
  P M cf ->
  (forall t cf', (t < M)%nat -> P (t + 1)%nat cf' ->
                 P t (process_date L S K r dt N M cf' t)) ->
  forall t, (t <= M)%nat -> P t (backward_down_to L S K r dt N M t cf).
Proof.
  intros Hbase Hstep t Ht.
  remember (M - t)%nat as k eqn:Ek. revert t Ht Ek.
  induction k as [|k IH]; intros t Ht Ek.
  - assert (t = M) as -> by lia. by rewrite backward_down_to_done.
  - rewrite backward_down_to_step by lia. apply Hstep; [lia|].
    apply IH; lia.
Qed.

Lemma backward_down_to_wf t cf : wf cf -> wf (backward_down_to L S K r dt N M t cf).
Proof.
  intros Hwf. unfold backward_down_to. apply fold_left_invariant; [done|].
  intros. by apply process_date_wf.
Qed.

Lemma backward_down_to_cf_inv t cf :
  wf cf -> (t <= M)%nat -> cf_inv L N M M cf ->
  cf_inv L N M t (backward_down_to L S K r dt N M t cf).
Proof.
  intros Hwf Ht Hinv.
  apply (backward_down_to_ind (fun t cf => wf cf /\ cf_inv L N M t cf)); [done| |done].
  intros t' cf' Ht' [Hwf' Hinv']. split; [by apply process_date_wf|].
  apply process_date_cf_inv; [done|lia|done].
Qed.

Lemma backward_down_to_cf_sign t cf :
  wf cf -> cf_sign L N M cf -> cf_sign L N M (backward_down_to L S K r dt N M t cf).
Proof.
  intros Hwf Hsign.
  destruct (decide (t <= M)%nat) as [Ht|Ht]; [|by rewrite backward_down_to_done by lia].
  apply (backward_down_to_ind (fun _ cf => wf cf /\ cf_sign L N M cf)); [done| |done].
  intros t' cf' Ht' [Hwf' Hs']. split; [by apply process_date_wf|].
  apply process_date_cf_sign; [done|lia|done].
Qed.

(** Zeros after column [t] survive the dates before [t]. *)
Lemma backward_down_to_keeps_zero t t' cf i j :
  wf cf -> (t' <= t <= M)%nat -> (i < N)%nat -> (t < j <= M)%nat ->
  get (backward_down_to L S K r dt N M t cf) i j = d_zero ->
  get (backward_down_to L S K r dt N M t' cf) i j = d_zero.
Proof.
  intros Hwf Ht Hi Hj Hz.
  remember (t - t')%nat as k eqn:Ek. revert t' Ht Ek.
  induction k as [|k IH]; intros t' Ht Ek.
  - by assert (t' = t) as -> by lia.
  - rewrite backward_down_to_step by lia.
    apply process_date_keeps_zero; [by apply backward_down_to_wf|lia|done|lia|lia|].
    apply IH; lia.
Qed.

(** *** The table a call ends with *)

Lemma terminal_cf_inv cf :
  wf cf -> (forall i j, (i < N)%nat -> (j < M + 1)%nat -> get cf i j = d_zero) ->
  cf_inv L N M M (terminal_payoffs L S K N M cf).
Proof.
  intros Hwf Hz i Hi. split.
  - intros j Hj. rewrite terminal_payoffs_get by (done || lia).
    rewrite decide_False by lia. apply Hz; [done|lia].
  - intros j1 j2 Hj1 Hj2. lia.
Qed.

Lemma terminal_cf_sign cf :
  wf cf -> (forall i j, (i < N)%nat -> (j < M + 1)%nat -> get cf i j = d_zero) ->
  cf_sign L N M (terminal_payoffs L S K N M cf).
Proof.
  intros Hwf Hz i j Hi Hj. rewrite terminal_payoffs_get by (done || lia).
  case_decide; [apply d_max_zero_sign|]. left. apply Hz; [done|lia].
Qed.

Lemma cf_inv_single_exercise cf : cf_inv L N M 1 cf -> single_exercise L N M cf.
Proof.
  intros Hinv i j1 j2 Hi Hj1 Hj2 Hnz1 Hnz2.
  destruct (Hinv i Hi) as [_ Hafter].
  destruct (Nat.lt_trichotomy j1 j2) as [Hlt|[Heq|Hgt]]; [|done|].
  - destruct Hnz2. apply (Hafter j1 j2); [lia|lia|done].
  - destruct Hnz1. apply (Hafter j2 j1); [lia|lia|done].
Qed.
End BackwardProofs.

(** ** Forward simulation *)

Section StreamProofs.
Context {D : Type} `{DoubleOps D} `{NormalStream D}.

Lemma rng_advance_add a b g : rng_advance (a + b) g = rng_advance b (rng_advance a g).
Proof. revert g. induction a as [|a IH]; intros g; simpl; [done|]. apply IH. Qed.

Lemma rng_advance_succ k g : rng_advance (Datatypes.S k) g = (rng_draw (rng_advance k g)).2.
Proof.
  replace (Datatypes.S k) with (k + 1)%nat by lia. by rewrite rng_advance_add.
Qed.

Lemma nth_draw_advance a g k : nth_draw (rng_advance a g) k = nth_draw g (a + k).
Proof. unfold nth_draw. by rewrite rng_advance_add. Qed.

Lemma rng_draw_nth g k :
  rng_draw (rng_advance k g) = (nth_draw g k, rng_advance (Datatypes.S k) g).
Proof. rewrite rng_advance_succ. unfold nth_draw. by destruct (rng_draw _). Qed.
End StreamProofs.

Section ScalarForward.
Context {D : Type} `{DoubleOps D} `{NormalStream D}.
Variable L : Layout D.
Variables N M : nat.
Variable wf : table L -> Prop.
Hypothesis laws : LayoutLaws L N (M + 1) wf.
Variables S0 r sigma dt : D.

Local Abbreviation get := (t_get L).
Local Abbreviation set := (t_set L).
Local Abbreviation grow := (growth r sigma dt).

(** Path [i] after its first [k] time steps. *)
Lemma simulate_steps_spec i k S g :
  wf S -> (i < N)%nat -> (k <= M)%nat ->
  let st := fold_left (simulate_step r sigma dt L i) (seq 1 k) (set S i 0 S0, g) in
  wf st.1 /\ st.2 = rng_advance k g /\
  get st.1 i 0 = S0 /\
  (forall j, (1 <= j <= k)%nat ->
     get st.1 i j = d_mul (get st.1 i (j - 1)) (grow (nth_draw g (j - 1)))) /\
  (forall i' j', (i' < N)%nat -> (j' < M + 1)%nat -> i' <> i ->
     get st.1 i' j' = get S i' j').
Proof.
  intros Hwf Hi. induction k as [|k IH]; intros Hk; cbv zeta.
  - simpl. split; [by apply (wf_set _ _ _ _ laws)|]. split; [done|].
    split; [by rewrite (get_set_eq _ _ _ _ laws) by (done || lia)|].
    split; [intros; lia|].
    intros i' j' Hi' Hj' Hne.
    by rewrite (get_set_ne _ _ _ _ laws) by (done || lia || congruence).
  - rewrite seq_S, fold_left_app. simpl.
    destruct IH as (Hwf' & Hg & Hz0 & Hrec & Hother); [lia|].
    set (st := fold_left _ (seq 1 k) _) in *.
    assert (Hstep : simulate_step r sigma dt L i st (Datatypes.S k) =
              (set st.1 i (Datatypes.S k) (d_mul (get st.1 i k) (grow (nth_draw g k))),
               rng_advance (Datatypes.S k) g)).
    { unfold simulate_step. rewrite Hg, rng_draw_nth.
      by replace (Datatypes.S k - 1)%nat with k by lia. }
    rewrite Hstep. cbn [fst snd].
    split; [by apply (wf_set _ _ _ _ laws)|]. split; [done|].
    split; [by rewrite (get_set_ne _ _ _ _ laws) by (done || lia || congruence)|].
    split.
    + intros j Hj. destruct (decide (j = Datatypes.S k)) as [->|Hne].
      * rewrite (get_set_eq _ _ _ _ laws) by (done || lia).
        rewrite (get_set_ne _ _ _ _ laws) by (done || lia || (intros [=]; lia)).
        by replace (Datatypes.S k - 1)%nat with k by lia.
      * rewrite !(get_set_ne _ _ _ _ laws) by (done || lia || (intros [=]; lia)).
        apply Hrec. lia.
    + intros i' j' Hi' Hj' Hne.
      rewrite (get_set_ne _ _ _ _ laws) by (done || lia || congruence).
      by apply Hother.
Qed.

(** The lattice after the first [n] paths. *)
Lemma simulate_paths_prefix n S g :
  wf S -> (n <= N)%nat ->
  let st := fold_left (simulate_path S0 r sigma dt M L) (seq 0 n) (S, g) in
  wf st.1 /\ st.2 = rng_advance (n * M) g /\
  forall i, (i < n)%nat ->
    get st.1 i 0 = S0 /\
    forall j, (1 <= j <= M)%nat ->
      get st.1 i j =
      d_mul (get st.1 i (j - 1)) (grow (nth_draw g (i * M + (j - 1)))).
Proof.
  intros Hwf. induction n as [|n IH]; intros Hn; cbv zeta.
  - simpl. split; [done|]. split; [done|]. intros; lia.
  - rewrite seq_S, fold_left_app. simpl.
    destruct IH as (Hwf' & Hg & Hrows); [lia|].
    set (st := fold_left _ (seq 0 n) _) in *.
    unfold simulate_path.
    destruct (simulate_steps_spec n M st.1 st.2) as (Hwf2 & Hg2 & Hz0 & Hrec & Hother);
      [done|lia|lia|].
    set (st' := fold_left _ (seq 1 M) _) in *.
    split; [done|]. split.
    { rewrite Hg2, Hg, <- rng_advance_add. f_equal. lia. }
    intros i Hi. destruct (decide (i = n)) as [->|Hne].
    + split; [done|]. intros j Hj. rewrite (Hrec j Hj), Hg.
      by rewrite nth_draw_advance.
    + destruct (Hrows i) as [Hi0 Hirec]; [lia|]. split.
      * rewrite Hother by (done || lia). done.
      * intros j Hj. rewrite !Hother by (done || lia). by apply Hirec.
Qed.

Lemma simulate_paths_spec S g :
  wf S ->
  let S' := (simulate_paths S0 r sigma dt N M L S g).1 in
  wf S' /\
  forall i, (i < N)%nat ->
    get S' i 0 = S0 /\
    forall j, (1 <= j <= M)%nat ->
      get S' i j = d_mul (get S' i (j - 1)) (grow (nth_draw g (i * M + (j - 1)))).
Proof.
  intros Hwf. destruct (simulate_paths_prefix N S g Hwf) as (Hwf' & _ & Hrows); [lia|].
  by split.
Qed.
End ScalarForward.

Section SimdForward.
Context {D : Type} `{DoubleOps D} `{NormalStream D}.
Variables N M : nat.
Variable batch_size : nat.
Hypothesis batch_pos : (0 < batch_size)%nat.
Variables S0 r sigma dt : D.

Local Abbreviation grow := (growth r sigma dt).
Local Abbreviation lane := (fun s Z => d_mul s (grow Z)).

Lemma vget_zip_with (f : D -> D -> D) (a b : list D) i :
  (i < length a)%nat -> (i < length b)%nat ->
  vget (zip_with f a b) i = f (vget a i) (vget b i).
Proof.
  intros Ha Hb. unfold vget. rewrite lookup_zip_with.
  destruct (lookup_lt_is_Some_2 a i Ha) as [x ->].
  destruct (lookup_lt_is_Some_2 b i Hb) as [y ->]. done.
Qed.

Lemma vget_map_seq (f : nat -> D) n i : (i < n)%nat -> vget (map f (seq 0 n)) i = f i.
Proof.
  intros Hi. unfold vget. rewrite list_lookup_fmap.
  rewrite lookup_seq_lt by done. done.
Qed.

Lemma batch_count q : ((q * batch_size + batch_size - 1) / batch_size = q)%nat.
Proof.
  symmetry. apply (Nat.div_unique _ _ _ (batch_size - 1)); lia.
Qed.

(** The batch loop rewrites the row front to back. *)
Lemma batch_loop_prefix (s_prev Z_buffer s_curr : list D) q k :
  length s_prev = (q * batch_size)%nat ->
  length Z_buffer = (q * batch_size)%nat ->
  length s_curr = (q * batch_size)%nat ->
  (k <= q)%nat ->
  fold_left
    (fun s_curr i =>
       store_unaligned s_curr i
         (batch_update r sigma dt (load_unaligned batch_size s_prev i)
                       (load_unaligned batch_size Z_buffer i)))
    (map (fun k => (k * batch_size)%nat) (seq 0 k)) s_curr =
  zip_with lane (take (k * batch_size) s_prev) (take (k * batch_size) Z_buffer)
    ++ drop (k * batch_size) s_curr.
Proof.
  intros Hp Hz Hc. induction k as [|k IH]; intros Hk.
  - simpl. by rewrite drop_0.
  - rewrite seq_S, map_app, fold_left_app, IH by lia. simpl.
    assert (Hkb : (k * batch_size + batch_size <= q * batch_size)%nat) by nia.
    set (front := zip_with lane (take (k * batch_size) s_prev)
                                (take (k * batch_size) Z_buffer)).
    assert (Hfront : length front = (k * batch_size)%nat).
    { unfold front. rewrite length_zip_with, !length_take. lia. }
    set (batch := batch_update r sigma dt
                    (load_unaligned batch_size s_prev (k * batch_size))
                    (load_unaligned batch_size Z_buffer (k * batch_size))).
    assert (Hbatch : length batch = batch_size).
    { unfold batch, batch_update, load_unaligned.
      rewrite length_zip_with, !length_take, !length_drop. lia. }
    unfold store_unaligned. rewrite Hbatch.
    rewrite take_app_length' by done.
    rewrite drop_app_add' by done. rewrite drop_drop.
    replace (batch_size + k * batch_size)%nat with (k * batch_size + batch_size)%nat by lia.
    rewrite app_assoc. f_equal.
    rewrite <- !take_take_drop.
    rewrite zip_with_app by (rewrite !length_take; lia).
    done.
Qed.

Lemma batch_loop_spec (s_prev Z_buffer s_curr : list D) q :
  N = (q * batch_size)%nat ->
  length s_prev = N -> length Z_buffer = N -> length s_curr = N ->
  fold_left
    (fun s_curr i =>
       store_unaligned s_curr i
         (batch_update r sigma dt (load_unaligned batch_size s_prev i)
                       (load_unaligned batch_size Z_buffer i)))
    (batch_starts N batch_size) s_curr =
  zip_with lane s_prev Z_buffer.
Proof.
  intros -> Hp Hz Hc. unfold batch_starts. rewrite batch_count.
  rewrite (batch_loop_prefix _ _ _ q q) by (done || lia).
  rewrite drop_ge by lia. rewrite app_nil_r.
  by rewrite !take_ge by lia.
Qed.

Lemma fill_Z_buffer_prefix g n :
  (n <= N)%nat ->
  fold_left
    (fun st i => let '(Z, g') := rng_draw st.2 in (<[i := Z]> st.1, g'))
    (seq 0 n) (replicate N d_zero, g) =
  (map (nth_draw g) (seq 0 n) ++ replicate (N - n) d_zero, rng_advance n g).
Proof.
  induction n as [|n IH]; intros Hn.
  - simpl. by rewrite Nat.sub_0_r.
  - rewrite seq_S, fold_left_app, IH by lia. simpl.
    rewrite rng_draw_nth. f_equal.
    rewrite map_app. simpl.
    rewrite insert_app_r_alt by (rewrite length_map, length_seq; lia).
    rewrite length_map, length_seq, Nat.sub_diag.
    replace (N - n)%nat with (Datatypes.S (N - Datatypes.S n)) by lia.
    simpl. by rewrite <- app_assoc.
Qed.

Lemma fill_Z_buffer_spec g :
  fill_Z_buffer N g = (map (nth_draw g) (seq 0 N), rng_advance N g).
Proof.
  unfold fill_Z_buffer. rewrite fill_Z_buffer_prefix by lia.
  by rewrite Nat.sub_diag, app_nil_r.
Qed.

Lemma simd_time_step_spec q (S : list (list D)) g j :
  N = (q * batch_size)%nat -> rows_shape (M + 1) N S -> (1 <= j <= M)%nat ->
  simd_time_step r sigma dt N batch_size (S, g) j =
  (<[j := zip_with lane (vrow S (j - 1)) (map (nth_draw g) (seq 0 N))]> S,
   rng_advance N g).
Proof.
  intros HN HS Hj. unfold simd_time_step. rewrite fill_Z_buffer_spec. simpl.
  rewrite (batch_loop_spec _ _ _ q); [done|done| | |].
  - apply (vrow_length (M + 1) N); [done|lia].
  - by rewrite length_map, length_seq.
  - apply (vrow_length (M + 1) N); [done|lia].
Qed.

Lemma fill_row0_spec (S : list (list D)) :
  rows_shape (M + 1) N S ->
  rows_shape (M + 1) N (fill_row0 S0 S) /\
  vrow (fill_row0 S0 S) 0 = replicate N S0.
Proof.
  intros HS. unfold fill_row0.
  rewrite (vrow_length (M + 1) N) by (done || lia). split.
  - apply rows_shape_insert; [done|]. by rewrite length_replicate.
  - rewrite vrow_insert_eq; [done|]. destruct HS. lia.
Qed.

(** The lattice after the first [k] time steps. *)
Lemma simulate_simd_prefix q (S : list (list D)) g k :
  N = (q * batch_size)%nat -> rows_shape (M + 1) N S -> (k <= M)%nat ->
  let st := fold_left (simd_time_step r sigma dt N batch_size) (seq 1 k)
                      (fill_row0 S0 S, g) in
  rows_shape (M + 1) N st.1 /\ st.2 = rng_advance (k * N) g /\
  vrow st.1 0 = replicate N S0 /\
  forall i j, (i < N)%nat -> (1 <= j <= k)%nat ->
    vget (vrow st.1 j) i =
    d_mul (vget (vrow st.1 (j - 1)) i) (grow (nth_draw g ((j - 1) * N + i))).
Proof.
  intros HN HS. destruct (fill_row0_spec S HS) as [HS0 Hrow0].
  induction k as [|k IH]; intros Hk; cbv zeta.
  - simpl. split; [done|]. split; [done|]. split; [done|]. intros; lia.
  - rewrite seq_S, fold_left_app. simpl.
    destruct IH as (Hshape & Hg & Hr0 & Hrec); [lia|].
    set (st := fold_left _ (seq 1 k) _) in *.
    rewrite (surjective_pairing st).
    rewrite (simd_time_step_spec q) by (done || lia). cbn [fst snd].
    replace (Datatypes.S k - 1)%nat with k by lia.
    assert (Hlen : length (zip_with lane (vrow st.1 k)
                             (map (nth_draw st.2) (seq 0 N))) = N).
    { rewrite length_zip_with, length_map, length_seq.
      rewrite (vrow_length (M + 1) N) by (done || lia). lia. }
    split; [by apply rows_shape_insert|]. split.
    { rewrite Hg, <- rng_advance_add. f_equal. lia. }
    split; [by rewrite vrow_insert_ne by lia|].
    intros i j Hi Hj. destruct (decide (j = Datatypes.S k)) as [->|Hne].
    + rewrite vrow_insert_eq by (destruct Hshape; lia).
      rewrite vrow_insert_ne by lia.
      rewrite vget_zip_with;
        [|by rewrite (vrow_length (M + 1) N) by (done || lia)
         |by rewrite length_map, length_seq].
      rewrite vget_map_seq by done.
      replace (Datatypes.S k - 1)%nat with k by lia.
      by rewrite Hg, nth_draw_advance.
    + rewrite !vrow_insert_ne by lia. apply Hrec; [done|lia].
Qed.

Lemma simulate_simd_spec q (S : list (list D)) g :
  N = (q * batch_size)%nat -> rows_shape (M + 1) N S ->
  let S' := (simulate_simd S0 r sigma dt N M batch_size S g).1 in
  rows_shape (M + 1) N S' /\
  forall i, (i < N)%nat ->
    t_get time_major S' i 0 = S0 /\
    forall j, (1 <= j <= M)%nat ->
      t_get time_major S' i j =
      d_mul (t_get time_major S' i (j - 1)) (grow (nth_draw g ((j - 1) * N + i))).
Proof.
  intros HN HS.
  destruct (simulate_simd_prefix q S g M HN HS) as (Hshape & _ & Hr0 & Hrec); [lia|].
  cbv zeta. split; [done|]. intros i Hi. split.
  - simpl. unfold simulate_simd. rewrite Hr0. by apply vget_replicate.
  - intros j Hj. simpl. by apply Hrec.
Qed.
End SimdForward.

Section ThreadedForward.
Context {D : Type} `{DoubleOps D} `{NormalStream D}.

Lemma thread_share_succ thread_of w n :
  thread_share thread_of w (Datatypes.S n) =
  (thread_share thread_of w n + if Nat.eqb (thread_of n) w then 1 else 0)%nat.
Proof.
  unfold thread_share. rewrite seq_S, List.filter_app, length_app. simpl.
  by destruct (Nat.eqb (thread_of n) w).
Qed.

Lemma thread_share_mono thread_of w n n' :
  (n <= n')%nat -> (thread_share thread_of w n <= thread_share thread_of w n')%nat.
Proof.
  induction 1 as [|n' Hle IH]; [done|]. rewrite thread_share_succ. lia.
Qed.

Lemma thread_share_lt thread_of n n' :
  (n < n')%nat ->
  (thread_share thread_of (thread_of n) n < thread_share thread_of (thread_of n) n')%nat.
Proof.
  intros Hlt.
  assert (thread_share thread_of (thread_of n) (Datatypes.S n) <=
          thread_share thread_of (thread_of n) n')%nat
    by (apply thread_share_mono; lia).
  rewrite thread_share_succ, Nat.eqb_refl in *. lia.
Qed.

(** Two iterations of one thread with equally many predecessors on
    that thread are the same iteration. *)
Lemma thread_share_inj thread_of n n' :
  thread_of n = thread_of n' ->
  thread_share thread_of (thread_of n) n = thread_share thread_of (thread_of n') n' ->
  n = n'.
Proof.
  intros Hw Hs. destruct (Nat.lt_trichotomy n n') as [Hlt|[Heq|Hgt]]; [|done|].
  - pose proof (thread_share_lt thread_of n n' Hlt). rewrite <- Hw in Hs. lia.
  - pose proof (thread_share_lt thread_of n' n Hgt). rewrite Hw in *. lia.
Qed.

(** A draw on thread [w]. *)
Lemma draw_from_spec (gens : list rng_state) w g :
  gens !! w = Some g ->
  draw_from gens w = (nth_draw g 0, <[w := rng_advance 1 g]> gens).
Proof.
  intros Hw. unfold draw_from. rewrite Hw. unfold nth_draw. simpl.
  by destruct (rng_draw g).
Qed.

Section Mp.
Variable L : Layout D.
Variables N M : nat.
Variable wf : table L -> Prop.
Hypothesis laws : LayoutLaws L N (M + 1) wf.
Variables S0 r sigma dt : D.

Local Abbreviation get := (t_get L).
Local Abbreviation set := (t_set L).
Local Abbreviation grow := (growth r sigma dt).

Lemma simulate_steps_mp_spec w i k S gens g :
  wf S -> (i < N)%nat -> (k <= M)%nat -> gens !! w = Some g ->
  let st := fold_left (simulate_step_mp r sigma dt L w i) (seq 1 k)
                      (set S i 0 S0, gens) in
  wf st.1 /\ st.2 = <[w := rng_advance k g]> gens /\
  get st.1 i 0 = S0 /\
  (forall j, (1 <= j <= k)%nat ->
     get st.1 i j = d_mul (get st.1 i (j - 1)) (grow (nth_draw g (j - 1)))) /\
  (forall i' j', (i' < N)%nat -> (j' < M + 1)%nat -> i' <> i ->
     get st.1 i' j' = get S i' j').
Proof.
  intros Hwf Hi Hk Hw. revert Hk. induction k as [|k IH]; intros Hk; cbv zeta.
  - simpl. split; [by apply (wf_set _ _ _ _ laws)|].
    split; [by rewrite list_insert_id|].
    split; [by rewrite (get_set_eq _ _ _ _ laws) by (done || lia)|].
    split; [intros; lia|].
    intros i' j' Hi' Hj' Hne.
    by rewrite (get_set_ne _ _ _ _ laws) by (done || lia || congruence).
  - rewrite seq_S, fold_left_app. simpl.
    destruct IH as (Hwf' & Hg & Hz0 & Hrec & Hother); [lia|].
    set (st := fold_left _ (seq 1 k) _) in *.
    assert (Hstep : simulate_step_mp r sigma dt L w i st (Datatypes.S k) =
              (set st.1 i (Datatypes.S k)
                 (d_mul (get st.1 i k) (grow (nth_draw g k))),
               <[w := rng_advance (Datatypes.S k) g]> gens)).
    { unfold simulate_step_mp.
      rewrite (draw_from_spec st.2 w (rng_advance k g)).
      - rewrite Hg, list_insert_insert_eq, nth_draw_advance, <- rng_advance_add.
        replace (Datatypes.S k - 1)%nat with k by lia.
        by rewrite !Nat.add_0_r, Nat.add_1_r.
      - rewrite Hg. apply list_lookup_insert_eq. by eapply lookup_lt_Some. }
    rewrite Hstep. cbn [fst snd].
    split; [by apply (wf_set _ _ _ _ laws)|]. split; [done|].
    split; [by rewrite (get_set_ne _ _ _ _ laws) by (done || lia || congruence)|].
    split.
    + intros j Hj. destruct (decide (j = Datatypes.S k)) as [->|Hne].
      * rewrite (get_set_eq _ _ _ _ laws) by (done || lia).
        rewrite (get_set_ne _ _ _ _ laws) by (done || lia || (intros [=]; lia)).
        by replace (Datatypes.S k - 1)%nat with k by lia.
      * rewrite !(get_set_ne _ _ _ _ laws) by (done || lia || (intros [=]; lia)).
        apply Hrec. lia.
    + intros i' j' Hi' Hj' Hne.
      rewrite (get_set_ne _ _ _ _ laws) by (done || lia || congruence).
      by apply Hother.
Qed.

Lemma make_generators_after W seed :
  gens_after W seed (fun _ => 0%nat) (make_generators W seed).
Proof.
  unfold make_generators. split; [by rewrite length_map, length_seq|].
  intros w Hw. rewrite list_lookup_fmap, lookup_seq_lt by done. done.
Qed.

Lemma simulate_paths_mp_prefix W seed thread_of n S gens :
  wf S -> (n <= N)%nat -> (forall i, (thread_of i < W)%nat) ->
  gens_after W seed (fun _ => 0%nat) gens ->
  let st := fold_left
              (fun st i =>
                 fold_left (simulate_step_mp r sigma dt L (thread_of i) i)
                           (seq 1 M) (set st.1 i 0 S0, st.2))
              (seq 0 n) (S, gens) in
  wf st.1 /\
  gens_after W seed (fun w => (M * thread_share thread_of w n)%nat) st.2 /\
  forall i, (i < n)%nat ->
    get st.1 i 0 = S0 /\
    forall j, (1 <= j <= M)%nat ->
      get st.1 i j =
      d_mul (get st.1 i (j - 1))
            (grow (nth_draw (rng_seed (to_int (seed + Z.of_nat (thread_of i))))
                            (M * thread_share thread_of (thread_of i) i + (j - 1)))).
Proof.
  intros Hwf Hn Hthr Hgens. revert Hn.
  induction n as [|n IH]; intros Hn; cbv zeta.
  - simpl. split; [done|]. split; [|intros; lia].
    destruct Hgens as [Hlen Hg]. split; [done|].
    intros w Hw. rewrite (Hg w Hw). by rewrite Nat.mul_0_r.
  - rewrite seq_S, fold_left_app. simpl.
    destruct IH as (Hwf' & [Hlen Hg] & Hrows); [lia|].
    set (st := fold_left _ (seq 0 n) _) in *.
    pose proof (Hthr n) as Hwn.
    destruct (simulate_steps_mp_spec (thread_of n) n M st.1 st.2 _
                Hwf' ltac:(lia) ltac:(lia) (Hg _ Hwn))
      as (Hwf2 & Hg2 & Hz0 & Hrec & Hother).
    set (st' := fold_left _ (seq 1 M) _) in *.
    split; [done|]. split.
    { rewrite Hg2. split; [by rewrite length_insert|].
      intros w Hw. rewrite thread_share_succ.
      destruct (decide (thread_of n = w)) as [<-|Hne].
      - rewrite list_lookup_insert_eq by lia. rewrite Nat.eqb_refl.
        rewrite <- rng_advance_add. do 2 f_equal. lia.
      - rewrite list_lookup_insert_ne by done.
        rewrite (proj2 (Nat.eqb_neq _ _) Hne), Nat.add_0_r. by apply Hg. }
    intros i Hi. destruct (decide (i = n)) as [->|Hne].
    + split; [done|]. intros j Hj. rewrite (Hrec j Hj).
      by rewrite nth_draw_advance.
    + destruct (Hrows i) as [Hi0 Hirec]; [lia|]. split.
      * rewrite Hother by (done || lia). done.
      * intros j Hj. rewrite !Hother by (done || lia). by apply Hirec.
Qed.

Lemma simulate_paths_mp_spec W seed thread_of S :
  wf S -> (forall i, (thread_of i < W)%nat) ->
  let S' := (simulate_paths_mp S0 r sigma dt N M L thread_of S
               (make_generators W seed)).1 in
  wf S' /\
  forall i, (i < N)%nat ->
    get S' i 0 = S0 /\
    forall j, (1 <= j <= M)%nat ->
      get S' i j =
      d_mul (get S' i (j - 1))
            (grow (nth_draw (rng_seed (to_int (seed + Z.of_nat (thread_of i))))
                            (M * thread_share thread_of (thread_of i) i + (j - 1)))).
Proof.
  intros Hwf Hthr.
  destruct (simulate_paths_mp_prefix W seed thread_of N S (make_generators W seed)
              Hwf ltac:(lia) Hthr (make_generators_after W seed))
    as (Hwf' & _ & Hrows).
  by split.
Qed.
End Mp.

Section Ultimate.
Variables N M : nat.
Variable batch_size : nat.
Hypothesis batch_pos : (0 < batch_size)%nat.
Variable omp : OmpRuntime.
Variable q : nat.
Hypothesis paths_batches : N = (q * batch_size)%nat.
Variable seed : Z.
Variables S0 r sigma dt : D.
Hypothesis threads_ok :
  forall loop i, (omp_thread_num omp loop i < omp_max_threads omp)%nat.

Local Abbreviation grow := (growth r sigma dt).
Local Abbreviation lane := (fun s Z => d_mul s (grow Z)).
Local Abbreviation W := (omp_max_threads omp).
Local Abbreviation bthread := (batch_thread batch_size omp).
Local Abbreviation sshare := (steps_share batch_size omp N).

Lemma paths_div : (N / batch_size = q)%nat.
Proof. rewrite paths_batches. by apply Nat.div_mul, Nat.neq_0_lt_0. Qed.

Lemma steps_share_succ w j :
  (1 <= j)%nat ->
  sshare w (Datatypes.S j) = (sshare w j + thread_share (bthread j) w q)%nat.
Proof.
  intros Hj. unfold steps_share.
  replace (Datatypes.S j - 1)%nat with (Datatypes.S (j - 1)) by lia.
  rewrite seq_S, fold_left_app. simpl. rewrite paths_div.
  by replace (Datatypes.S (j - 1)) with j by lia.
Qed.

Lemma steps_share_mono w j j' :
  (1 <= j <= j')%nat -> (sshare w j <= sshare w j')%nat.
Proof.
  intros [Hj Hle]. induction Hle as [|j' Hle IH]; [done|].
  rewrite steps_share_succ by lia. lia.
Qed.

Lemma vget_store_unaligned (v batch : list D) s i :
  (s + length batch <= length v)%nat ->
  vget (store_unaligned v s batch) i =
    if decide (s <= i < s + length batch)%nat then vget batch (i - s) else vget v i.
Proof.
  intros Hlen. unfold vget, store_unaligned.
  destruct (decide (i < s)%nat) as [Hlt|Hge].
  - rewrite lookup_app_l by (rewrite length_take; lia).
    rewrite lookup_take_lt by done. by rewrite decide_False by lia.
  - rewrite lookup_app_r by (rewrite length_take; lia).
    rewrite length_take. replace (s `min` length v)%nat with s by lia.
    destruct (decide (i < s + length batch)%nat) as [Hin|Hout].
    + rewrite lookup_app_l by lia. by rewrite decide_True by lia.
    + rewrite lookup_app_r by lia. rewrite lookup_drop.
      rewrite decide_False by lia. do 2 f_equal. lia.
Qed.

Lemma length_store_unaligned (v batch : list D) s :
  (s + length batch <= length v)%nat ->
  length (store_unaligned v s batch) = length v.
Proof.
  intros Hlen. unfold store_unaligned.
  rewrite !length_app, length_take, length_drop. lia.
Qed.

Lemma fill_z_buffer_prefix w gens g n :
  gens !! w = Some g -> (n <= batch_size)%nat ->
  fold_left
    (fun st k => let '(Z, gens') := draw_from st.2 w in (<[k := Z]> st.1, gens'))
    (seq 0 n) (replicate batch_size d_zero, gens) =
  (map (nth_draw g) (seq 0 n) ++ replicate (batch_size - n) d_zero,
   <[w := rng_advance n g]> gens).
Proof.
  intros Hw. induction n as [|n IH]; intros Hn.
  - simpl. by rewrite Nat.sub_0_r, list_insert_id.
  - rewrite seq_S, fold_left_app, IH by lia. simpl.
    rewrite (draw_from_spec _ w (rng_advance n g))
      by (apply list_lookup_insert_eq; by eapply lookup_lt_Some).
    rewrite list_insert_insert_eq, nth_draw_advance, <- rng_advance_add.
    rewrite Nat.add_0_r, Nat.add_1_r. f_equal.
    rewrite map_app. simpl.
    rewrite insert_app_r_alt by (rewrite length_map, length_seq; lia).
    rewrite length_map, length_seq, Nat.sub_diag.
    replace (batch_size - n)%nat
      with (Datatypes.S (batch_size - Datatypes.S n)) by lia.
    simpl. by rewrite <- app_assoc.
Qed.

Lemma fill_z_buffer_spec w gens g :
  gens !! w = Some g ->
  fill_z_buffer batch_size w gens =
  (map (nth_draw g) (seq 0 batch_size), <[w := rng_advance batch_size g]> gens).
Proof.
  intros Hw. unfold fill_z_buffer. rewrite (fill_z_buffer_prefix w gens g) by (done || lia).
  by rewrite Nat.sub_diag, app_nil_r.
Qed.

Lemma batch_index k i :
  (k * batch_size <= i < k * batch_size + batch_size)%nat ->
  (i / batch_size = k /\ i mod batch_size = i - k * batch_size)%nat.
Proof.
  intros Hi. split.
  - symmetry. apply (Nat.div_unique _ _ _ (i - k * batch_size)); lia.
  - symmetry. apply (Nat.mod_unique _ _ k); lia.
Qed.

Local Abbreviation entry :=
  (ultimate_entry batch_size omp N seed r sigma dt).

(** Row [j] after its first [k] batches. *)
Lemma ultimate_batches_prefix j (s_prev s_curr : list D) gens k :
  length s_prev = N -> length s_curr = N -> (k <= q)%nat ->
  gens_after W seed (fun w => (batch_size * sshare w j)%nat) gens ->
  let acc :=
    fold_left
      (fun acc i =>
         let '(z_buffer, gens') :=
           fill_z_buffer batch_size (omp_thread_num omp j i) acc.2 in
         (store_unaligned acc.1 i
            (batch_update r sigma dt (load_unaligned batch_size s_prev i) z_buffer),
          gens'))
      (map (fun k => (k * batch_size)%nat) (seq 0 k)) (s_curr, gens) in
  length acc.1 = N /\
  gens_after W seed
    (fun w => (batch_size * (sshare w j + thread_share (bthread j) w k))%nat) acc.2 /\
  forall i, (i < k * batch_size)%nat -> vget acc.1 i = entry s_prev j i.
Proof.
  intros Hp Hc Hk Hgens. revert Hk. induction k as [|k IH]; intros Hk; cbv zeta.
  - simpl. split; [done|]. split; [|intros; lia].
    destruct Hgens as [Hlen Hg]. split; [done|]. intros w Hw.
    rewrite (Hg w Hw). do 2 f_equal. unfold thread_share. simpl. lia.
  - rewrite seq_S, map_app, fold_left_app. simpl.
    destruct IH as (Hlen & [Hglen Hg] & Hrows); [lia|].
    set (acc := fold_left _ (map _ (seq 0 k)) _) in *.
    assert (Hkb : (k * batch_size + batch_size <= N)%nat) by nia.
    pose proof (threads_ok j (k * batch_size)) as Hwk.
    rewrite (fill_z_buffer_spec _ _ _ (Hg _ Hwk)).
    set (g := rng_advance _ (rng_seed (to_int (seed + Z.of_nat (omp_thread_num omp j (k * batch_size)))))) in *.
    set (batch := batch_update r sigma dt
                    (load_unaligned batch_size s_prev (k * batch_size))
                    (map (nth_draw g) (seq 0 batch_size))).
    assert (Hbatch : length batch = batch_size).
    { unfold batch, batch_update, load_unaligned.
      rewrite length_zip_with, length_take, length_drop, length_map, length_seq. lia. }
    cbn [fst snd].
    split; [rewrite length_store_unaligned; lia|]. split.
    { split; [by rewrite length_insert|]. intros w Hw.
      rewrite thread_share_succ.
      destruct (decide (omp_thread_num omp j (k * batch_size) = w)) as [Heq|Hne].
      - rewrite <- Heq. rewrite list_lookup_insert_eq by lia.
        unfold batch_thread at 2. rewrite Nat.eqb_refl.
        unfold g. rewrite <- rng_advance_add. do 2 f_equal.
        unfold batch_thread. lia.
      - rewrite list_lookup_insert_ne by done.
        unfold batch_thread at 2.
        rewrite (proj2 (Nat.eqb_neq _ _) Hne), Nat.add_0_r. by apply Hg. }
    intros i Hi. rewrite vget_store_unaligned by lia. rewrite Hbatch.
    case_decide as Hin.
    + destruct (batch_index k i) as [Hdiv Hmod]; [lia|].
      unfold batch, batch_update, load_unaligned.
      rewrite vget_zip_with;
        [|rewrite length_take, length_drop; lia|rewrite length_map, length_seq; lia].
      rewrite vget_map_seq by lia.
      unfold ultimate_entry. rewrite Hdiv, Hmod.
      f_equal.
      * unfold vget. rewrite lookup_take_lt by lia. rewrite lookup_drop.
        do 2 f_equal. lia.
      * unfold g. rewrite nth_draw_advance. unfold batch_thread. done.
    + apply Hrows. lia.
Qed.

Lemma ultimate_time_step_spec (S : list (list D)) gens j :
  rows_shape (M + 1) N S -> (1 <= j <= M)%nat ->
  gens_after W seed (fun w => (batch_size * sshare w j)%nat) gens ->
  let st := ultimate_time_step r sigma dt N batch_size (omp_thread_num omp) (S, gens) j in
  rows_shape (M + 1) N st.1 /\
  gens_after W seed (fun w => (batch_size * sshare w (Datatypes.S j))%nat) st.2 /\
  (forall j', j' <> j -> vrow st.1 j' = vrow S j') /\
  forall i, (i < N)%nat -> vget (vrow st.1 j) i = entry (vrow S (j - 1)) j i.
Proof.
  intros HS Hj Hgens. cbv zeta. unfold ultimate_time_step, batch_starts.
  rewrite paths_batches, batch_count, <- paths_batches by done. cbn [fst snd].
  destruct (ultimate_batches_prefix j (vrow S (j - 1)) (vrow S j) gens q)
    as (Hlen & Hg & Hrows); [| |lia|done|].
  { apply (vrow_length (M + 1) N); [done|lia]. }
  { apply (vrow_length (M + 1) N); [done|lia]. }
  destruct (fold_left _ _ _) as [s_curr gens'] eqn:Efold. cbn [fst snd] in *.
  split; [by apply rows_shape_insert|]. split.
  { destruct Hg as [Hglen Hg]. split; [done|]. intros w Hw.
    rewrite steps_share_succ by lia. by apply Hg. }
  split; [intros j' Hne; by rewrite vrow_insert_ne|].
  intros i Hi. rewrite vrow_insert_eq by (destruct HS; lia).
  apply Hrows. lia.
Qed.

Lemma steps_share_one w : sshare w 1 = 0%nat.
Proof. done. Qed.

Lemma simulate_ultimate_prefix (S : list (list D)) k :
  rows_shape (M + 1) N S -> (k <= M)%nat ->
  let st := fold_left (ultimate_time_step r sigma dt N batch_size (omp_thread_num omp))
                      (seq 1 k) (fill_row0 S0 S, make_generators W seed) in
  rows_shape (M + 1) N st.1 /\
  gens_after W seed (fun w => (batch_size * sshare w (Datatypes.S k))%nat) st.2 /\
  vrow st.1 0 = replicate N S0 /\
  forall i j, (i < N)%nat -> (1 <= j <= k)%nat ->
    vget (vrow st.1 j) i = entry (vrow st.1 (j - 1)) j i.
Proof.
  intros HS. destruct (fill_row0_spec N M batch_size batch_pos S0 S HS) as [HS0 Hrow0].
  induction k as [|k IH]; intros Hk; cbv zeta.
  - simpl. split; [done|]. split; [|split; [done|intros; lia]].
    destruct (make_generators_after W seed) as [Hlen Hg]. split; [done|].
    intros w Hw. rewrite (Hg w Hw). by rewrite steps_share_one, Nat.mul_0_r.
  - rewrite seq_S, fold_left_app. simpl.
    destruct IH as (Hshape & Hg & Hr0 & Hrec); [lia|].
    set (st := fold_left _ (seq 1 k) _) in *.
    rewrite (surjective_pairing st).
    destruct (ultimate_time_step_spec st.1 st.2 (Datatypes.S k) Hshape ltac:(lia) Hg)
      as (Hshape' & Hg' & Hother & Hrow).
    set (st' := ultimate_time_step _ _ _ _ _ _ _ _) in *.
    split; [done|]. split; [done|].
    split; [by rewrite Hother by lia|].
    intros i j Hi Hj. destruct (decide (j = Datatypes.S k)) as [->|Hne].
    + rewrite (Hrow i Hi). by rewrite Hother by lia.
    + rewrite !Hother by lia. apply Hrec; [done|lia].
Qed.

Lemma simulate_ultimate_spec (S : list (list D)) :
  rows_shape (M + 1) N S ->
  let S' := (simulate_ultimate S0 r sigma dt N M batch_size (omp_thread_num omp) S
               (make_generators W seed)).1 in
  rows_shape (M + 1) N S' /\
  forall i, (i < N)%nat ->
    t_get time_major S' i 0 = S0 /\
    forall j, (1 <= j <= M)%nat ->
      let site := draw_site batch_size omp N M CppUltimate i j in
      t_get time_major S' i j =
      d_mul (t_get time_major S' i (j - 1))
            (grow (nth_draw (rng_seed (to_int (seed + Z.of_nat site.1))) site.2)).
Proof.
  intros HS.
  destruct (simulate_ultimate_prefix S M HS) as (Hshape & _ & Hr0 & Hrec); [lia|].
  cbv zeta. split; [done|]. intros i Hi. split.
  - simpl. unfold simulate_ultimate. rewrite Hr0. by apply vget_replicate.
  - intros j Hj. simpl. by apply Hrec.
Qed.
End Ultimate.
End ThreadedForward.

(** ** Freshness: distinct lattice entries use distinct deviates *)

Section DrawSiteProofs.
Variable batch_size : nat.
Hypothesis batch_pos : (0 < batch_size)%nat.
Variable omp : OmpRuntime.
Variables N M q : nat.

Lemma draw_site_inj (b : Backend) i j i' j' :
  (b = CppUltimate -> N = (q * batch_size)%nat) ->
  (i < N)%nat -> (i' < N)%nat -> (1 <= j <= M)%nat -> (1 <= j' <= M)%nat ->
  draw_site batch_size omp N M b i j = draw_site batch_size omp N M b i' j' ->
  i = i' /\ j = j'.
Proof.
  intros Hq Hi Hi' Hj Hj'. destruct b; simpl.
  - intros [= Heq]. apply flat_index_inj in Heq as [-> ?]; lia.
  - intros [= Heq]. apply flat_index_inj in Heq as [-> ?]; lia.
  - intros [= Heq]. apply flat_index_inj in Heq as [? ->]; lia.
  - intros [= Hw Heq].
    rewrite (Nat.mul_comm M (thread_share _ _ i)),
            (Nat.mul_comm M (thread_share _ _ i')) in Heq.
    apply flat_index_inj in Heq as [Hs ?]; [|lia|lia].
    split; [|lia]. by apply (thread_share_inj (omp_thread_num omp 1)).
  - intros [= Hw Heq]. pose proof (Hq eq_refl) as paths_batches.
    set (w := batch_thread batch_size omp j (i / batch_size)) in *.
    rewrite <- Hw in Heq.
    rewrite (Nat.mul_comm batch_size (_ + thread_share _ _ (i / batch_size))),
            (Nat.mul_comm batch_size (_ + thread_share _ _ (i' / batch_size))) in Heq.
    apply flat_index_inj in Heq as [Hs Hmod];
      [|by apply Nat.mod_upper_bound, Nat.neq_0_lt_0
       |by apply Nat.mod_upper_bound, Nat.neq_0_lt_0].
    assert (Hb : (i / batch_size < q)%nat)
      by (apply Nat.Div0.div_lt_upper_bound; lia).
    assert (Hb' : (i' / batch_size < q)%nat)
      by (apply Nat.Div0.div_lt_upper_bound; lia).
    pose proof (thread_share_lt (batch_thread batch_size omp j) _ _ Hb) as Hlt.
    pose proof (thread_share_lt (batch_thread batch_size omp j') _ _ Hb') as Hlt'.
    fold w in Hlt. rewrite <- Hw in Hlt'.
    assert (j = j') as <-.
    { destruct (Nat.lt_trichotomy j j') as [Hjj|[Heq|Hjj]]; [|done|].
      - pose proof (steps_share_mono N batch_size batch_pos omp q paths_batches w
                      (Datatypes.S j) j' ltac:(lia)) as Hm.
        rewrite (steps_share_succ N batch_size batch_pos omp q paths_batches) in Hm by lia.
        lia.
      - pose proof (steps_share_mono N batch_size batch_pos omp q paths_batches w
                      (Datatypes.S j') j ltac:(lia)) as Hm.
        rewrite (steps_share_succ N batch_size batch_pos omp q paths_batches) in Hm by lia.
        lia. }
    split; [|done].
    assert (Hdiv : (i / batch_size = i' / batch_size)%nat).
    { apply (thread_share_inj (batch_thread batch_size omp j)); [done|].
      fold w. rewrite <- Hw. lia. }
    rewrite (Nat.div_mod_eq i batch_size), (Nat.div_mod_eq i' batch_size). lia.
Qed.
End DrawSiteProofs.

(** ** The arena monad *)

Section ArenaMonadProofs.
Import ArenaModel ArenaMonad.

Lemma bind_ok_inv {A B} (m : ArenaM A) (k : A -> ArenaM B) a y a' :
  bind m k a = (Ok y, a') ->
  exists x a1, m a = (Ok x, a1) /\ k x a1 = (Ok y, a').
Proof.
  unfold bind. destruct (m a) as [[x|e|] a1]; [|done|done]. intros Hk. by exists x, a1.
Qed.

Lemma ret_ok_inv {A} (x y : A) a a' : ret x a = (Ok y, a') -> x = y /\ a = a'.
Proof. by intros [= -> ->]. Qed.

Lemma throw_ok_inv {A} e (y : A) a a' : throw e a = (Ok y, a') -> False.
Proof. done. Qed.
End ArenaMonadProofs.

(** ** What a completed call has computed *)

Section RunProofs.
Context {D : Type} `{DoubleOps D} `{NormalStream D}.
Import ArenaModel ArenaMonad.
Variable batch_size : nat.
Variable omp : OmpRuntime.

Ltac invert_run Hrun :=
  repeat (apply bind_ok_inv in Hrun as (? & ? & _ & Hrun));
  apply ret_ok_inv in Hrun as [<- _].

Lemma undefined_ok_inv {A} (y : A) a a' : undefined a = (Ok y, a') -> False.
Proof. done. Qed.

Lemma arena_vector_ok_inv n elt_size elt_align a a' :
  arena_vector n elt_size elt_align a = (Ok tt, a') -> 0 <= n.
Proof.
  unfold arena_vector. destruct (n <? 0) eqn:E; [done|]. intros _.
  by apply Z.ltb_ge in E.
Qed.

Lemma arena_rows_ok_inv count n a a' :
  arena_rows count n a = (Ok tt, a') -> 0 <= count /\ 0 <= n.
Proof.
  unfold arena_rows. intros Hrows.
  apply bind_ok_inv in Hrows as ([] & a1 & Hrow & Hrows).
  apply arena_vector_ok_inv in Hrow.
  destruct (count <? 0) eqn:E; [done|]. by apply Z.ltb_ge in E.
Qed.

(** [num_steps + 1] has not wrapped when it is not negative. *)
Lemma row_length_not_wrapped num_steps :
  0 <= num_steps <= INT_MAX -> 0 <= to_int (num_steps + 1) -> num_steps < INT_MAX.
Proof.
  intros HM Hrow. destruct (decide (num_steps = INT_MAX)) as [->|]; [|lia].
  rewrite to_int_succ_max in Hrow. unfold INT_MIN in Hrow. lia.
Qed.

Lemma to_int_succ num_steps :
  0 <= num_steps < INT_MAX -> to_int (num_steps + 1) = num_steps + 1.
Proof. intros HM. apply to_int_small. unfold INT_MIN, INT_MAX in *. lia. Qed.

(** A call that returns had [int] counts, and its [num_steps + 1] has
    not wrapped unless there was no path to simulate. *)
Lemma lsm_run_ok_int (b : Backend) arena S0 K T r sigma num_paths num_steps seed run a' :
  0 <= num_steps ->
  lsm_run batch_size omp b arena S0 K T r sigma num_paths num_steps seed = (Ok run, a') ->
  (INT_MIN <= num_paths <= INT_MAX) /\
  (1 <= num_paths \/ b = Cpp \/ b = CppSimd \/ b = CppUltimate -> num_steps < INT_MAX) /\
  (1 <= num_paths -> b = CppArena \/ b = CppMp ->
   num_paths * (num_steps + 1) <= INT_MAX).
Proof.
  intros HM Hrun.
  assert (Hint : int_counts num_paths num_steps = true).
  { destruct b; simpl in Hrun.
    - unfold lsm_cpp_run in Hrun. by destruct (int_counts _ _).
    - unfold lsm_arena_run in Hrun. by destruct (int_counts _ _).
    - unfold lsm_simd_run in Hrun.
      destruct (negb (_ =? 0)); [done|]. by destruct (int_counts _ _).
    - unfold lsm_mp_run in Hrun. by destruct (int_counts _ _).
    - unfold lsm_ultimate_run in Hrun.
      destruct (negb (_ =? 0)); [done|]. by destruct (int_counts _ _). }
  pose proof (proj1 (int_counts_spec _ _) Hint) as [HNi HMi].
  split; [done|].
  assert (Hflat : b = CppArena \/ b = CppMp -> 1 <= num_paths ->
            0 < to_int (num_steps + 1) /\
            num_paths * to_int (num_steps + 1) <= INT_MAX).
  { intros Hb HN.
    assert (Hfb : flat_in_bounds num_paths (to_int (num_steps + 1)) = true).
    { destruct Hb as [-> | ->]; simpl in Hrun.
      - unfold lsm_arena_run in Hrun. rewrite Hint in Hrun. cbv zeta in Hrun. simpl in Hrun.
        repeat (apply bind_ok_inv in Hrun as (? & ? & _ & Hrun)).
        by destruct (flat_in_bounds _ _).
      - unfold lsm_mp_run in Hrun. rewrite Hint in Hrun. cbv zeta in Hrun. simpl in Hrun.
        apply bind_ok_inv in Hrun as (? & ? & _ & Hrun).
        by destruct (flat_in_bounds _ _). }
    unfold flat_in_bounds in Hfb.
    apply orb_true_iff in Hfb as [Hfb|Hfb]; [apply Z.leb_le in Hfb; lia|].
    apply andb_true_iff in Hfb as [H1 H2].
    apply Z.ltb_lt in H1. apply Z.leb_le in H2. done. }
  split.
  - intros Hcase. apply row_length_not_wrapped; [lia|].
    destruct b; simpl in Hrun.
    + unfold lsm_cpp_run in Hrun. rewrite Hint in Hrun. simpl in Hrun.
      destruct (to_int (num_steps + 1) <? 0) eqn:E; [done|]. by apply Z.ltb_ge in E.
    + destruct Hcase as [HN|[?|[?|?]]]; try done.
      destruct (Hflat ltac:(by left) HN). lia.
    + unfold lsm_simd_run in Hrun.
      destruct (negb (_ =? 0)); [done|]. rewrite Hint in Hrun. simpl in Hrun.
      destruct (to_int (num_steps + 1) <? 0) eqn:E;
        [by rewrite orb_true_r in Hrun|]. by apply Z.ltb_ge in E.
    + destruct Hcase as [HN|[?|[?|?]]]; try done.
      destruct (Hflat ltac:(by right) HN). lia.
    + unfold lsm_ultimate_run in Hrun.
      destruct (negb (_ =? 0)); [done|]. rewrite Hint in Hrun. cbv zeta in Hrun.
      simpl in Hrun.
      apply bind_ok_inv in Hrun as ([] & ? & Hrows & _).
      by apply arena_rows_ok_inv in Hrows as [? _].
  - intros HN Hb. destruct (Hflat Hb HN) as [Hpos Hle].
    assert (num_steps < INT_MAX) by (apply row_length_not_wrapped; lia).
    by rewrite to_int_succ in Hle by lia.
Qed.

Lemma lsm_run_ok_gen (b : Backend) arena S0 K T r sigma num_paths num_steps seed run a' :
  0 <= num_paths -> 0 <= num_steps < INT_MAX ->
  lsm_run batch_size omp b arena S0 K T r sigma num_paths num_steps seed = (Ok run, a') ->
  let N := Z.to_nat num_paths in
  let M := Z.to_nat num_steps in
  let cols := Z.to_nat (num_steps + 1) in
  let dt := d_div T (d_of_int num_steps) in
  let L := backend_layout b cols in
  run_S run = backend_lattice batch_size omp b S0 r sigma dt N M cols seed /\
  run_CF run = cash_flow_table L L (run_S run) K r dt N M cols /\
  run_total run = backend_total omp b r dt N M cols (run_CF run) /\
  run_price run = average N (run_total run).
Proof.
  intros HN HM Hrun. cbv zeta.
  pose proof (to_int_succ num_steps HM) as Hrow.
  destruct b; simpl in Hrun.
  - unfold lsm_cpp_run in Hrun. rewrite Hrow in Hrun.
    destruct (negb _); [done|]. destruct (_ || _); [done|]. destruct (_ && _); [done|].
    by injection Hrun as <- _.
  - unfold lsm_arena_run in Hrun. rewrite Hrow in Hrun. cbv zeta in Hrun.
    destruct (negb _); [done|].
    repeat (apply bind_ok_inv in Hrun as (? & ? & _ & Hrun)).
    destruct (negb _); [done|]. by apply ret_ok_inv in Hrun as [<- _].
  - unfold lsm_simd_run in Hrun. rewrite Hrow in Hrun.
    destruct (negb _); [done|]. destruct (negb _); [done|].
    destruct (_ || _); [done|]. destruct (_ =? 0); [done|].
    by injection Hrun as <- _.
  - unfold lsm_mp_run in Hrun. rewrite Hrow in Hrun. cbv zeta in Hrun.
    destruct (negb _); [done|].
    apply bind_ok_inv in Hrun as (? & ? & _ & Hrun).
    destruct (negb _); [done|]. by invert_run Hrun.
  - unfold lsm_ultimate_run in Hrun. rewrite Hrow in Hrun. cbv zeta in Hrun.
    destruct (negb _); [done|]. destruct (negb _); [done|].
    apply bind_ok_inv in Hrun as (? & ? & _ & Hrun).
    destruct (_ =? 0); [done|].
    unfold arena_rows in Hrun. by invert_run Hrun.
Qed.

Lemma lsm_run_ok (b : Backend) arena S0 K T r sigma num_paths num_steps seed run a' :
  1 <= num_paths -> 0 <= num_steps ->
  lsm_run batch_size omp b arena S0 K T r sigma num_paths num_steps seed = (Ok run, a') ->
  let N := Z.to_nat num_paths in
  let M := Z.to_nat num_steps in
  let cols := Z.to_nat (num_steps + 1) in
  let dt := d_div T (d_of_int num_steps) in
  let L := backend_layout b cols in
  run_S run = backend_lattice batch_size omp b S0 r sigma dt N M cols seed /\
  run_CF run = cash_flow_table L L (run_S run) K r dt N M cols /\
  run_total run = backend_total omp b r dt N M cols (run_CF run) /\
  run_price run = average N (run_total run).
Proof.
  intros HN HM Hrun.
  destruct (lsm_run_ok_int b arena S0 K T r sigma num_paths num_steps seed run a' HM Hrun)
    as (_ & Hsteps & _).
  apply (lsm_run_ok_gen b arena S0 K T r sigma num_paths num_steps seed run a');
    [lia| |done].
  split; [done|]. apply Hsteps. by left.
Qed.

(** A call that returns has passed the lane-width check. *)
Lemma lsm_run_ok_batches (b : Backend) arena S0 K T r sigma num_paths num_steps seed run a' :
  0 <= num_paths <= INT_MAX -> (0 < batch_size)%nat ->
  b = CppSimd \/ b = CppUltimate ->
  lsm_run batch_size omp b arena S0 K T r sigma num_paths num_steps seed = (Ok run, a') ->
  Z.to_nat num_paths = (Z.to_nat num_paths / batch_size * batch_size)%nat.
Proof.
  intros HN HB Hb Hrun.
  assert (Hmod : to_size_t num_paths mod Z.of_nat batch_size = 0).
  { destruct Hb as [-> | ->]; simpl in Hrun.
    - unfold lsm_simd_run in Hrun.
      destruct (to_size_t num_paths mod Z.of_nat batch_size =? 0) eqn:E;
        [by apply Z.eqb_eq in E|done].
    - unfold lsm_ultimate_run in Hrun.
      destruct (to_size_t num_paths mod Z.of_nat batch_size =? 0) eqn:E;
        [by apply Z.eqb_eq in E|done]. }
  unfold to_size_t, size_t_modulus in Hmod.
  assert (E64 : 2 ^ 64 = 18446744073709551616) by reflexivity.
  assert (E31 : INT_MAX = 2147483647) by reflexivity.
  rewrite E31 in HN. rewrite E64 in Hmod.
  rewrite (Z.mod_small num_paths) in Hmod by lia.
  assert (Hnat : (Z.to_nat num_paths mod batch_size = 0)%nat).
  { apply Nat2Z.inj. rewrite Nat2Z.inj_mod, Z2Nat.id by lia. done. }
  pose proof (Nat.div_mod_eq (Z.to_nat num_paths) batch_size). lia.
Qed.
End RunProofs.

(** ** The lattice of every backend *)

Section LatticeProofs.
Context {D : Type} `{DoubleOps D} `{NormalStream D}.
Import ArenaModel.
Variable batch_size : nat.
Variable omp : OmpRuntime.

Lemma backend_lattice_spec (b : Backend) S0 r sigma dt N M cols seed :
  cols = (M + 1)%nat -> (0 < batch_size)%nat ->
  (b = CppSimd \/ b = CppUltimate -> N = (N / batch_size * batch_size)%nat) ->
  (forall loop i, (omp_thread_num omp loop i < omp_max_threads omp)%nat) ->
  let S := backend_lattice batch_size omp b S0 r sigma dt N M cols seed in
  let L := backend_layout b cols in
  backend_shape b N cols S /\
  forall i, (i < N)%nat ->
    t_get L S i 0 = S0 /\
    forall j, (1 <= j <= M)%nat ->
      let site := draw_site batch_size omp N M b i j in
      t_get L S i j =
      d_mul (t_get L S i (j - 1))
            (growth r sigma dt
               (nth_draw (rng_seed (stream_seed b seed site.1)) site.2)).
Proof.
  intros -> HB Hq Hthr. cbv zeta.
  assert (Hclose : forall (L : Layout D) (wf : table L -> Prop) (S : table L)
                     (Zs : nat -> nat -> D) (Zs' : nat -> nat -> D),
            (forall i j, Zs i j = Zs' i j) ->
            (wf S /\
             forall i, (i < N)%nat ->
               t_get L S i 0 = S0 /\
               forall j, (1 <= j <= M)%nat ->
                 t_get L S i j = d_mul (t_get L S i (j - 1)) (growth r sigma dt (Zs i j))) ->
            wf S /\
            forall i, (i < N)%nat ->
              t_get L S i 0 = S0 /\
              forall j, (1 <= j <= M)%nat ->
                t_get L S i j = d_mul (t_get L S i (j - 1)) (growth r sigma dt (Zs' i j))).
  { intros L wf S Zs Zs' HZ [Hwf Hrows]. split; [done|].
    intros i Hi. destruct (Hrows i Hi) as [Hi0 Hrec]. split; [done|].
    intros j Hj. rewrite <- HZ. by apply Hrec. }
  destruct b.
  - apply (Hclose path_major (rows_shape N (M + 1)) _
             (fun i j => nth_draw (rng_seed (to_int seed)) (i * M + (j - 1)))); [done|].
    apply (simulate_paths_spec path_major N M _ (path_major_laws N (M + 1))).
    apply (wf_zero _ _ _ _ (path_major_laws N (M + 1))).
  - apply (Hclose (flat (M + 1)) (fun m : list D => length m = (N * (M + 1))%nat) _
             (fun i j => nth_draw (rng_seed (to_int seed)) (i * M + (j - 1)))); [done|].
    apply (simulate_paths_spec (flat (M + 1)) N M _ (flat_laws N (M + 1))).
    apply (wf_zero _ _ _ _ (flat_laws N (M + 1))).
  - apply (Hclose time_major (rows_shape (M + 1) N) _
             (fun i j => nth_draw (rng_seed (to_int seed)) ((j - 1) * N + i))); [done|].
    apply (simulate_simd_spec N M batch_size HB S0 r sigma dt (N / batch_size));
      [by apply Hq; left|].
    apply (wf_zero _ _ _ _ (time_major_laws N (M + 1))).
  - apply (Hclose (flat (M + 1)) (fun m : list D => length m = (N * (M + 1))%nat) _
             (fun i j => nth_draw (rng_seed (to_int (seed + Z.of_nat (omp_thread_num omp 1 i))))
                           (M * thread_share (omp_thread_num omp 1)
                                             (omp_thread_num omp 1 i) i + (j - 1))));
      [done|].
    apply (simulate_paths_mp_spec (flat (M + 1)) N M _ (flat_laws N (M + 1))
             S0 r sigma dt (omp_max_threads omp) seed (omp_thread_num omp 1)
             (t_zero (flat (M + 1)) N (M + 1)));
      [apply (wf_zero _ _ _ _ (flat_laws N (M + 1)))|by apply Hthr].
  - apply (simulate_ultimate_spec N M batch_size HB omp (N / batch_size));
      [by apply Hq; right|done|].
    apply (wf_zero _ _ _ _ (time_major_laws N (M + 1))).
Qed.

Lemma cols_succ num_steps : 0 <= num_steps ->
  Z.to_nat (num_steps + 1) = (Z.to_nat num_steps + 1)%nat.
Proof. intros Hs. by rewrite Z2Nat.inj_add by lia. Qed.

(** Claim C8. For every backend, once a call with at least one path and
    one step has completed, the price lattice holds [S0] at time 0 on
    every path. *)
Theorem lattice_time0_is_S0 (b : Backend) arena S0 K T r sigma
    num_paths num_steps seed run a' :
  1 <= num_paths <= INT_MAX -> 1 <= num_steps -> (0 < batch_size)%nat ->
  (forall loop i, (omp_thread_num omp loop i < omp_max_threads omp)%nat) ->
  lsm_run batch_size omp b arena S0 K T r sigma num_paths num_steps seed
    = (Ok run, a') ->
  forall i, (i < Z.to_nat num_paths)%nat ->
    t_get (backend_layout b (Z.to_nat (num_steps + 1))) (run_S run) i 0 = S0.
Proof.
  intros HN HM HB Hthr Hrun i Hi.
  destruct (lsm_run_ok batch_size omp b arena S0 K T r sigma num_paths num_steps
              seed run a' ltac:(lia) ltac:(lia) Hrun) as (HS & _).
  rewrite HS.
  destruct (backend_lattice_spec b S0 r sigma (d_div T (d_of_int num_steps))
              (Z.to_nat num_paths) (Z.to_nat num_steps) (Z.to_nat (num_steps + 1)) seed)
    as [_ Hrows]; [apply cols_succ; lia|done| |done|].
  { intros Hb. eapply lsm_run_ok_batches; [|done|done|done]. lia. }
  by destruct (Hrows i Hi).
Qed.

(** Claim C6. For every backend, a completed call has built the lattice
    by [S(i,0) = S0] and
    [S(i,j) = S(i,j-1) * exp((r - 0.5 sigma^2) dt + sigma sqrt(dt) Z)]
    with [dt = T / num_steps], where [Z] is the deviate at the draw
    site of [(i, j)]; distinct entries have distinct draw sites, so
    every [Z] is a fresh draw. *)
Theorem forward_lattice_recurrence (b : Backend) arena S0 K T r sigma
    num_paths num_steps seed run a' :
  1 <= num_paths <= INT_MAX -> 1 <= num_steps -> (0 < batch_size)%nat ->
  (forall loop i, (omp_thread_num omp loop i < omp_max_threads omp)%nat) ->
  lsm_run batch_size omp b arena S0 K T r sigma num_paths num_steps seed
    = (Ok run, a') ->
  let N := Z.to_nat num_paths in
  let M := Z.to_nat num_steps in
  let S := t_get (backend_layout b (Z.to_nat (num_steps + 1))) (run_S run) in
  let dt := d_div T (d_of_int num_steps) in
  let site := draw_site batch_size omp N M b in
  let Z i j := nth_draw (rng_seed (stream_seed b seed (site i j).1)) (site i j).2 in
  (forall i, (i < N)%nat ->
     S i 0%nat = S0 /\
     forall j, (1 <= j <= M)%nat ->
       S i j =
       d_mul (S i (j - 1)%nat)
             (d_exp (d_add (d_mul (d_sub r (d_mul (d_mul d_half sigma) sigma)) dt)
                           (d_mul (d_mul sigma (d_sqrt dt)) (Z i j))))) /\
  (forall i j i' j', (i < N)%nat -> (i' < N)%nat ->
     (1 <= j <= M)%nat -> (1 <= j' <= M)%nat ->
     site i j = site i' j' -> i = i' /\ j = j').
Proof.
  intros HN HM HB Hthr Hrun. cbv zeta.
  destruct (lsm_run_ok batch_size omp b arena S0 K T r sigma num_paths num_steps
              seed run a' ltac:(lia) ltac:(lia) Hrun) as (HS & _).
  assert (Hq : b = CppSimd \/ b = CppUltimate ->
               Z.to_nat num_paths = (Z.to_nat num_paths / batch_size * batch_size)%nat).
  { intros Hb. eapply lsm_run_ok_batches; [|done|done|done]. lia. }
  split.
  - rewrite HS.
    destruct (backend_lattice_spec b S0 r sigma (d_div T (d_of_int num_steps))
                (Z.to_nat num_paths) (Z.to_nat num_steps) (Z.to_nat (num_steps + 1)) seed)
      as [_ Hrows]; [apply cols_succ; lia|done|done|done|].
    intros i Hi. destruct (Hrows i Hi) as [H0' Hrec]. split; [done|].
    intros j Hj. by apply Hrec.
  - intros i j i' j' Hi Hi' Hj Hj'.
    apply (draw_site_inj batch_size HB omp _ _ (Z.to_nat num_paths / batch_size)%nat b);
      try done.
    intros ->. apply Hq. by right.
Qed.
End LatticeProofs.

(** ** The bump allocator *)

Section ArenaProofs.
Import ArenaModel.

Lemma to_size_t_small z : 0 <= z < 2 ^ 64 -> to_size_t z = z.
Proof. intros Hz. unfold to_size_t, size_t_modulus. by apply Z.mod_small. Qed.

Lemma pow2_lt_64 k : 0 <= k < 64 -> 0 < 2 ^ k < 2 ^ 64.
Proof.
  intros Hk. split; [apply Z.pow_pos_nonneg; lia|]. apply Z.pow_lt_mono_r; lia.
Qed.

(** [x & ~(2^k - 1)] on 64 bits clears the low [k] bits of [x]. *)
Lemma mask_low_bits x k :
  0 <= x < 2 ^ 64 -> 0 <= k < 64 ->
  Z.land x (to_size_t (Z.lnot (to_size_t (2 ^ k - 1)))) = x / 2 ^ k * 2 ^ k.
Proof.
  intros Hx Hk. pose proof (pow2_lt_64 k Hk) as Hp.
  rewrite (to_size_t_small (2 ^ k - 1)) by lia.
  unfold to_size_t, size_t_modulus.
  replace (2 ^ k - 1) with (Z.ones k) by (rewrite Z.ones_equiv; lia).
  rewrite <- Z.land_ones by lia.
  rewrite Z.land_assoc, (Z.land_comm x), <- Z.land_assoc.
  rewrite (Z.land_ones x 64) by lia. rewrite (Z.mod_small x) by lia.
  rewrite Z.land_comm, <- Z.ldiff_land, Z.ldiff_ones_r by lia.
  by rewrite Z.shiftr_div_pow2, Z.shiftl_mul_pow2 by lia.
Qed.

Lemma round_up_bounds off alignment :
  0 < alignment ->
  off <= round_up off alignment < off + alignment /\
  round_up off alignment mod alignment = 0.
Proof.
  intros Ha. unfold round_up.
  pose proof (Z.div_mod (off + alignment - 1) alignment ltac:(lia)) as Hdm.
  pose proof (Z.mod_pos_bound (off + alignment - 1) alignment Ha) as Hmod.
  split; [lia|]. by apply Z.mod_mul; lia.
Qed.

(** Claim C9, amended. For an alignment that is a power of two below
    [2^64] and a request that does not overflow [size_t], [allocate]
    rounds the offset up to the next multiple of the alignment; if the
    region fits it returns its start and moves the offset past it,
    otherwise it throws [bad_alloc] and the arena is unchanged. *)
Theorem allocate_power_of_two (a : Arena) (size k : Z) :
  0 <= offset a -> 0 <= size -> 0 <= k < 64 ->
  offset a + 2 ^ k - 1 < 2 ^ 64 ->
  round_up (offset a) (2 ^ k) + size < 2 ^ 64 ->
  let aligned_offset := round_up (offset a) (2 ^ k) in
  (offset a <= aligned_offset < offset a + 2 ^ k /\
   aligned_offset mod 2 ^ k = 0) /\
  allocate size (2 ^ k) a =
    if aligned_offset + size >? memory_size a
    then (Throw bad_alloc, a)
    else (Ok aligned_offset, mkArena (memory_size a) (aligned_offset + size)).
Proof.
  intros Hoff Hsize Hk Hx Hfit. cbv zeta.
  pose proof (pow2_lt_64 k Hk) as Hp.
  pose proof (round_up_bounds (offset a) (2 ^ k) ltac:(lia)) as [Hb Hm].
  split; [done|].
  unfold allocate.
  rewrite (to_size_t_small (offset a + 2 ^ k - 1)) by lia.
  rewrite mask_low_bits by lia.
  fold (round_up (offset a) (2 ^ k)).
  by rewrite (to_size_t_small (round_up (offset a) (2 ^ k) + size)) by lia.
Qed.

Lemma allocate_power_of_two_witness :
  allocate 24 (2 ^ 3) (mkArena 4096 156) = (Ok 160, mkArena 4096 184).
Proof.
  exact (proj2 (allocate_power_of_two (mkArena 4096 156) 24 3
                  ltac:(simpl; lia) ltac:(lia) ltac:(lia)
                  ltac:(vm_compute; reflexivity) ltac:(vm_compute; reflexivity))).
Defined.

(** Claim C9 as stated fails for an alignment that is not a power of
    two: with offset 1 and alignment 3 the region starts at 1, which is
    not a multiple of 3 (rounding up would give 3). *)
Lemma allocate_alignment_3_counterexample :
  allocate 8 3 (mkArena 64 1) = (Ok 1, mkArena 64 9) /\ round_up 1 3 = 3.
Proof. split; reflexivity. Qed.

(** A failed allocation leaves the arena as it was, whatever the request. *)
Lemma allocate_throw_unchanged size alignment a e a' :
  allocate size alignment a = (Throw e, a') -> e = bad_alloc /\ a' = a.
Proof.
  unfold allocate. destruct (_ >? _); [|done]. by intros [= <- <-].
Qed.

Lemma reset_offset a : offset (reset a) = 0 /\ memory_size (reset a) = memory_size a.
Proof. done. Qed.
End ArenaProofs.

(** ** The cash-flow table of a completed call *)

Section TableFacts.
Context {D : Type} `{DoubleOps D}.
Variable L : Layout D.
Variables N M : nat.
Variable wf : table L -> Prop.
Hypothesis laws : LayoutLaws L N (M + 1) wf.
Variable S : nat -> nat -> D.
Variables K r dt : D.

Local Abbreviation cf0 := (terminal_payoffs L S K N M (t_zero L N (M + 1))).
Local Abbreviation table_after := (fun t => backward_down_to L S K r dt N M t cf0).

Lemma cf0_wf : wf cf0.
Proof. apply (terminal_payoffs_wf L N M wf laws), (wf_zero _ _ _ _ laws). Qed.

Lemma cf0_cf_inv : cf_inv L N M M cf0.
Proof.
  apply (terminal_cf_inv L N M wf laws); [apply (wf_zero _ _ _ _ laws)|].
  intros i j Hi Hj. by apply (get_zero _ _ _ _ laws).
Qed.

Lemma cf0_cf_sign : cf_sign L N M cf0.
Proof.
  apply (terminal_cf_sign L N M wf laws); [apply (wf_zero _ _ _ _ laws)|].
  intros i j Hi Hj. by apply (get_zero _ _ _ _ laws).
Qed.

Lemma table_after_single_exercise :
  (1 <= M)%nat -> single_exercise L N M (table_after 1%nat).
Proof.
  intros HM. apply cf_inv_single_exercise.
  apply (backward_down_to_cf_inv L N M wf laws); [apply cf0_wf|done|apply cf0_cf_inv].
Qed.

Lemma table_after_exercised t i :
  (1 <= t < M)%nat -> In i (in_the_money_paths S K N t) ->
  exercises S K (polyfit (x_itm S K N t)
                         (y_itm L S K r dt N M (table_after (t + 1)%nat) t))
            t i (S i t) = true ->
  t_get L (table_after t) i t = intrinsic_value S K t i /\
  forall t' j, (1 <= t' <= t)%nat -> (t < j <= M)%nat ->
    t_get L (table_after t') i j = d_zero.
Proof.
  intros Ht Hin Hex.
  assert (Hi : (i < N)%nat) by by apply in_the_money_paths_spec in Hin as [? _].
  pose proof (process_date_exercised L N M wf laws S K r dt (table_after (t + 1)%nat) t i
                (backward_down_to_wf L N M wf laws S K r dt _ _ cf0_wf)
                ltac:(lia) Hin Hex) as [Hrec Hzero].
  rewrite <- (backward_down_to_step L N M S K r dt t cf0) in Hrec, Hzero by lia.
  split; [done|]. intros t' j Ht' Hj.
  apply (backward_down_to_keeps_zero L N M wf laws S K r dt t t'); try done; try lia.
  - apply cf0_wf.
  - by apply Hzero.
Qed.
End TableFacts.

Section TableTheorems.
Context {D : Type} `{DoubleOps D} `{NormalStream D}.
Import ArenaModel.
Variable batch_size : nat.
Variable omp : OmpRuntime.

(** Claim C1. For every backend, when a call with at least one path and
    one step has completed, every path has at most one date in
    [1, num_steps] with a nonzero cash flow; and whenever the exercise
    update of an interior date [t] fires on path [i] it leaves the
    intrinsic value at [(i, t)], and every entry of path [i] after [t]
    is zero from then on: in the table after date [t] and in the table
    after every later-processed date [t' <= t], the final one included. *)
Theorem single_exercise_cash_flows (b : Backend) arena S0 K T r sigma
    num_paths num_steps seed run a' :
  1 <= num_paths -> 1 <= num_steps ->
  lsm_run batch_size omp b arena S0 K T r sigma num_paths num_steps seed
    = (Ok run, a') ->
  let N := Z.to_nat num_paths in
  let M := Z.to_nat num_steps in
  let cols := Z.to_nat (num_steps + 1) in
  let L := backend_layout b cols in
  let S := t_get L (run_S run) in
  let dt := d_div T (d_of_int num_steps) in
  let table_after t :=
    backward_down_to L S K r dt N M t
      (terminal_payoffs L S K N M (t_zero L N cols)) in
  run_CF run = table_after 1%nat /\
  single_exercise L N M (run_CF run) /\
  forall t i, (1 <= t < M)%nat ->
    In i (in_the_money_paths S K N t) ->
    exercises S K (polyfit (x_itm S K N t)
                           (y_itm L S K r dt N M (table_after (t + 1)%nat) t))
              t i (S i t) = true ->
    t_get L (table_after t) i t = intrinsic_value S K t i /\
    forall t' j, (1 <= t' <= t)%nat -> (t < j <= M)%nat ->
      t_get L (table_after t') i j = d_zero.
Proof.
  intros HN HM Hrun.
  destruct (lsm_run_ok batch_size omp b arena S0 K T r sigma num_paths num_steps
              seed run a' ltac:(lia) ltac:(lia) Hrun) as (_ & HCF & _).
  cbv zeta. rewrite HCF. unfold cash_flow_table, backward_induction.
  generalize (run_S run). clear HCF Hrun run. unfold backend_table.
  rewrite (cols_succ num_steps) by lia.
  set (N := Z.to_nat num_paths). set (M := Z.to_nat num_steps).
  assert (HM' : (1 <= M)%nat) by lia.
  intros Slat.
  pose proof (backend_laws b N (M + 1)) as laws.
  split; [done|]. split.
  - by apply (table_after_single_exercise _ N M _ laws).
  - intros t i Ht Hin Hex.
    by apply (table_after_exercised _ N M _ laws).
Qed.

(** Claim C7. At an interior date [t], whatever the table [cf] then
    holds, the regression target of the [k]-th selected path [i] is the
    first positive cash flow of [i] at a date [j] in [t+1, num_steps],
    times [exp(-r (j - t) dt)], or zero when no later cash flow is
    positive; and these targets are what the date passes to the fit. *)
Theorem regression_target_first_positive (L : Layout D) (S : nat -> nat -> D)
    (K r dt : D) (N M : nat) (cf : table L) (t k i : nat) :
  in_the_money_paths S K N t !! k = Some i ->
  (d_gt (d_sub K (S i t)) d_zero = true /\
   exists y, y_itm L S K r dt N M cf t !! k = Some y /\
     ((exists j, (t < j <= M)%nat /\
                 d_gt (t_get L cf i j) d_zero = true /\
                 (forall j', (t < j' < j)%nat -> d_gt (t_get L cf i j') d_zero = false) /\
                 y = d_mul (t_get L cf i j)
                           (d_exp (d_mul (d_mul (d_neg r) (d_of_int (Z.of_nat j - Z.of_nat t)))
                                         dt))) \/
      ((forall j, (t < j <= M)%nat -> d_gt (t_get L cf i j) d_zero = false) /\
       y = d_zero))) /\
  (x_itm S K N t <> [] ->
   process_date L S K r dt N M cf t =
   fold_left (exercise_step L S K M (polyfit (x_itm S K N t) (y_itm L S K r dt N M cf t)) t)
             (zip (in_the_money_paths S K N t) (x_itm S K N t)) cf).
Proof.
  intros Hk. split.
  - assert (Hin : In i (in_the_money_paths S K N t)).
    { apply list_elem_of_In. by eapply list_elem_of_lookup_2. }
    apply in_the_money_paths_spec in Hin as [_ Hitm]. split; [done|].
    exists (future_cf L r dt M cf t i). split.
    { unfold y_itm. by rewrite list_lookup_fmap, Hk. }
    unfold future_cf, first_positive.
    destruct (List.find _ _) as [j|] eqn:Efind.
    + left. apply find_seq_first in Efind as (Hr & Hpos & Hbefore).
      exists j. split; [lia|]. split; [done|]. split; [|done].
      intros j' Hj'. apply Hbefore. lia.
    + right. split; [|done]. intros j Hj.
      apply (find_seq_none _ _ _ Efind). lia.
  - intros Hne. unfold process_date. by destruct (x_itm S K N t).
Qed.
End TableTheorems.

(** ** Errors *)

Section ErrorProofs.
Context {D : Type} `{DoubleOps D} `{NormalStream D}.
Import ArenaModel ArenaMonad.
Variable batch_size : nat.
Variable omp : OmpRuntime.

Lemma only_bad_alloc_ret {A} (x : A) : only_bad_alloc (ret x).
Proof. intros a. done. Qed.

Lemma only_bad_alloc_bind {A B} (m : ArenaM A) (k : A -> ArenaM B) :
  only_bad_alloc m -> (forall x, only_bad_alloc (k x)) -> only_bad_alloc (bind m k).
Proof.
  intros Hm Hk a. unfold bind. specialize (Hm a).
  destruct (m a) as [[x|e0|] a1] eqn:Em; simpl in *; [apply Hk|done|done].
Qed.

Lemma only_bad_alloc_vector n elt_size elt_align :
  0 <= n -> only_bad_alloc (arena_vector n elt_size elt_align).
Proof.
  intros Hn. unfold arena_vector.
  destruct (n <? 0) eqn:E; [lia|]. destruct (n =? 0); [apply only_bad_alloc_ret|].
  apply only_bad_alloc_bind; [|intros; apply only_bad_alloc_ret].
  intros a. unfold allocate. by destruct (_ >? _).
Qed.

Lemma only_bad_alloc_repeat k m : only_bad_alloc m -> only_bad_alloc (repeatM k m).
Proof.
  intros Hm. induction k as [|k IH]; simpl; [apply only_bad_alloc_ret|].
  by apply only_bad_alloc_bind.
Qed.

Lemma only_bad_alloc_rows count n :
  0 <= count -> 0 <= n -> only_bad_alloc (arena_rows count n).
Proof.
  intros Hc Hn. unfold arena_rows.
  apply only_bad_alloc_bind; [by apply only_bad_alloc_vector|]. intros _.
  destruct (count <? 0) eqn:E; [lia|].
  by apply only_bad_alloc_repeat, only_bad_alloc_vector.
Qed.

Lemma lane_mismatch_in_range num_paths :
  (0 < batch_size)%nat -> (Z.of_nat batch_size | 2 ^ 64) ->
  lane_mismatch batch_size num_paths <-> num_paths mod Z.of_nat batch_size <> 0.
Proof.
  intros HB Hdiv. unfold lane_mismatch, to_size_t, size_t_modulus.
  by rewrite Z.mod_mod_divide.
Qed.

(** Claim C3, amended. When the lane width does not divide [num_paths]
    the SIMD and ultimate variants throw the declared
    [std::runtime_error] and compute nothing; the ultimate variant has
    by then reset the arena it was given, and has done nothing else to it. *)
Theorem lane_mismatch_rejected arena S0 K T r sigma num_paths num_steps seed :
  lane_mismatch batch_size num_paths ->
  price_american_put_lsm_simd batch_size S0 K T r sigma num_paths num_steps seed
    = Throw runtime_error /\
  price_american_put_lsm_ultimate batch_size omp arena S0 K T r sigma
    num_paths num_steps seed
    = (Throw runtime_error, reset arena).
Proof.
  intros Hmis. unfold lane_mismatch in Hmis.
  apply Z.eqb_neq in Hmis.
  unfold price_american_put_lsm_simd, lsm_simd_run,
    price_american_put_lsm_ultimate, lsm_ultimate_run.
  by rewrite Hmis.
Qed.

(** How a call can end, for counts within the bounds: not negative,
    [num_steps] below [INT_MAX], and a table of at most [INT_MAX]
    entries; whatever [T] and [sigma] are. *)
Lemma price_outcomes (b : Backend) arena S0 K T r sigma num_paths num_steps seed :
  0 <= num_paths <= INT_MAX -> 0 <= num_steps < INT_MAX ->
  num_paths * (num_steps + 1) <= INT_MAX ->
  match (price batch_size omp b arena S0 K T r sigma num_paths num_steps seed).1 with
  | Ok _ => ~ ((b = CppSimd \/ b = CppUltimate) /\ lane_mismatch batch_size num_paths)
  | Throw runtime_error =>
      (b = CppSimd \/ b = CppUltimate) /\ lane_mismatch batch_size num_paths
  | Throw bad_alloc =>
      (b = CppArena \/ b = CppMp \/ b = CppUltimate) /\
      ~ ((b = CppSimd \/ b = CppUltimate) /\ lane_mismatch batch_size num_paths)
  | Throw length_error => False
  | Undefined => False
  end.
Proof.
  intros HN HM Hcells.
  assert (Hflat : 0 <= num_paths * (num_steps + 1)) by nia.
  assert (Hint : int_counts num_paths num_steps = true).
  { apply int_counts_spec. unfold INT_MIN, INT_MAX in *. lia. }
  pose proof (to_int_succ num_steps HM) as Hrow.
  assert (Hcell : to_int (num_paths * (num_steps + 1)) = num_paths * (num_steps + 1)).
  { apply to_int_small. unfold INT_MIN. lia. }
  assert (Hfb : flat_in_bounds num_paths (num_steps + 1) = true).
  { unfold flat_in_bounds. apply orb_true_iff. right.
    apply andb_true_iff. split; [apply Z.ltb_lt|apply Z.leb_le]; lia. }
  assert (Hclose : forall (A : Type) (m : ArenaM A) (B : Backend),
            only_bad_alloc m ->
            B = CppArena \/ B = CppMp \/ B = CppUltimate ->
            ~ ((B = CppSimd \/ B = CppUltimate) /\ lane_mismatch batch_size num_paths) ->
            forall f : A -> D,
            match outcome_map f (m (reset arena)).1 with
            | Ok _ =>
                ~ ((B = CppSimd \/ B = CppUltimate) /\ lane_mismatch batch_size num_paths)
            | Throw runtime_error =>
                (B = CppSimd \/ B = CppUltimate) /\ lane_mismatch batch_size num_paths
            | Throw bad_alloc =>
                (B = CppArena \/ B = CppMp \/ B = CppUltimate) /\
                ~ ((B = CppSimd \/ B = CppUltimate) /\ lane_mismatch batch_size num_paths)
            | Throw length_error => False
            | Undefined => False
            end).
  { intros A m B Hm HB Hno f. specialize (Hm (reset arena)).
    destruct (m (reset arena)).1 as [x|e|]; simpl; [done| |done]. by subst e. }
  destruct b; simpl.
  - unfold price_american_put_lsm_cpp, lsm_cpp_run. rewrite Hint, Hrow. simpl.
    destruct (_ || _) eqn:E; [lia|].
    destruct (_ && _) eqn:E2; [lia|]. simpl. intros [[?|?] _]; done.
  - unfold price_american_put_lsm_arena, lsm_arena_run. cbv zeta. simpl.
    rewrite Hint, Hrow, Hcell, Hfb. simpl.
    apply Hclose; [|by left|intros [[?|?] _]; done].
    repeat (apply only_bad_alloc_bind;
            [apply only_bad_alloc_vector; lia|intros _]).
    apply only_bad_alloc_ret.
  - unfold price_american_put_lsm_simd, lsm_simd_run, lane_mismatch.
    destruct (to_size_t num_paths mod Z.of_nat batch_size =? 0) eqn:Emod; simpl.
    + apply Z.eqb_eq in Emod. rewrite Hint, Hrow. simpl.
      destruct (_ || _) eqn:E; [lia|].
      destruct (_ =? 0) eqn:E2; [lia|]. simpl.
      intros [_ Hmis]. done.
    + apply Z.eqb_neq in Emod. split; [by left|done].
  - unfold price_american_put_lsm_mp, lsm_mp_run. cbv zeta. simpl.
    rewrite Hint, Hrow, Hcell, Hfb. simpl.
    apply Hclose; [|by right; left|intros [[?|?] _]; done].
    repeat (apply only_bad_alloc_bind;
            [apply only_bad_alloc_vector; lia|intros _]).
    apply only_bad_alloc_ret.
  - unfold price_american_put_lsm_ultimate, lsm_ultimate_run, lane_mismatch. cbv zeta.
    destruct (to_size_t num_paths mod Z.of_nat batch_size =? 0) eqn:Emod; simpl.
    + apply Z.eqb_eq in Emod. rewrite Hint, Hrow. simpl.
      destruct (num_steps + 1 =? 0) eqn:E2; [lia|].
      apply Hclose; [|by right; right|intros [_ Hmis]; done].
      apply only_bad_alloc_bind; [apply only_bad_alloc_rows; lia|intros _].
      apply only_bad_alloc_bind; [apply only_bad_alloc_rows; lia|intros _].
      repeat (apply only_bad_alloc_bind;
              [apply only_bad_alloc_vector; lia|intros _]).
      apply only_bad_alloc_ret.
    + apply Z.eqb_neq in Emod. split; [by right|done].
Qed.

End ErrorProofs.

(** ** Exact arithmetic: the price as a real number *)

Section RealArithmetic.
Existing Instance real_ops.
Local Open Scope R_scope.

Lemma Rltb_true a b : Rltb a b = true <-> a < b.
Proof. unfold Rltb. destruct (Rlt_dec a b); split; (done || lra). Qed.

Lemma Rltb_false a b : Rltb a b = false <-> b <= a.
Proof. unfold Rltb. destruct (Rlt_dec a b); split; (done || lra). Qed.

Lemma d_max_zero_Rmax x : d_max 0 x = Rmax 0 x.
Proof.
  unfold d_max. simpl. unfold Rltb, Rmax.
  destruct (Rlt_dec 0 x), (Rle_dec 0 x); (done || lra).
Qed.

Lemma fold_left_Rplus (f : nat -> R) l a :
  fold_left (fun total i => total + f i) l a = a + fold_left (fun total i => total + f i) l 0.
Proof.
  revert a. induction l as [|i l IH]; intros a; simpl; [lra|].
  rewrite (IH (a + f i)), (IH (0 + f i)). lra.
Qed.

Lemma fold_left_Rsum (f : nat -> R) n :
  fold_left (fun total i => total + f i) (seq 0 n) 0 = Rsum f n.
Proof.
  induction n as [|n IH]; [done|].
  rewrite seq_S, fold_left_app, IH. done.
Qed.

Lemma Rsum_ext (f g : nat -> R) n :
  (forall i, (i < n)%nat -> f i = g i) -> Rsum f n = Rsum g n.
Proof.
  induction n as [|n IH]; intros Hfg; simpl; [done|].
  rewrite IH by (intros; apply Hfg; lia). by rewrite Hfg by lia.
Qed.

Lemma Rsum_nonneg (f : nat -> R) n :
  (forall i, (i < n)%nat -> 0 <= f i) -> 0 <= Rsum f n.
Proof.
  induction n as [|n IH]; intros Hf; simpl; [lra|].
  pose proof (Hf n ltac:(lia)). pose proof (IH ltac:(intros; apply Hf; lia)). lra.
Qed.

Lemma Rsum_const (c : R) n : Rsum (fun _ => c) n = INR n * c.
Proof.
  induction n as [|n IH]; [simpl; lra|].
  rewrite S_INR. simpl Rsum. rewrite IH. lra.
Qed.

(** One thread's share of a sum. *)
Lemma partial_sum_succ (f : nat -> R) (thread_of : nat -> nat) w n :
  fold_left (fun total i => total + f i)
    (List.filter (fun i => Nat.eqb (thread_of i) w) (seq 0 (Datatypes.S n))) 0 =
  fold_left (fun total i => total + f i)
    (List.filter (fun i => Nat.eqb (thread_of i) w) (seq 0 n)) 0
  + (if Nat.eqb (thread_of n) w then f n else 0).
Proof.
  rewrite seq_S, List.filter_app, fold_left_app. simpl.
  destruct (Nat.eqb (thread_of n) w); simpl; lra.
Qed.

Lemma Rsum_indicator (c : R) w0 W :
  Rsum (fun w => if Nat.eqb w0 w then c else 0) W = if decide (w0 < W)%nat then c else 0.
Proof.
  induction W as [|W IH]; [done|]. simpl. rewrite IH.
  destruct (Nat.eqb_spec w0 W) as [->|Hne].
  - rewrite decide_False by lia. rewrite decide_True by lia. lra.
  - destruct (decide (w0 < W)%nat).
    + rewrite decide_True by lia. lra.
    + rewrite decide_False by lia. lra.
Qed.

Lemma Rsum_plus (f g : nat -> R) n : Rsum (fun i => f i + g i) n = Rsum f n + Rsum g n.
Proof. induction n as [|n IH]; simpl; [lra|]. rewrite IH. lra. Qed.

(** The reduction over threads adds up to the sum over the paths. *)
Lemma omp_sum (f : nat -> R) (thread_of : nat -> nat) W n :
  (forall i, (thread_of i < W)%nat) ->
  fold_left
    (fun total w =>
       total + fold_left (fun total i => total + f i)
                 (List.filter (fun i => Nat.eqb (thread_of i) w) (seq 0 n)) 0)
    (seq 0 W) 0
  = Rsum f n.
Proof.
  intros Hthr.
  rewrite (fold_left_Rsum
             (fun w => fold_left (fun total i => total + f i)
                         (List.filter (fun i => Nat.eqb (thread_of i) w) (seq 0 n)) 0)).
  induction n as [|n IH].
  - simpl. clear. induction W as [|W IH]; simpl; [done|]. rewrite IH. lra.
  - rewrite (Rsum_ext _ _ W (fun w _ => partial_sum_succ f thread_of w n)).
    rewrite Rsum_plus, IH, Rsum_indicator.
    rewrite decide_True by apply Hthr. done.
Qed.
(** A sum does not depend on the order of its terms. *)
Lemma fold_left_plus_perm (g : nat -> R) l l' a :
  Permutation l l' ->
  fold_left (fun total w => total + g w) l a =
  fold_left (fun total w => total + g w) l' a.
Proof.
  intros Hperm. revert a.
  induction Hperm as [|w l l' _ IH|w w' l|l l' l'' _ IH1 _ IH2]; intros a; simpl.
  - done.
  - apply IH.
  - f_equal. lra.
  - by rewrite IH1.
Qed.

(** The same, whatever the order in which the threads are combined. *)
Lemma omp_sum_order (f : nat -> R) (thread_of : nat -> nat) order W n :
  Permutation order (seq 0 W) ->
  (forall i, (thread_of i < W)%nat) ->
  fold_left
    (fun total w =>
       total + fold_left (fun total i => total + f i)
                 (List.filter (fun i => Nat.eqb (thread_of i) w) (seq 0 n)) 0)
    order 0
  = Rsum f n.
Proof.
  intros Hperm Hthr. rewrite <- (omp_sum f thread_of W n Hthr).
  by apply (fold_left_plus_perm
              (fun w => fold_left (fun total i => total + f i)
                          (List.filter (fun i => Nat.eqb (thread_of i) w) (seq 0 n)) 0)).
Qed.
End RealArithmetic.

Section RunTableFacts.
Context {D : Type} `{DoubleOps D} `{NormalStream D}.
Import ArenaModel.
Variable batch_size : nat.
Variable omp : OmpRuntime.

(** Every entry of the table a call leaves is the literal zero or tests
    positive, whatever [double] is. *)
Lemma lsm_run_cf_sign (b : Backend) arena S0 K T r sigma
    num_paths num_steps seed run a' :
  1 <= num_paths -> 1 <= num_steps ->
  lsm_run batch_size omp b arena S0 K T r sigma num_paths num_steps seed
    = (Ok run, a') ->
  forall i j, (i < Z.to_nat num_paths)%nat -> (j <= Z.to_nat num_steps)%nat ->
    let cf := t_get (backend_layout b (Z.to_nat (num_steps + 1))) (run_CF run) i j in
    cf = d_zero \/ d_lt d_zero cf = true.
Proof.
  intros HN HM Hrun.
  destruct (lsm_run_ok batch_size omp b arena S0 K T r sigma num_paths num_steps
              seed run a' ltac:(lia) ltac:(lia) Hrun) as (_ & HCF & _).
  cbv zeta. rewrite HCF. unfold cash_flow_table, backward_induction.
  generalize (run_S run). clear HCF Hrun run. unfold backend_table.
  rewrite (cols_succ num_steps) by lia.
  intros Slat i j Hi Hj.
  pose proof (backend_laws b (Z.to_nat num_paths) (Z.to_nat num_steps + 1)) as laws.
  apply (backward_down_to_cf_sign _ _ _ _ laws (t_get _ Slat) K r
           (d_div T (d_of_int num_steps)) 1%nat _
           (cf0_wf _ _ _ _ laws (t_get _ Slat) K)
           (cf0_cf_sign _ _ _ _ laws (t_get _ Slat) K) i j Hi Hj).
Qed.

(** With one step the pricing loop looks at the terminal entry only. *)
Lemma single_step_path_payoff (L : Layout D) N wf (laws : LayoutLaws L N 2 wf)
    (S : nat -> nat -> D) K r dt i :
  (i < N)%nat ->
  path_payoff L r dt 1 (terminal_payoffs L S K N 1 (t_zero L N 2)) i =
  let payoff := d_max d_zero (d_sub K (S i 1%nat)) in
  if d_gt payoff d_zero
  then Some (d_mul payoff (d_exp (d_mul (d_mul (d_neg r) (d_of_int 1)) dt)))
  else None.
Proof.
  intros Hi.
  assert (Hget : t_get L (terminal_payoffs L S K N 1 (t_zero L N 2)) i 1 =
                 d_max d_zero (d_sub K (S i 1%nat))).
  { rewrite (terminal_payoffs_get L N 1 wf laws S K _ i 1)
      by (done || lia || apply (wf_zero _ _ _ _ laws)).
    by rewrite decide_True by done. }
  unfold path_payoff, first_positive. simpl. rewrite Hget.
  destruct (d_gt _ _); [|done]. by rewrite Hget.
Qed.
End RunTableFacts.

Section RealPrice.
Existing Instance real_ops.
Context {rng : NormalStream R}.
Import ArenaModel.
Variable batch_size : nat.
Variable omp : OmpRuntime.
Local Open Scope R_scope.

Lemma add_payoff_plus (L : Layout R) r dt M cf total i :
  add_payoff L r dt M cf total i = total + payoff_or_zero L r dt M cf i.
Proof.
  unfold add_payoff, payoff_or_zero. destruct (path_payoff L r dt M cf i); simpl; lra.
Qed.

Lemma fold_add_payoff (L : Layout R) r dt M cf l a :
  fold_left (add_payoff L r dt M cf) l a =
  fold_left (fun total i => total + payoff_or_zero L r dt M cf i) l a.
Proof.
  revert a. induction l as [|i l IH]; intros a; simpl; [done|].
  by rewrite add_payoff_plus, IH.
Qed.

Lemma total_payoff_Rsum (L : Layout R) r dt N M cf :
  total_payoff L r dt N M cf = Rsum (payoff_or_zero L r dt M cf) N.
Proof. unfold total_payoff. rewrite fold_add_payoff. apply fold_left_Rsum. Qed.

Lemma total_payoff_omp_Rsum (L : Layout R) r dt N M order W thread_of cf :
  Permutation order (seq 0 W) ->
  (forall i, (thread_of i < W)%nat) ->
  total_payoff_omp L r dt N M order thread_of cf = Rsum (payoff_or_zero L r dt M cf) N.
Proof.
  intros Hperm Hthr. unfold total_payoff_omp, partial_payoff.
  rewrite <- (omp_sum_order (payoff_or_zero L r dt M cf) thread_of order W N Hperm Hthr).
  apply fold_left_pointwise. intros total w. simpl. by rewrite fold_add_payoff.
Qed.

Lemma backend_total_Rsum (b : Backend) r dt N M cols cf :
  (forall loop i, (omp_thread_num omp loop i < omp_max_threads omp)%nat) ->
  backend_total omp b r dt N M cols cf =
  Rsum (payoff_or_zero (backend_layout b cols) r dt M cf) N.
Proof.
  intros Hthr. destruct b; simpl;
    (apply total_payoff_Rsum ||
     (apply (total_payoff_omp_Rsum _ _ _ _ _ _ (omp_max_threads omp));
      [apply finish_order_perm|apply Hthr])).
Qed.

(** A path's payoff is a positive entry times a positive discount factor. *)
Lemma path_payoff_pos (L : Layout R) r dt M cf i p :
  path_payoff L r dt M cf i = Some p ->
  exists j, (1 <= j <= M)%nat /\ 0 < t_get L cf i j /\
            (forall j', (1 <= j' < j)%nat -> t_get L cf i j' <= 0) /\
            p = t_get L cf i j * exp (- r * IZR (Z.of_nat j) * dt).
Proof.
  unfold path_payoff, first_positive.
  destruct (List.find _ _) as [j|] eqn:Efind; [|done].
  intros [= <-]. apply find_seq_first in Efind as (Hr & Hpos & Hbefore).
  exists j. split; [lia|]. split; [by apply Rltb_true in Hpos|]. split; [|done].
  intros j' Hj'. by apply Rltb_false, Hbefore.
Qed.

Lemma payoff_or_zero_nonneg (L : Layout R) r dt M cf i :
  0 <= payoff_or_zero L r dt M cf i.
Proof.
  unfold payoff_or_zero. destruct (path_payoff L r dt M cf i) as [p|] eqn:Ep; [|lra].
  apply path_payoff_pos in Ep as (j & _ & Hpos & _ & ->).
  pose proof (exp_pos (- r * IZR (Z.of_nat j) * dt)). nra.
Qed.

(** Claim C10, amended. For every backend and a completed call with at
    least one path and one step: whatever [double] is, every entry of
    the cash-flow table is the literal zero or tests positive, the
    total is accumulated from such positive entries alone, each times
    its discount factor, and the price is the total divided by
    [num_paths]; in exact arithmetic and for a positive maturity, no
    entry, nor the total, nor the price is negative. *)
Theorem price_nonnegative (b : Backend) arena num_paths num_steps seed :
  (1 <= num_paths)%Z -> (1 <= num_steps)%Z ->
  let N := Z.to_nat num_paths in
  let M := Z.to_nat num_steps in
  let cols := Z.to_nat (num_steps + 1) in
  (forall (D : Type) (ops : DoubleOps D) (stream : NormalStream D)
          (S0 K T r sigma : D) run a',
     lsm_run batch_size omp b arena S0 K T r sigma num_paths num_steps seed
       = (Ok run, a') ->
     let CF := t_get (backend_layout b cols) (run_CF run) in
     (forall i j, (i < N)%nat -> (j <= M)%nat ->
        CF i j = d_zero \/ d_lt d_zero (CF i j) = true) /\
     run_total run =
       backend_total omp b r (d_div T (d_of_int num_steps)) N M cols (run_CF run) /\
     run_price run = d_div (run_total run) (d_of_int num_paths)) /\
  (forall (S0 K T r sigma : R) run a',
     0 < T ->
     (forall loop i, (omp_thread_num omp loop i < omp_max_threads omp)%nat) ->
     lsm_run batch_size omp b arena S0 K T r sigma num_paths num_steps seed
       = (Ok run, a') ->
     (forall i j, (i < N)%nat -> (j <= M)%nat ->
        0 <= t_get (backend_layout b cols) (run_CF run) i j) /\
     0 <= run_total run /\
     0 <= run_price run).
Proof.
  intros HN HM. cbv zeta. split.
  - intros D ops stream S0 K T r sigma run a' Hrun.
    destruct (lsm_run_ok batch_size omp b arena S0 K T r sigma num_paths num_steps
                seed run a' ltac:(lia) ltac:(lia) Hrun) as (_ & _ & Htot & Hprice).
    split; [|split; [exact Htot|]].
    + intros i j Hi Hj.
      apply (lsm_run_cf_sign batch_size omp b arena S0 K T r sigma num_paths
               num_steps seed run a' HN HM Hrun i j Hi Hj).
    + rewrite Hprice. unfold average. by rewrite Z2Nat.id by lia.
  - intros S0 K T r sigma run a' HT Hthr Hrun.
    destruct (lsm_run_ok batch_size omp b arena S0 K T r sigma num_paths num_steps
                seed run a' ltac:(lia) ltac:(lia) Hrun) as (_ & _ & Htot & Hprice).
    assert (Htotal : 0 <= run_total run).
    { rewrite Htot, backend_total_Rsum by done.
      apply Rsum_nonneg. intros. apply payoff_or_zero_nonneg. }
    split; [|split; [done|]].
    + intros i j Hi Hj.
      destruct (lsm_run_cf_sign batch_size omp b arena S0 K T r sigma num_paths
                  num_steps seed run a' HN HM Hrun i j Hi Hj) as [Hz|Hp].
      * rewrite Hz. apply Rle_refl.
      * apply Rltb_true in Hp. apply Rlt_le. exact Hp.
    + rewrite Hprice. unfold average. simpl.
      apply Rmult_le_pos; [done|]. left. apply Rinv_0_lt_compat.
      apply IZR_lt. lia.
Qed.

(** With one step the only exercise date is the terminal one. *)
Lemma single_step_payoff (L : Layout R) N wf (laws : LayoutLaws L N 2 wf)
    (S : nat -> nat -> R) K r T i :
  (i < N)%nat ->
  payoff_or_zero L r (T / 1) 1 (terminal_payoffs L S K N 1 (t_zero L N 2)) i =
  Rmax 0 (K - S i 1%nat) * exp (- r * T).
Proof.
  intros Hi.
  assert (Hget : t_get L (terminal_payoffs L S K N 1 (t_zero L N 2)) i 1 =
                 Rmax 0 (K - S i 1%nat)).
  { rewrite (terminal_payoffs_get L N 1 wf laws S K _ i 1)
      by (done || lia || apply (wf_zero _ _ _ _ laws)).
    rewrite decide_True by done. apply d_max_zero_Rmax. }
  unfold payoff_or_zero, path_payoff, first_positive. simpl.
  unfold d_gt. simpl. rewrite !Hget. unfold Rltb.
  destruct (Rlt_dec 0 (Rmax 0 (K - S i 1%nat))) as [Hpos|Hnpos].
  - rewrite Hget. f_equal. f_equal. field.
  - assert (Rmax 0 (K - S i 1%nat) = 0) as ->; [|lra].
    pose proof (Rmax_l 0 (K - S i 1%nat)). lra.
Qed.

(** Claim C4, amended. For every backend, a completed call with
    [num_steps = 1] on at least one path has processed no interior
    date and its cash-flow table is the terminal payoffs.  Whatever
    [double] is, a path adds [max(0, K - S(i,1)) * exp(-r * 1 * dt)]
    to the total when that payoff tests positive and nothing
    otherwise, the total is accumulated as the backend does it, and
    the price is the total divided by [num_paths]; in exact arithmetic
    and for a positive maturity that is the average over the paths of
    [max(0, K - S(i,1)) exp(-r dt)] with [dt = T], the European put
    estimate. *)
Theorem single_step_is_european (b : Backend) arena num_paths seed :
  (1 <= num_paths)%Z ->
  let N := Z.to_nat num_paths in
  (forall (D : Type) (ops : DoubleOps D) (stream : NormalStream D)
          (S0 K T r sigma : D) run a',
     lsm_run batch_size omp b arena S0 K T r sigma num_paths 1 seed = (Ok run, a') ->
     let L := backend_layout b 2 in
     let S := t_get L (run_S run) in
     let dt := d_div T (d_of_int 1) in
     interior_dates 1 = [] /\
     run_CF run = terminal_payoffs L S K N 1 (t_zero L N 2) /\
     (forall i, (i < N)%nat ->
        path_payoff L r dt 1 (run_CF run) i =
        let payoff := d_max d_zero (d_sub K (S i 1%nat)) in
        if d_gt payoff d_zero
        then Some (d_mul payoff (d_exp (d_mul (d_mul (d_neg r) (d_of_int 1)) dt)))
        else None) /\
     run_total run = backend_total omp b r dt N 1 2 (run_CF run) /\
     run_price run = d_div (run_total run) (d_of_int num_paths)) /\
  (forall (S0 K T r sigma : R) run a',
     0 < T ->
     (forall loop i, (omp_thread_num omp loop i < omp_max_threads omp)%nat) ->
     lsm_run batch_size omp b arena S0 K T r sigma num_paths 1 seed = (Ok run, a') ->
     let S := t_get (backend_layout b 2) (run_S run) in
     run_price run =
       Rsum (fun i => Rmax 0 (K - S i 1%nat) * exp (- r * T)) N / IZR num_paths).
Proof.
  intros HN. cbv zeta. split.
  - intros D ops stream S0 K T r sigma run a' Hrun.
    destruct (lsm_run_ok batch_size omp b arena S0 K T r sigma num_paths 1
                seed run a' ltac:(lia) ltac:(lia) Hrun) as (_ & HCF & Htot & Hprice).
    split; [done|]. split; [exact HCF|]. split; [|split; [exact Htot|]].
    + intros i Hi. rewrite HCF.
      apply (single_step_path_payoff _ _ _ (backend_laws b (Z.to_nat num_paths) 2)).
      done.
    + rewrite Hprice. unfold average. by rewrite Z2Nat.id by lia.
  - intros S0 K T r sigma run a' HT Hthr Hrun.
    destruct (lsm_run_ok batch_size omp b arena S0 K T r sigma num_paths 1
                seed run a' ltac:(lia) ltac:(lia) Hrun) as (_ & HCF & Htot & Hprice).
    rewrite Hprice, Htot, backend_total_Rsum by done. rewrite HCF.
    unfold average. simpl d_div. simpl d_of_int.
    rewrite Z2Nat.id by lia. f_equal.
    apply Rsum_ext. intros i Hi.
    apply (single_step_payoff _ _ _ (backend_laws b (Z.to_nat num_paths) 2)). done.
Qed.
End RealPrice.

(** ** The degenerate case: a lattice that never leaves [S0] *)

Section DegenerateProofs.
Context {D : Type} `{DoubleOps D}.
Variable L : Layout D.
Variables N M : nat.
Variable wf : table L -> Prop.
Hypothesis laws : LayoutLaws L N (M + 1) wf.
Variable S : nat -> nat -> D.
Variables S0 K r dt : D.
Hypothesis lattice_constant : forall i j, (i < N)%nat -> (j <= M)%nat -> S i j = S0.
Hypothesis zero_not_positive : d_lt d_zero d_zero = false.
Hypothesis steps : (1 <= M)%nat.

Local Abbreviation v := (d_sub K S0).
Local Abbreviation cf0 := (terminal_payoffs L S K N M (t_zero L N (M + 1))).
Local Abbreviation final := (backward_down_to L S K r dt N M 1 cf0).

Lemma find_seq_intro (p : nat -> bool) from len j :
  (from <= j < from + len)%nat -> p j = true ->
  (forall j', (from <= j' < j)%nat -> p j' = false) ->
  List.find p (seq from len) = Some j.
Proof.
  revert from. induction len as [|len IH]; intros from Hj Hp Hbefore; [lia|].
  simpl. destruct (decide (j = from)) as [->|Hne].
  - by rewrite Hp.
  - rewrite Hbefore by lia. apply IH; [lia|done|]. intros j' Hj'. apply Hbefore. lia.
Qed.

Lemma find_seq_none_intro (p : nat -> bool) from len :
  (forall j, (from <= j < from + len)%nat -> p j = false) ->
  List.find p (seq from len) = None.
Proof.
  revert from. induction len as [|len IH]; intros from Hall; [done|].
  simpl. rewrite Hall by lia. apply IH. intros j Hj. apply Hall. lia.
Qed.

Lemma degenerate_intrinsic t i :
  (i < N)%nat -> (t <= M)%nat ->
  intrinsic_value S K t i = if d_lt d_zero v then v else d_zero.
Proof.
  intros Hi Ht. unfold intrinsic_value, d_max. by rewrite lattice_constant.
Qed.

Lemma degenerate_cf0 i j :
  (i < N)%nat -> (j <= M)%nat ->
  t_get L cf0 i j = if decide (j = M) then (if d_lt d_zero v then v else d_zero) else d_zero.
Proof.
  intros Hi Hj.
  rewrite (terminal_payoffs_get L N M wf laws)
    by (done || lia || apply (wf_zero _ _ _ _ laws)).
  case_decide.
  - unfold d_max. by rewrite lattice_constant by (done || lia).
  - apply (get_zero _ _ _ _ laws); [done|lia].
Qed.

(** In the money: every date leaves one payment of [K - S0] per path. *)
Lemma degenerate_pays_once t :
  d_lt d_zero v = true -> (1 <= t <= M)%nat ->
  forall i, (i < N)%nat ->
    pays_once L M t v (backward_down_to L S K r dt N M t cf0) i.
Proof.
  intros Hitm Ht.
  pose proof (backward_down_to_ind L N M S K r dt
                (fun t cf => wf cf /\ forall i, (i < N)%nat -> pays_once L M t v cf i)
                cf0) as Hind.
  apply Hind; [| |lia].
  - split; [apply (cf0_wf L N M wf laws)|]. intros i Hi. exists M.
    split; [lia|]. split.
    + rewrite degenerate_cf0 by (done || lia). rewrite decide_True by done.
      by rewrite Hitm.
    + intros j' Hj' Hne. rewrite degenerate_cf0 by done. by rewrite decide_False.
  - intros t' cf' Ht' [Hwf Hall].
    apply (process_date_invariant L N M S K r dt
             (fun cf => wf cf /\ forall i, (i < N)%nat -> pays_once L M t' v cf i)).
    + split; [done|]. intros i Hi. destruct (Hall i Hi) as (j & Hj & Hv & Hz).
      exists j. split; [lia|done].
    + intros cf'' i0 Hi0 _ [Hwf'' Hall'']. split; [by apply (exercise_update_wf L N M wf laws)|].
      intros i Hi. destruct (Hall'' i Hi) as (j & Hj & Hv & Hz).
      destruct (decide (i = i0)) as [->|Hne].
      * exists t'. split; [lia|]. split.
        -- rewrite (exercise_update_get L N M wf laws) by (done || lia).
           rewrite !decide_True by done.
           rewrite degenerate_intrinsic by (done || lia). by rewrite Hitm.
        -- intros j' Hj' Hne'.
           rewrite (exercise_update_get L N M wf laws) by (done || lia).
           rewrite decide_True by done. rewrite decide_False by done.
           case_decide; [done|]. apply Hz; [done|lia].
      * exists j. split; [done|]. split.
        -- by rewrite (exercise_update_get L N M wf laws), decide_False by (done || lia).
        -- intros j' Hj' Hne'.
           rewrite (exercise_update_get L N M wf laws), decide_False by (done || lia).
           by apply Hz.
Qed.

Lemma degenerate_payoff_itm i :
  d_lt d_zero v = true -> (i < N)%nat ->
  exists j, (1 <= j <= M)%nat /\
    path_payoff L r dt M final i = Some (d_mul v (discount r dt (Z.of_nat j))).
Proof.
  intros Hitm Hi.
  destruct (degenerate_pays_once 1 Hitm ltac:(lia) i Hi) as (j & Hj & Hv & Hz).
  exists j. split; [done|]. unfold path_payoff, first_positive.
  rewrite (find_seq_intro _ 1 (M + 1 - 1) j).
  - by rewrite Hv.
  - lia.
  - unfold d_gt. by rewrite Hv.
  - intros j' Hj'. unfold d_gt. rewrite Hz by lia. done.
Qed.

Lemma filter_none {A} (f : A -> bool) l :
  (forall x, In x l -> f x = false) -> List.filter f l = [].
Proof.
  induction l as [|x l IH]; intros Hall; simpl; [done|].
  rewrite Hall by (by left). apply IH. intros y Hy. apply Hall. by right.
Qed.

(** Out of the money: nothing is ever selected and nothing is paid. *)
Lemma degenerate_final_otm :
  d_lt d_zero v = false -> final = cf0.
Proof.
  intros Hotm. unfold backward_down_to.
  apply (fold_left_invariant _ (fun cf => cf = cf0)); [done|].
  intros cf t Ht ->. apply in_rev, in_seq in Ht. unfold process_date.
  assert (Hnone : in_the_money_paths S K N t = []).
  { unfold in_the_money_paths. apply filter_none. intros i Hi%in_seq.
    unfold d_gt. by rewrite lattice_constant by lia. }
  unfold x_itm. by rewrite Hnone.
Qed.

Lemma degenerate_payoff_otm i :
  d_lt d_zero v = false -> (i < N)%nat ->
  (forall j, (j <= M)%nat -> t_get L final i j = d_zero) /\
  path_payoff L r dt M final i = None.
Proof.
  intros Hotm Hi. rewrite degenerate_final_otm by done.
  assert (Hz : forall j, (j <= M)%nat -> t_get L cf0 i j = d_zero).
  { intros j Hj. rewrite degenerate_cf0 by done. rewrite Hotm. by case_decide. }
  split; [done|]. unfold path_payoff, first_positive.
  rewrite find_seq_none_intro; [done|].
  intros j Hj. unfold d_gt. rewrite Hz by lia. done.
Qed.

(** The total when the discount factor leaves [K - S0] as it is. *)
Lemma degenerate_total :
  (forall j, (1 <= j <= M)%nat -> d_mul v (discount r dt (Z.of_nat j)) = v) ->
  total_payoff L r dt N M final =
    if d_lt d_zero v
    then fold_left (fun total _ => d_add total v) (seq 0 N) d_zero
    else d_zero.
Proof.
  intros Hdisc. unfold total_payoff.
  destruct (d_lt d_zero v) eqn:Hitm.
  - assert (Hfold : forall l a, (forall i, In i l -> (i < N)%nat) ->
              fold_left (add_payoff L r dt M final) l a =
              fold_left (fun total _ => d_add total v) l a).
    { induction l as [|i l IH]; intros a Hall; simpl; [done|].
      rewrite <- IH by (intros; apply Hall; by right). f_equal.
      unfold add_payoff.
      destruct (degenerate_payoff_itm i Hitm (Hall i ltac:(by left))) as (j & Hj & ->).
      by rewrite Hdisc. }
    apply Hfold. intros i Hi%in_seq. lia.
  - apply (fold_left_invariant _ (fun total => total = d_zero)); [done|].
    intros total i Hi%in_seq ->. unfold add_payoff.
    by destruct (degenerate_payoff_otm i Hitm ltac:(lia)) as [_ ->].
Qed.
End DegenerateProofs.

Section DegenerateLattice.
Context {D : Type} `{DoubleOps D}.

(** A lattice whose growth factors leave [S0] as it is stays at [S0]. *)
Lemma lattice_stays_at_S0 (S : nat -> nat -> D) (g : nat -> nat -> D) S0 N M :
  (forall i, (i < N)%nat ->
     S i 0%nat = S0 /\
     forall j, (1 <= j <= M)%nat -> S i j = d_mul (S i (j - 1)%nat) (g i j)) ->
  (forall i j, (i < N)%nat -> (1 <= j <= M)%nat -> d_mul S0 (g i j) = S0) ->
  forall i j, (i < N)%nat -> (j <= M)%nat -> S i j = S0.
Proof.
  intros Hrec Hg i j Hi. destruct (Hrec i Hi) as [H0' Hstep].
  induction j as [|j IH]; intros Hj; [done|].
  rewrite Hstep by lia. replace (Datatypes.S j - 1)%nat with j by lia.
  rewrite IH by lia. apply Hg; [done|lia].
Qed.
End DegenerateLattice.

Section DegenerateReal.
Existing Instance real_ops.
Context {rng : NormalStream R}.
Import ArenaModel.
Variable batch_size : nat.
Variable omp : OmpRuntime.
Local Open Scope R_scope.

Lemma growth_zero dt Z : growth 0 0 dt Z = 1.
Proof.
  unfold growth, drift_term, vol_term. simpl.
  replace ((0 - 1 / 2 * 0 * 0) * dt + 0 * R_sqrt.sqrt dt * Z) with 0 by lra.
  apply exp_0.
Qed.

Lemma discount_zero dt periods : discount 0 dt periods = 1.
Proof.
  unfold discount. simpl.
  replace (- 0 * IZR periods * dt) with 0 by lra. apply exp_0.
Qed.

(** The price of a table in which every path pays [K - S0] once, or nothing. *)
Lemma degenerate_price_real (L : Layout R) N M wf (laws : LayoutLaws L N (M + 1) wf)
    (S : nat -> nat -> R) S0 K dt :
  (1 <= N)%nat -> (1 <= M)%nat ->
  (forall i j, (i < N)%nat -> (j <= M)%nat -> S i j = S0) ->
  let final := backward_down_to L S K 0 dt N M 1
                 (terminal_payoffs L S K N M (t_zero L N (M + 1))) in
  (forall i, (i < N)%nat ->
     if Rltb 0 (K - S0) then pays_once L M 1 (K - S0) final i
     else forall j, (j <= M)%nat -> t_get L final i j = 0) /\
  Rsum (payoff_or_zero L 0 dt M final) N / INR N = Rmax 0 (K - S0).
Proof.
  intros HN HM HS. cbv zeta.
  assert (Hlt0 : d_lt d_zero d_zero = false) by (apply Rltb_false; simpl; lra).
  destruct (Rltb 0 (K - S0)) eqn:Hitm.
  - split.
    + intros i Hi.
      apply (degenerate_pays_once L N M wf laws S S0 K 0 dt HS HM 1%nat Hitm); [lia|done].
    + rewrite (Rsum_ext _ (fun _ => K - S0)).
      * rewrite Rsum_const. apply Rltb_true in Hitm.
        rewrite Rmax_right by lra. field. apply not_0_INR. lia.
      * intros i Hi. unfold payoff_or_zero.
        destruct (degenerate_payoff_itm L N M wf laws S S0 K 0 dt HS Hlt0 HM i Hitm Hi)
          as (j & Hj & ->).
        rewrite discount_zero. simpl. lra.
  - split.
    + intros i Hi j Hj.
      by apply (degenerate_payoff_otm L N M wf laws S S0 K 0 dt HS Hlt0 HM i Hitm Hi).
    + rewrite (Rsum_ext _ (fun _ => 0)).
      * rewrite Rsum_const. apply Rltb_false in Hitm.
        rewrite Rmax_left by lra. field. apply not_0_INR. lia.
      * intros i Hi. unfold payoff_or_zero.
        by destruct (degenerate_payoff_otm L N M wf laws S S0 K 0 dt HS Hlt0 HM i Hitm Hi)
          as [_ ->].
Qed.

End DegenerateReal.

(** ** The backward stage does not depend on the layout *)

Section Agreement.
Context {D : Type} `{DoubleOps D}.
Variables L1 L2 : Layout D.
Variables N M : nat.
Variable wf1 : table L1 -> Prop.
Variable wf2 : table L2 -> Prop.
Hypothesis laws1 : LayoutLaws L1 N (M + 1) wf1.
Hypothesis laws2 : LayoutLaws L2 N (M + 1) wf2.
Variables S1 S2 : nat -> nat -> D.
Hypothesis S_agree : forall i j, (i < N)%nat -> (j <= M)%nat -> S1 i j = S2 i j.
Variables K r dt : D.

Local Abbreviation agree :=
  (fun cf1 cf2 => wf1 cf1 /\ wf2 cf2 /\ tables_agree L1 L2 N (M + 1) cf1 cf2).

Lemma fold_left_rel {A1 A2 B} (R : A1 -> A2 -> Prop)
    (f1 : A1 -> B -> A1) (f2 : A2 -> B -> A2) l a1 a2 :
  R a1 a2 ->
  (forall a1 a2 b, In b l -> R a1 a2 -> R (f1 a1 b) (f2 a2 b)) ->
  R (fold_left f1 l a1) (fold_left f2 l a2).
Proof.
  revert a1 a2. induction l as [|b l IH]; intros a1 a2 Ha Hstep; simpl; [done|].
  apply IH.
  - apply Hstep; [by left|done].
  - intros a1' a2' b' Hin. apply Hstep. by right.
Qed.

Lemma find_ext_in {A} (p q : A -> bool) l :
  (forall a, In a l -> p a = q a) -> List.find p l = List.find q l.
Proof.
  induction l as [|a l IH]; intros Hpq; simpl; [done|].
  rewrite (Hpq a) by by left. destruct (q a); [done|].
  apply IH. intros a' Ha'. apply Hpq. by right.
Qed.

Lemma in_the_money_paths_agree t :
  (t <= M)%nat -> in_the_money_paths S1 K N t = in_the_money_paths S2 K N t.
Proof.
  intros Ht. unfold in_the_money_paths. apply List.filter_ext_in.
  intros i Hi. apply in_seq in Hi. by rewrite S_agree by lia.
Qed.

Lemma x_itm_agree t : (t <= M)%nat -> x_itm S1 K N t = x_itm S2 K N t.
Proof.
  intros Ht. unfold x_itm. rewrite in_the_money_paths_agree by done.
  apply List.map_ext_in. intros i Hi.
  apply in_the_money_paths_spec in Hi as [Hi _]. by apply S_agree.
Qed.

Lemma first_positive_agree cf1 cf2 i from :
  tables_agree L1 L2 N (M + 1) cf1 cf2 -> (i < N)%nat ->
  first_positive L1 M cf1 i from = first_positive L2 M cf2 i from.
Proof.
  intros Hag Hi. unfold first_positive. apply find_ext_in.
  intros j Hj. apply in_seq in Hj. by rewrite Hag by lia.
Qed.

Lemma future_cf_agree cf1 cf2 t i :
  tables_agree L1 L2 N (M + 1) cf1 cf2 -> (i < N)%nat ->
  future_cf L1 r dt M cf1 t i = future_cf L2 r dt M cf2 t i.
Proof.
  intros Hag Hi. unfold future_cf.
  rewrite (first_positive_agree cf1 cf2) by done.
  destruct (first_positive L2 M cf2 i (t + 1)) as [j|] eqn:Ej; [|done].
  apply find_seq_first in Ej as (Hj & _). by rewrite Hag by lia.
Qed.

Lemma y_itm_agree cf1 cf2 t :
  tables_agree L1 L2 N (M + 1) cf1 cf2 -> (t <= M)%nat ->
  y_itm L1 S1 K r dt N M cf1 t = y_itm L2 S2 K r dt N M cf2 t.
Proof.
  intros Hag Ht. unfold y_itm. rewrite in_the_money_paths_agree by done.
  apply List.map_ext_in. intros i Hi.
  apply in_the_money_paths_spec in Hi as [Hi _]. by apply future_cf_agree.
Qed.

Lemma terminal_payoffs_agree cf1 cf2 :
  agree cf1 cf2 ->
  agree (terminal_payoffs L1 S1 K N M cf1) (terminal_payoffs L2 S2 K N M cf2).
Proof.
  intros (Hw1 & Hw2 & Hag).
  split; [by apply (terminal_payoffs_wf L1 N M wf1 laws1)|].
  split; [by apply (terminal_payoffs_wf L2 N M wf2 laws2)|].
  intros i j Hi Hj.
  rewrite (terminal_payoffs_get L1 N M wf1 laws1) by done.
  rewrite (terminal_payoffs_get L2 N M wf2 laws2) by done.
  case_decide; [by rewrite S_agree by lia|by apply Hag].
Qed.

Lemma intrinsic_value_agree t i :
  (i < N)%nat -> (t <= M)%nat -> intrinsic_value S1 K t i = intrinsic_value S2 K t i.
Proof. intros Hi Ht. unfold intrinsic_value. by rewrite S_agree. Qed.

Lemma exercise_update_agree cf1 cf2 t i :
  (i < N)%nat -> (t <= M)%nat -> agree cf1 cf2 ->
  agree (exercise_update L1 S1 K M cf1 t i) (exercise_update L2 S2 K M cf2 t i).
Proof.
  intros Hi Ht (Hw1 & Hw2 & Hag).
  split; [by apply (exercise_update_wf L1 N M wf1 laws1)|].
  split; [by apply (exercise_update_wf L2 N M wf2 laws2)|].
  intros i' j' Hi' Hj'.
  rewrite (exercise_update_get L1 N M wf1 laws1) by done.
  rewrite (exercise_update_get L2 N M wf2 laws2) by done.
  rewrite intrinsic_value_agree by done.
  repeat case_decide; try done; by apply Hag.
Qed.

Lemma process_date_agree cf1 cf2 t :
  (t <= M)%nat -> agree cf1 cf2 ->
  agree (process_date L1 S1 K r dt N M cf1 t) (process_date L2 S2 K r dt N M cf2 t).
Proof.
  intros Ht Hag. unfold process_date.
  rewrite <- (x_itm_agree t) by done.
  rewrite <- (y_itm_agree cf1 cf2 t) by (done || apply Hag).
  rewrite <- (in_the_money_paths_agree t) by done.
  destruct (x_itm S1 K N t) as [|x0 xs] eqn:Ex; [done|]. rewrite <- Ex.
  rewrite zip_x_itm.
  apply (fold_left_rel (fun cf1 cf2 => agree cf1 cf2)); [done|].
  intros a1 a2 p Hp Ha. apply in_map_iff in Hp as (i & <- & Hin).
  apply in_the_money_paths_spec in Hin as [Hi _].
  unfold exercise_step, exercises. cbn [fst snd].
  rewrite (intrinsic_value_agree t i) by done.
  destruct (d_gt _ _); [by apply exercise_update_agree|done].
Qed.

Lemma backward_down_to_agree cf1 cf2 t :
  agree cf1 cf2 ->
  agree (backward_down_to L1 S1 K r dt N M t cf1)
        (backward_down_to L2 S2 K r dt N M t cf2).
Proof.
  intros Hag. unfold backward_down_to.
  apply (fold_left_rel (fun cf1 cf2 => agree cf1 cf2)); [done|].
  intros a1 a2 t' Ht' Ha. apply process_date_agree; [|done].
  unfold dates_down_to in Ht'. apply in_rev, in_seq in Ht'. lia.
Qed.

Lemma zero_tables_agree : agree (t_zero L1 N (M + 1)) (t_zero L2 N (M + 1)).
Proof.
  split; [apply (wf_zero _ _ _ _ laws1)|]. split; [apply (wf_zero _ _ _ _ laws2)|].
  intros i j Hi Hj.
  by rewrite (get_zero _ _ _ _ laws1), (get_zero _ _ _ _ laws2).
Qed.

Lemma path_payoff_agree cf1 cf2 i :
  tables_agree L1 L2 N (M + 1) cf1 cf2 -> (i < N)%nat ->
  path_payoff L1 r dt M cf1 i = path_payoff L2 r dt M cf2 i.
Proof.
  intros Hag Hi. unfold path_payoff.
  rewrite (first_positive_agree cf1 cf2) by done.
  destruct (first_positive L2 M cf2 i 1) as [j|] eqn:Ej; [|done].
  apply find_seq_first in Ej as (Hj & _). by rewrite Hag by lia.
Qed.

Lemma total_payoff_agree cf1 cf2 :
  tables_agree L1 L2 N (M + 1) cf1 cf2 ->
  total_payoff L1 r dt N M cf1 = total_payoff L2 r dt N M cf2.
Proof.
  intros Hag. unfold total_payoff.
  apply (fold_left_rel (fun a1 a2 : D => a1 = a2)); [done|].
  intros a1 a2 i Hi ->. apply in_seq in Hi.
  unfold add_payoff. by rewrite (path_payoff_agree cf1 cf2) by (done || lia).
Qed.
End Agreement.

(** ** Variants that compute the same thing *)

Section LatticeAgreement.
Context {D : Type} `{DoubleOps D} `{NormalStream D}.

(** Two forward stages that feed every entry the same deviate build
    the same lattice. *)
Lemma backend_lattices_agree (bs1 bs2 : nat) (omp1 omp2 : OmpRuntime)
    (b1 b2 : Backend) S0 r sigma dt N M cols seed :
  cols = (M + 1)%nat -> (0 < bs1)%nat -> (0 < bs2)%nat ->
  (b1 = CppSimd \/ b1 = CppUltimate -> N = (N / bs1 * bs1)%nat) ->
  (b2 = CppSimd \/ b2 = CppUltimate -> N = (N / bs2 * bs2)%nat) ->
  (forall loop i, (omp_thread_num omp1 loop i < omp_max_threads omp1)%nat) ->
  (forall loop i, (omp_thread_num omp2 loop i < omp_max_threads omp2)%nat) ->
  (forall i j, (i < N)%nat -> (1 <= j <= M)%nat ->
     let s1 := draw_site bs1 omp1 N M b1 i j in
     let s2 := draw_site bs2 omp2 N M b2 i j in
     nth_draw (rng_seed (stream_seed b1 seed s1.1)) s1.2 =
     nth_draw (rng_seed (stream_seed b2 seed s2.1)) s2.2) ->
  tables_agree (backend_layout b1 cols) (backend_layout b2 cols) N cols
    (backend_lattice bs1 omp1 b1 S0 r sigma dt N M cols seed)
    (backend_lattice bs2 omp2 b2 S0 r sigma dt N M cols seed).
Proof.
  intros Hcols Hbs1 Hbs2 Hl1 Hl2 Ht1 Ht2 Hdraw.
  destruct (backend_lattice_spec bs1 omp1 b1 S0 r sigma dt N M cols seed
              Hcols Hbs1 Hl1 Ht1) as [_ Hs1].
  destruct (backend_lattice_spec bs2 omp2 b2 S0 r sigma dt N M cols seed
              Hcols Hbs2 Hl2 Ht2) as [_ Hs2].
  intros i j Hi Hj.
  destruct (Hs1 i Hi) as [H10 H1j]. destruct (Hs2 i Hi) as [H20 H2j].
  assert (Hj' : (j <= M)%nat) by lia. clear Hj.
  induction j as [|j IH]; [by rewrite H10, H20|].
  rewrite H1j, H2j by lia. cbv zeta.
  replace (Datatypes.S j - 1)%nat with j by lia.
  rewrite IH by lia. f_equal. f_equal. apply (Hdraw i (Datatypes.S j)); [done|lia].
Qed.

Lemma thread_share_all (thread_of : nat -> nat) w n :
  (forall i, thread_of i = w) -> thread_share thread_of w n = n.
Proof.
  intros Hall. induction n as [|n IH]; [done|].
  rewrite thread_share_succ, IH, Hall, Nat.eqb_refl. lia.
Qed.

Lemma steps_share_all bs omp N j :
  (forall loop i, omp_thread_num omp loop i = 0%nat) ->
  steps_share bs omp N 0 j = ((j - 1) * (N / bs))%nat.
Proof.
  intros Hall. unfold steps_share.
  induction (j - 1)%nat as [|k IH]; [done|].
  rewrite seq_S, fold_left_app. simpl. rewrite IH.
  rewrite thread_share_all; [lia|]. intros i. apply Hall.
Qed.
End LatticeAgreement.

Section RunAgreement.
Context {D : Type} `{DoubleOps D} `{NormalStream D}.

(** Cash flows and sequential totals of two backends whose lattices
    agree. *)
Lemma cash_flow_tables_agree (b1 b2 : Backend) N M cols
    (S1 : table (backend_layout b1 cols)) (S2 : table (backend_layout b2 cols))
    K r dt :
  cols = (M + 1)%nat ->
  tables_agree (backend_layout b1 cols) (backend_layout b2 cols) N cols S1 S2 ->
  let cf1 := cash_flow_table (backend_layout b1 cols) (backend_layout b1 cols)
               S1 K r dt N M cols in
  let cf2 := cash_flow_table (backend_layout b2 cols) (backend_layout b2 cols)
               S2 K r dt N M cols in
  tables_agree (backend_layout b1 cols) (backend_layout b2 cols) N cols cf1 cf2 /\
  total_payoff (backend_layout b1 cols) r dt N M cf1 =
  total_payoff (backend_layout b2 cols) r dt N M cf2.
Proof.
  intros -> HS. cbv zeta.
  pose proof (backend_laws b1 N (M + 1)) as laws1.
  pose proof (backend_laws b2 N (M + 1)) as laws2.
  assert (HS' : forall i j, (i < N)%nat -> (j <= M)%nat ->
            t_get (backend_layout b1 (M + 1)) S1 i j =
            t_get (backend_layout b2 (M + 1)) S2 i j).
  { intros i j Hi Hj. apply HS; [done|lia]. }
  assert (Hag : tables_agree (backend_layout b1 (M + 1)) (backend_layout b2 (M + 1))
                  N (M + 1)
                  (cash_flow_table (backend_layout b1 (M + 1)) (backend_layout b1 (M + 1))
                     S1 K r dt N M (M + 1))
                  (cash_flow_table (backend_layout b2 (M + 1)) (backend_layout b2 (M + 1))
                     S2 K r dt N M (M + 1))).
  { unfold cash_flow_table, backward_induction.
    apply (backward_down_to_agree _ _ N M _ _ laws1 laws2 _ _ HS').
    apply (terminal_payoffs_agree _ _ N M _ _ laws1 laws2 _ _ HS').
    apply (zero_tables_agree _ _ N M _ _ laws1 laws2). }
  split; [done|]. by apply total_payoff_agree.
Qed.

(** The reduction of a runtime with one thread: the one partial sum,
    added to the initial 0.0. *)
Lemma total_payoff_omp_single (L : Layout D) r dt N M (thread_of : nat -> nat) cf :
  (forall i, thread_of i = 0%nat) ->
  total_payoff_omp L r dt N M [0%nat] thread_of cf =
  d_add d_zero (total_payoff L r dt N M cf).
Proof.
  intros Hall. unfold total_payoff_omp, partial_payoff, total_payoff. simpl.
  f_equal. f_equal. rewrite <- (List.filter_true (seq 0 N)) at 2.
  apply List.filter_ext. intros i. by rewrite Hall.
Qed.
End RunAgreement.

Section VariantEquivalence.
Context {D : Type} `{DoubleOps D} `{NormalStream D}.
Import ArenaModel ArenaMonad.

Lemma single_threaded_bound omp :
  single_threaded omp ->
  forall loop i, (omp_thread_num omp loop i < omp_max_threads omp)%nat.
Proof. intros [-> Hall] loop i. rewrite Hall. lia. Qed.

Lemma lsm_cpp_run_ok S0 K T r sigma num_paths num_steps seed :
  0 <= num_paths <= INT_MAX -> 0 <= num_steps < INT_MAX ->
  exists run_c, lsm_cpp_run S0 K T r sigma num_paths num_steps seed = Ok run_c.
Proof.
  intros HN HM. unfold lsm_cpp_run.
  assert (Hint : int_counts num_paths num_steps = true).
  { apply int_counts_spec. unfold INT_MIN, INT_MAX in *. lia. }
  rewrite Hint, (to_int_succ num_steps HM). simpl.
  destruct (_ || _) eqn:E; [lia|]. destruct (_ && _) eqn:E2; [lia|]. by eexists.
Qed.

(** Without a path the arena variant returns whatever [num_steps] is,
    also at [INT_MAX], where the scalar variant throws: the comparisons
    below leave this one configuration out. *)
Lemma arena_scalar_differ_at_INT_MAX arena S0 K T r sigma seed :
  is_ok (lsm_arena_run arena S0 K T r sigma 0 INT_MAX seed).1 = true /\
  lsm_cpp_run S0 K T r sigma 0 INT_MAX seed = Throw length_error.
Proof. split; lazy; reflexivity. Qed.

(** Property X3. The arena variant, whenever it returns, has computed
    entry for entry the lattice and the cash-flow table of the scalar
    variant on the same arguments, and returns the same double; the
    one exception is a call without a path at [num_steps = INT_MAX]. *)
Theorem arena_matches_scalar arena S0 K T r sigma num_paths num_steps seed run a' :
  0 <= num_paths -> 0 <= num_steps -> (num_paths = 0 -> num_steps < INT_MAX) ->
  lsm_arena_run arena S0 K T r sigma num_paths num_steps seed = (Ok run, a') ->
  exists run_c,
    lsm_cpp_run S0 K T r sigma num_paths num_steps seed = Ok run_c /\
    let N := Z.to_nat num_paths in
    let cols := Z.to_nat (num_steps + 1) in
    tables_agree (flat cols) path_major N cols (run_S run) (run_S run_c) /\
    tables_agree (flat cols) path_major N cols (run_CF run) (run_CF run_c) /\
    run_total run = run_total run_c /\
    run_price run = run_price run_c /\
    price_american_put_lsm_cpp S0 K T r sigma num_paths num_steps seed
      = Ok (run_price run).
Proof.
  intros HN HM Hcorner Hrun.
  destruct (lsm_run_ok_int 1%nat one_thread CppArena arena S0 K T r sigma num_paths
              num_steps seed run a' HM Hrun) as (HNi & Hsteps & _).
  assert (HM' : 0 <= num_steps < INT_MAX).
  { split; [done|]. destruct (decide (num_paths = 0)) as [Hz|Hz]; [by apply Hcorner|].
    apply Hsteps. left. lia. }
  destruct (lsm_cpp_run_ok S0 K T r sigma num_paths num_steps seed ltac:(lia) HM')
    as [run_c Hc].
  exists run_c. split; [done|]. cbv zeta.
  destruct (lsm_run_ok_gen 1%nat one_thread CppArena arena S0 K T r sigma num_paths
              num_steps seed run a' HN HM' Hrun) as (HS & HCF & Htot & Hprice).
  destruct (lsm_run_ok_gen 1%nat one_thread Cpp arena S0 K T r sigma num_paths
              num_steps seed run_c arena HN HM' ltac:(by simpl; rewrite Hc))
    as (HSc & HCFc & Htotc & Hpricec).
  pose proof (backend_lattices_agree 1 1 one_thread one_thread CppArena Cpp
                S0 r sigma (d_div T (d_of_int num_steps)) (Z.to_nat num_paths)
                (Z.to_nat num_steps) (Z.to_nat (num_steps + 1)) seed
                (cols_succ num_steps HM) ltac:(lia) ltac:(lia)
                ltac:(by intros [|]) ltac:(by intros [|])
                ltac:(intros; simpl; lia) ltac:(intros; simpl; lia)
                ltac:(done)) as Hlat.
  rewrite <- HS, <- HSc in Hlat.
  destruct (cash_flow_tables_agree CppArena Cpp (Z.to_nat num_paths)
              (Z.to_nat num_steps) (Z.to_nat (num_steps + 1))
              _ _ K r (d_div T (d_of_int num_steps))
              (cols_succ num_steps HM) Hlat) as [Hcf Htotal].
  rewrite <- HCF, <- HCFc in Hcf, Htotal.
  assert (Hteq : run_total run = run_total run_c).
  { etrans; [exact Htot|]. etrans; [|symmetry; exact Htotc]. exact Htotal. }
  assert (Hpeq : run_price run = run_price run_c).
  { etrans; [exact Hprice|]. etrans; [|symmetry; exact Hpricec].
    unfold average. f_equal. exact Hteq. }
  split; [exact Hlat|]. split; [exact Hcf|]. split; [done|]. split; [done|].
  unfold price_american_put_lsm_cpp. rewrite Hc. simpl. f_equal. symmetry. exact Hpeq.
Qed.

(** Property X4. With one OpenMP thread the mp variant builds the
    lattice and the cash-flow table of the scalar variant; its total
    is the scalar total added to the reduction's initial 0.0; the one
    exception is a call without a path at [num_steps = INT_MAX]. *)
Theorem mp_single_thread_matches_scalar omp arena S0 K T r sigma
    num_paths num_steps seed run a' :
  single_threaded omp ->
  0 <= num_paths -> 0 <= num_steps -> (num_paths = 0 -> num_steps < INT_MAX) ->
  lsm_mp_run omp arena S0 K T r sigma num_paths num_steps seed = (Ok run, a') ->
  exists run_c,
    lsm_cpp_run S0 K T r sigma num_paths num_steps seed = Ok run_c /\
    let N := Z.to_nat num_paths in
    let cols := Z.to_nat (num_steps + 1) in
    tables_agree (flat cols) path_major N cols (run_S run) (run_S run_c) /\
    tables_agree (flat cols) path_major N cols (run_CF run) (run_CF run_c) /\
    run_total run = d_add d_zero (run_total run_c) /\
    run_price run = d_div (d_add d_zero (run_total run_c)) (d_of_int num_paths).
Proof.
  intros Hone HN HM Hcorner Hrun.
  pose proof (single_threaded_bound omp Hone) as Hbound.
  destruct (lsm_run_ok_int 1%nat omp CppMp arena S0 K T r sigma num_paths
              num_steps seed run a' HM Hrun) as (HNi & Hsteps & _).
  assert (HM' : 0 <= num_steps < INT_MAX).
  { split; [done|]. destruct (decide (num_paths = 0)) as [Hz|Hz]; [by apply Hcorner|].
    apply Hsteps. left. lia. }
  destruct (lsm_cpp_run_ok S0 K T r sigma num_paths num_steps seed ltac:(lia) HM')
    as [run_c Hc].
  exists run_c. split; [done|]. cbv zeta.
  destruct (lsm_run_ok_gen 1%nat omp CppMp arena S0 K T r sigma num_paths
              num_steps seed run a' HN HM' Hrun) as (HS & HCF & Htot & Hprice).
  destruct (lsm_run_ok_gen 1%nat omp Cpp arena S0 K T r sigma num_paths
              num_steps seed run_c arena HN HM' ltac:(by simpl; rewrite Hc))
    as (HSc & HCFc & Htotc & Hpricec).
  destruct Hone as [Hmax Hall].
  assert (Hdraw : forall i j, (i < Z.to_nat num_paths)%nat ->
            (1 <= j <= Z.to_nat num_steps)%nat ->
            let s1 := draw_site 1 omp (Z.to_nat num_paths) (Z.to_nat num_steps) CppMp i j in
            let s2 := draw_site 1 omp (Z.to_nat num_paths) (Z.to_nat num_steps) Cpp i j in
            nth_draw (rng_seed (stream_seed CppMp seed s1.1)) s1.2 =
            nth_draw (rng_seed (stream_seed Cpp seed s2.1)) s2.2).
  { intros i j Hi Hj. simpl. rewrite Hall.
    rewrite thread_share_all by (intros; apply Hall).
    rewrite Z.add_0_r. f_equal. lia. }
  pose proof (backend_lattices_agree 1 1 omp omp CppMp Cpp
                S0 r sigma (d_div T (d_of_int num_steps)) (Z.to_nat num_paths)
                (Z.to_nat num_steps) (Z.to_nat (num_steps + 1)) seed
                (cols_succ num_steps HM) ltac:(lia) ltac:(lia)
                ltac:(by intros [|]) ltac:(by intros [|])
                Hbound Hbound Hdraw) as Hlat.
  rewrite <- HS, <- HSc in Hlat.
  destruct (cash_flow_tables_agree CppMp Cpp (Z.to_nat num_paths)
              (Z.to_nat num_steps) (Z.to_nat (num_steps + 1))
              _ _ K r (d_div T (d_of_int num_steps))
              (cols_succ num_steps HM) Hlat) as [Hcf Htotal].
  rewrite <- HCF, <- HCFc in Hcf, Htotal.
  assert (Hteq : run_total run = d_add d_zero (run_total run_c)).
  { etrans; [exact Htot|]. simpl. rewrite (finish_order_single omp Hmax).
    rewrite total_payoff_omp_single by (intros; apply Hall).
    f_equal. etrans; [exact Htotal|]. symmetry. exact Htotc. }
  split; [exact Hlat|]. split; [exact Hcf|]. split; [done|].
  etrans; [exact Hprice|]. unfold average. rewrite Z2Nat.id by lia.
  f_equal. exact Hteq.
Qed.

(** Property X5. With one OpenMP thread the ultimate variant builds the lattice and
    the cash-flow table of the SIMD variant; its total is the SIMD total
    added to the reduction's initial 0.0. *)
Theorem ultimate_single_thread_matches_simd batch_size omp arena S0 K T r sigma
    num_paths num_steps seed run a' :
  single_threaded omp -> (0 < batch_size)%nat ->
  0 <= num_paths <= INT_MAX -> 0 <= num_steps ->
  lsm_ultimate_run batch_size omp arena S0 K T r sigma num_paths num_steps seed
    = (Ok run, a') ->
  exists run_s,
    lsm_simd_run batch_size S0 K T r sigma num_paths num_steps seed = Ok run_s /\
    let N := Z.to_nat num_paths in
    let cols := Z.to_nat (num_steps + 1) in
    tables_agree time_major time_major N cols (run_S run) (run_S run_s) /\
    tables_agree time_major time_major N cols (run_CF run) (run_CF run_s) /\
    run_total run = d_add d_zero (run_total run_s) /\
    run_price run = d_div (d_add d_zero (run_total run_s)) (d_of_int num_paths).
Proof.
  intros Hone HB HN HM Hrun.
  pose proof (single_threaded_bound omp Hone) as Hbound.
  destruct (lsm_run_ok_int batch_size omp CppUltimate arena S0 K T r sigma num_paths
              num_steps seed run a' HM Hrun) as (_ & Hsteps & _).
  assert (HM' : 0 <= num_steps < INT_MAX).
  { split; [done|]. apply Hsteps. by right; right; right. }
  assert (Hs : exists run_s,
             lsm_simd_run batch_size S0 K T r sigma num_paths num_steps seed = Ok run_s).
  { unfold lsm_ultimate_run in Hrun. unfold lsm_simd_run.
    destruct (negb (_ =? 0)) eqn:Elane; [done|].
    assert (Hint : int_counts num_paths num_steps = true).
    { apply int_counts_spec. unfold INT_MIN, INT_MAX in *. lia. }
    rewrite Hint, (to_int_succ num_steps HM'). simpl.
    destruct (_ || _) eqn:E; [lia|]. destruct (num_steps + 1 =? 0) eqn:E2; [lia|]. by eexists. }
  destruct Hs as [run_s Hs]. exists run_s. split; [done|]. cbv zeta.
  destruct (lsm_run_ok_gen batch_size omp CppUltimate arena S0 K T r sigma num_paths
              num_steps seed run a' ltac:(lia) HM' Hrun) as (HS & HCF & Htot & Hprice).
  destruct (lsm_run_ok_gen batch_size omp CppSimd arena S0 K T r sigma num_paths
              num_steps seed run_s arena ltac:(lia) HM' ltac:(by simpl; rewrite Hs))
    as (HSs & HCFs & Htots & Hprices).
  pose proof (lsm_run_ok_batches batch_size omp CppUltimate arena S0 K T r sigma
                num_paths num_steps seed run a' HN HB ltac:(by right) Hrun) as Hdiv.
  destruct Hone as [Hmax Hall].
  assert (Hdraw : forall i j, (i < Z.to_nat num_paths)%nat ->
            (1 <= j <= Z.to_nat num_steps)%nat ->
            let s1 := draw_site batch_size omp (Z.to_nat num_paths) (Z.to_nat num_steps)
                        CppUltimate i j in
            let s2 := draw_site batch_size omp (Z.to_nat num_paths) (Z.to_nat num_steps)
                        CppSimd i j in
            nth_draw (rng_seed (stream_seed CppUltimate seed s1.1)) s1.2 =
            nth_draw (rng_seed (stream_seed CppSimd seed s2.1)) s2.2).
  { intros i j Hi Hj. simpl. unfold batch_thread. rewrite Hall.
    rewrite steps_share_all by done.
    rewrite thread_share_all by (intros; apply Hall).
    rewrite Z.add_0_r. f_equal.
    set (N := Z.to_nat num_paths) in *.
    pose proof (Nat.div_mod i batch_size ltac:(lia)) as Hi'.
    rewrite Nat.mul_add_distr_l.
    replace (batch_size * ((j - 1) * (N / batch_size)))%nat
      with ((j - 1) * (N / batch_size * batch_size))%nat by lia.
    rewrite <- Hdiv. lia. }
  pose proof (backend_lattices_agree batch_size batch_size omp omp CppUltimate CppSimd
                S0 r sigma (d_div T (d_of_int num_steps)) (Z.to_nat num_paths)
                (Z.to_nat num_steps) (Z.to_nat (num_steps + 1)) seed
                (cols_succ num_steps HM) HB HB
                ltac:(intros _; exact Hdiv) ltac:(intros _; exact Hdiv)
                Hbound Hbound Hdraw) as Hlat.
  rewrite <- HS, <- HSs in Hlat.
  destruct (cash_flow_tables_agree CppUltimate CppSimd (Z.to_nat num_paths)
              (Z.to_nat num_steps) (Z.to_nat (num_steps + 1))
              _ _ K r (d_div T (d_of_int num_steps))
              (cols_succ num_steps HM) Hlat) as [Hcf Htotal].
  rewrite <- HCF, <- HCFs in Hcf, Htotal.
  assert (Hteq : run_total run = d_add d_zero (run_total run_s)).
  { etrans; [exact Htot|]. simpl. rewrite (finish_order_single omp Hmax).
    rewrite total_payoff_omp_single by (intros; apply Hall).
    f_equal. etrans; [exact Htotal|]. symmetry. exact Htots. }
  split; [exact Hlat|]. split; [exact Hcf|]. split; [done|].
  etrans; [exact Hprice|]. unfold average. rewrite Z2Nat.id by lia.
  f_equal. exact Hteq.
Qed.
End VariantEquivalence.

(** ** What the cash-flow table holds, and the edge configurations *)

Section IntrinsicProofs.
Context {D : Type} `{DoubleOps D}.
Variable L : Layout D.
Variables N M : nat.
Variable wf : table L -> Prop.
Hypothesis laws : LayoutLaws L N (M + 1) wf.
Variable S : nat -> nat -> D.
Variables K r dt : D.

Lemma terminal_cf_intrinsic :
  cf_intrinsic L S K N M (terminal_payoffs L S K N M (t_zero L N (M + 1))).
Proof.
  intros i j Hi Hj.
  rewrite (terminal_payoffs_get L N M wf laws)
    by (done || lia || apply (wf_zero _ _ _ _ laws)).
  case_decide as Hd.
  - subst j. unfold d_max, d_gt.
    destruct (d_lt d_zero (d_sub K (S i M))) eqn:E; [by right|by left].
  - left. apply (get_zero _ _ _ _ laws); [done|lia].
Qed.

Lemma exercise_update_cf_intrinsic cf t i :
  wf cf -> (i < N)%nat -> (t <= M)%nat ->
  d_gt (d_sub K (S i t)) d_zero = true ->
  cf_intrinsic L S K N M cf ->
  cf_intrinsic L S K N M (exercise_update L S K M cf t i).
Proof.
  intros Hwf Hi Ht Hitm Hcf i' j' Hi' Hj'.
  rewrite (exercise_update_get L N M wf laws) by (done || lia).
  repeat case_decide; subst; try (by left); try (by apply Hcf).
  right. unfold intrinsic_value, d_max. unfold d_gt in Hitm. by rewrite Hitm.
Qed.

Lemma backward_down_to_cf_intrinsic t cf :
  wf cf -> cf_intrinsic L S K N M cf ->
  cf_intrinsic L S K N M (backward_down_to L S K r dt N M t cf).
Proof.
  intros Hwf Hcf.
  enough (Hboth : wf (backward_down_to L S K r dt N M t cf) /\
                  cf_intrinsic L S K N M (backward_down_to L S K r dt N M t cf))
    by apply Hboth.
  unfold backward_down_to.
  apply (fold_left_invariant _ (fun cf => wf cf /\ cf_intrinsic L S K N M cf));
    [done|].
  intros cf' t' Ht' [Hwf' Hcf'].
  unfold dates_down_to in Ht'. apply in_rev, in_seq in Ht'.
  apply (process_date_invariant L N M S K r dt
           (fun cf => wf cf /\ cf_intrinsic L S K N M cf)); [done|].
  intros cf'' i Hi Hitm [Hwf'' Hcf''].
  split; [by apply (exercise_update_wf L N M wf laws)|].
  apply exercise_update_cf_intrinsic; (done || lia).
Qed.

(** With no date after 0 the pricing loop finds nothing to add. *)
Lemma total_payoff_no_dates (cf : table L) n : total_payoff L r dt n 0 cf = d_zero.
Proof.
  unfold total_payoff.
  apply (fold_left_invariant _ (fun total => total = d_zero)); [done|].
  intros total i _ ->. done.
Qed.
End IntrinsicProofs.

Section EdgeConfigurations.
Context {D : Type} `{DoubleOps D} `{NormalStream D}.
Import ArenaModel ArenaMonad.
Variable batch_size : nat.
Variable omp : OmpRuntime.

(** Property X1. In the table a completed call leaves, time 0 holds no cash flow and
    every other entry is zero or exactly [K - S(i, j)] of its own path
    and date, which is then positive: a path is only ever paid its
    exercise value, at a date where it is in the money. *)
Theorem cash_flows_are_exercise_values (b : Backend) arena S0 K T r sigma
    num_paths num_steps seed run a' :
  1 <= num_paths -> 1 <= num_steps ->
  lsm_run batch_size omp b arena S0 K T r sigma num_paths num_steps seed
    = (Ok run, a') ->
  let N := Z.to_nat num_paths in
  let M := Z.to_nat num_steps in
  let L := backend_layout b (Z.to_nat (num_steps + 1)) in
  let S := t_get L (run_S run) in
  let CF := t_get L (run_CF run) in
  forall i, (i < N)%nat ->
    CF i 0%nat = d_zero /\
    forall j, (1 <= j <= M)%nat ->
      CF i j = d_zero \/
      (CF i j = d_sub K (S i j) /\ d_gt (d_sub K (S i j)) d_zero = true).
Proof.
  intros HN HM Hrun.
  destruct (lsm_run_ok batch_size omp b arena S0 K T r sigma num_paths num_steps
              seed run a' ltac:(lia) ltac:(lia) Hrun) as (_ & HCF & _).
  cbv zeta. rewrite HCF. unfold cash_flow_table, backward_induction.
  generalize (run_S run). clear HCF Hrun run. unfold backend_table.
  rewrite (cols_succ num_steps) by lia.
  set (N := Z.to_nat num_paths). set (M := Z.to_nat num_steps).
  assert (HM' : (1 <= M)%nat) by lia.
  intros Slat i Hi.
  pose proof (backend_laws b N (M + 1)) as laws.
  split.
  - pose proof (backward_down_to_cf_inv _ N M _ laws (t_get _ Slat) K r
                  (d_div T (d_of_int num_steps)) 1%nat _
                  (cf0_wf _ N M _ laws (t_get _ Slat) K) HM'
                  (cf0_cf_inv _ N M _ laws (t_get _ Slat) K)) as Hinv.
    destruct (Hinv i Hi) as [Hzero _]. apply Hzero. lia.
  - intros j Hj.
    apply (backward_down_to_cf_intrinsic _ N M _ laws);
      [apply (cf0_wf _ N M _ laws)|apply (terminal_cf_intrinsic _ N M _ laws)|done|lia].
Qed.

(** Property X6. A configuration without paths or without time steps is not
    rejected: the scalar, arena and SIMD variants add nothing to
    [total_payoff] and return [0.0 / num_paths]. *)
Theorem empty_configuration_price (b : Backend) arena S0 K T r sigma
    num_paths num_steps seed run a' :
  b = Cpp \/ b = CppArena \/ b = CppSimd ->
  0 <= num_paths -> 0 <= num_steps ->
  num_paths = 0 \/ num_steps = 0 ->
  lsm_run batch_size omp b arena S0 K T r sigma num_paths num_steps seed
    = (Ok run, a') ->
  run_total run = d_zero /\
  run_price run = d_div d_zero (d_of_int num_paths).
Proof.
  intros Hb HN HM Hempty Hrun.
  assert (Hkey : exists (L : Layout D) (cf : table L),
            run_total run =
              total_payoff L r (d_div T (d_of_int num_steps))
                (Z.to_nat num_paths) (Z.to_nat num_steps) cf /\
            run_price run = average (Z.to_nat num_paths) (run_total run)).
  { destruct Hb as [->|[->| ->]]; simpl in Hrun.
    - unfold lsm_cpp_run in Hrun.
      destruct (negb _); [done|]. destruct (_ || _); [done|]. destruct (_ && _); [done|].
      injection Hrun as <- _. simpl. by eexists _, _.
    - unfold lsm_arena_run in Hrun. cbv zeta in Hrun.
      destruct (negb _); [done|].
      repeat (apply bind_ok_inv in Hrun as (? & ? & _ & Hrun)).
      destruct (negb _); [done|]. apply ret_ok_inv in Hrun as [<- _].
      simpl. by eexists (flat _), _.
    - unfold lsm_simd_run in Hrun.
      destruct (negb _); [done|]. destruct (negb _); [done|].
      destruct (_ || _); [done|]. destruct (_ =? 0); [done|].
      injection Hrun as <- _. simpl. by eexists _, _. }
  destruct Hkey as (L & cf & Htot & Hprice).
  assert (Hzero : run_total run = d_zero).
  { rewrite Htot. destruct Hempty as [-> | ->]; [reflexivity|].
    apply total_payoff_no_dates. }
  split; [done|]. rewrite Hprice, Hzero. unfold average. by rewrite Z2Nat.id.
Qed.

(** Property X7. A negative path count is not a declared configuration
    error.  With [num_steps] in [0, INT_MAX): the scalar variant stops
    at the constructor of a vector sized by it, with
    [std::length_error]; so do the SIMD and ultimate variants once
    their lane-width test has passed; so do the arena and mp variants
    when the size [num_paths * (num_steps + 1)] of their table still
    fits an [int].  When that size wraps around to a positive count
    the arena and mp variants ask the arena for that many doubles,
    and end with [std::bad_alloc] if it is smaller. *)
Theorem negative_path_count_throws (b : Backend) arena S0 K T r sigma
    num_paths num_steps seed :
  INT_MIN <= num_paths < 0 -> 0 <= num_steps < INT_MAX ->
  let result :=
    (price batch_size omp b arena S0 K T r sigma num_paths num_steps seed).1 in
  let cells := to_int (num_paths * (num_steps + 1)) in
  ((b = CppArena \/ b = CppMp -> INT_MIN <= num_paths * (num_steps + 1)) ->
   result =
   match b with
   | CppSimd | CppUltimate =>
       if to_size_t num_paths mod Z.of_nat batch_size =? 0
       then Throw length_error else Throw runtime_error
   | _ => Throw length_error
   end) /\
  (b = CppArena \/ b = CppMp -> 0 < cells -> memory_size arena < 8 * cells ->
   result = Throw bad_alloc).
Proof.
  intros HN HM. cbv zeta.
  assert (Hint : int_counts num_paths num_steps = true).
  { apply int_counts_spec. unfold INT_MIN, INT_MAX in *. lia. }
  pose proof (to_int_succ num_steps HM) as Hrow.
  assert (Hneg : (num_paths <? 0) = true) by (apply Z.ltb_lt; lia).
  split.
  - intros Hfit.
    assert (Hprod : b = CppArena \/ b = CppMp ->
              (to_int (num_paths * (num_steps + 1)) <? 0) = true).
    { intros Hb. rewrite to_int_small by (unfold INT_MAX; specialize (Hfit Hb); nia).
      apply Z.ltb_lt. nia. }
    destruct b; simpl.
    + unfold price_american_put_lsm_cpp, lsm_cpp_run.
      by rewrite Hint, Hrow, Hneg, orb_true_r.
    + unfold lsm_arena_run. cbv zeta. rewrite Hint, Hrow. simpl.
      unfold bind at 1, arena_vector at 1. by rewrite Hprod by (by left).
    + unfold price_american_put_lsm_simd, lsm_simd_run.
      destruct (_ =? 0); simpl; [|done]. by rewrite Hint, Hneg.
    + unfold lsm_mp_run. cbv zeta. rewrite Hint, Hrow. simpl.
      unfold bind at 1, arena_vector at 1. by rewrite Hprod by (by right).
    + unfold lsm_ultimate_run. cbv zeta.
      destruct (_ =? 0); simpl; [|done]. rewrite Hint. simpl.
      unfold bind at 1, arena_rows at 1, bind at 1, arena_vector at 1.
      by rewrite Hneg.
  - intros Hb Hpos Hsmall.
    pose proof (to_int_range (num_paths * (num_steps + 1))) as Hrange.
    set (cells := to_int (num_paths * (num_steps + 1))) in *.
    assert (Hvec : forall a, memory_size a = memory_size arena -> offset a = 0 ->
              (arena_vector cells sizeof_double alignof_double a).1 = Throw bad_alloc).
    { intros a Hsize Hoff. unfold arena_vector.
      destruct (cells <? 0) eqn:E1; [lia|]. destruct (cells =? 0) eqn:E2; [lia|].
      unfold bind, allocate. rewrite Hoff, Hsize.
      unfold sizeof_double, alignof_double.
      change (Z.land (to_size_t (0 + 8 - 1)) (to_size_t (Z.lnot (to_size_t (8 - 1)))))
        with 0.
      unfold INT_MAX in Hrange.
      rewrite (to_size_t_small (cells * 8)) by lia.
      rewrite (to_size_t_small (0 + cells * 8)) by lia.
      destruct (0 + cells * 8 >? memory_size arena) eqn:E3; [done|lia]. }
    specialize (Hvec (reset arena) eq_refl eq_refl).
    destruct Hb as [-> | ->]; simpl.
    + unfold lsm_arena_run. cbv zeta. rewrite Hint, Hrow. simpl.
      fold cells. unfold bind at 1.
      destruct (arena_vector cells sizeof_double alignof_double (reset arena))
        as [[[]|e|] a1]; simpl in Hvec; try done. by injection Hvec as ->.
    + unfold lsm_mp_run. cbv zeta. rewrite Hint, Hrow. simpl.
      fold cells. unfold bind at 1.
      destruct (arena_vector cells sizeof_double alignof_double (reset arena))
        as [[[]|e|] a1]; simpl in Hvec; try done. by injection Hvec as ->.
Qed.
End EdgeConfigurations.

(** ** Exact arithmetic: bounds, the closed form of a path, the reduction *)

Section RealBounds.
Context {rng : NormalStream R}.
Existing Instance real_ops.
Variable batch_size : nat.
Variable omp : OmpRuntime.
Local Open Scope R_scope.

Lemma exp_nonpos_le_1 x : x <= 0 -> exp x <= 1.
Proof.
  intros [Hlt | ->]; [|rewrite exp_0; lra].
  pose proof (exp_increasing x 0 Hlt) as Hinc. rewrite exp_0 in Hinc. lra.
Qed.

Lemma Rsum_le_const (f : nat -> R) c n :
  (forall i, (i < n)%nat -> f i <= c) -> Rsum f n <= INR n * c.
Proof.
  intros Hf. induction n as [|n IH]; [simpl; lra|].
  rewrite S_INR. simpl.
  pose proof (Hf n ltac:(lia)). pose proof (IH ltac:(intros; apply Hf; lia)). lra.
Qed.

(** A lattice that obeys the recurrence from a nonnegative start has
    no negative entry. *)
Lemma lattice_nonneg (S : nat -> nat -> R) (g : nat -> nat -> R) S0 N M :
  0 <= S0 ->
  (forall i, (i < N)%nat ->
     S i 0%nat = S0 /\
     forall j, (1 <= j <= M)%nat -> S i j = S i (j - 1)%nat * exp (g i j)) ->
  forall i j, (i < N)%nat -> (j <= M)%nat -> 0 <= S i j.
Proof.
  intros HS0 Hrec i j Hi. destruct (Hrec i Hi) as [H0 Hj].
  induction j as [|j IH]; intros Hle; [by rewrite H0|].
  rewrite Hj by lia. replace (Datatypes.S j - 1)%nat with j by lia.
  pose proof (exp_pos (g i (Datatypes.S j))). pose proof (IH ltac:(lia)). nra.
Qed.

Lemma payoff_or_zero_le (L : Layout R) (S : nat -> nat -> R) K r dt N M cf i :
  cf_intrinsic L S K N M cf ->
  (forall j, (j <= M)%nat -> 0 <= S i j) ->
  0 <= r -> 0 <= dt -> (i < N)%nat ->
  payoff_or_zero L r dt M cf i <= Rmax 0 K.
Proof.
  intros Hcf HS Hr Hdt Hi. unfold payoff_or_zero.
  destruct (path_payoff L r dt M cf i) as [p|] eqn:Ep; [|apply Rmax_l].
  apply path_payoff_pos in Ep as (j & Hj & Hpos & _ & ->).
  destruct (Hcf i j Hi ltac:(lia)) as [Hz|[Hv _]]; [simpl in Hz; lra|].
  simpl in Hv. pose proof (HS j ltac:(lia)) as HSj.
  assert (Hexp : exp (- r * IZR (Z.of_nat j) * dt) <= 1).
  { apply exp_nonpos_le_1.
    assert (HJ : 0 <= IZR (Z.of_nat j)) by (apply IZR_le; lia).
    pose proof (Rmult_le_pos _ _ (Rmult_le_pos _ _ Hr HJ) Hdt). lra. }
  pose proof (Rmax_r 0 K).
  pose proof (Rmult_le_compat_l (t_get L cf i j) _ 1 ltac:(lra) Hexp). lra.
Qed.

(** Property X8. In exact arithmetic, for a nonnegative spot, rate and maturity, no
    variant prices the put above its strike: the value returned is at
    most [max(0, K)]. *)
Theorem price_at_most_strike (b : Backend) arena S0 K T r sigma
    num_paths num_steps seed run a' :
  (1 <= num_paths <= INT_MAX)%Z -> (1 <= num_steps)%Z -> (0 < batch_size)%nat ->
  (forall loop i, (omp_thread_num omp loop i < omp_max_threads omp)%nat) ->
  0 <= S0 -> 0 <= r -> 0 <= T ->
  lsm_run batch_size omp b arena S0 K T r sigma num_paths num_steps seed
    = (Ok run, a') ->
  run_price run <= Rmax 0 K.
Proof.
  intros HN HM HB Hthr HS0 Hr HT Hrun.
  destruct (lsm_run_ok batch_size omp b arena S0 K T r sigma num_paths num_steps
              seed run a' ltac:(lia) ltac:(lia) Hrun) as (HS & HCF & Htot & Hprice).
  assert (Hdiv : b = CppSimd \/ b = CppUltimate ->
            Z.to_nat num_paths = (Z.to_nat num_paths / batch_size * batch_size)%nat).
  { intros Hb.
    apply (lsm_run_ok_batches batch_size omp b arena S0 K T r sigma num_paths
             num_steps seed run a' ltac:(lia) HB Hb Hrun). }
  pose proof (backend_lattice_spec batch_size omp b S0 r sigma
                (d_div T (d_of_int num_steps)) (Z.to_nat num_paths)
                (Z.to_nat num_steps) (Z.to_nat (num_steps + 1)) seed
                (cols_succ num_steps ltac:(lia)) HB Hdiv Hthr) as [_ Hspec].
  rewrite <- HS in Hspec.
  assert (Hdt : 0 <= T / IZR num_steps).
  { apply Rle_mult_inv_pos; [done|]. apply IZR_lt. lia. }
  rewrite Hprice, Htot, backend_total_Rsum by done. rewrite HCF.
  unfold average. simpl d_div. simpl d_of_int. rewrite Z2Nat.id by lia.
  revert Hspec. generalize (run_S run). clear HS HCF Htot Hprice Hrun run.
  unfold backend_table, cash_flow_table, backward_induction.
  rewrite (cols_succ num_steps) by lia.
  set (N := Z.to_nat num_paths). set (M := Z.to_nat num_steps).
  intros Slat Hspec.
  pose proof (backend_laws b N (M + 1)) as laws.
  assert (Hnn : forall i j, (i < N)%nat -> (j <= M)%nat ->
            0 <= t_get (backend_layout b (M + 1)) Slat i j).
  { eapply (lattice_nonneg _ _ S0 N M HS0). intros i Hi.
    destruct (Hspec i Hi) as [H0 Hj]. split; [exact H0|].
    intros j Hjr. rewrite (Hj j Hjr). cbv zeta. unfold growth. simpl d_mul.
    simpl d_exp. reflexivity. }
  assert (Hle : Rsum (payoff_or_zero (backend_layout b (M + 1)) r (T / IZR num_steps) M
                   (backward_down_to (backend_layout b (M + 1))
                      (t_get (backend_layout b (M + 1)) Slat) K r
                      (T / IZR num_steps) N M 1
                      (terminal_payoffs (backend_layout b (M + 1))
                         (t_get (backend_layout b (M + 1)) Slat) K N M
                         (t_zero (backend_layout b (M + 1)) N (M + 1))))) N
                <= INR N * Rmax 0 K).
  { apply Rsum_le_const. intros i Hi.
    apply (payoff_or_zero_le _ (t_get (backend_layout b (M + 1)) Slat) K r _ N M);
      try done.
    - apply (backward_down_to_cf_intrinsic _ N M _ laws);
        [apply (cf0_wf _ N M _ laws)|apply (terminal_cf_intrinsic _ N M _ laws)].
    - intros j Hj. by apply Hnn. }
  assert (HNpos : 0 < IZR num_paths) by (apply IZR_lt; lia).
  assert (HINR : INR N = IZR num_paths).
  { unfold N. rewrite INR_IZR_INZ, Z2Nat.id by lia. done. }
  rewrite HINR in Hle.
  apply (Rmult_le_reg_r (IZR num_paths)); [done|].
  unfold Rdiv. rewrite Rmult_assoc, Rinv_l by lra. lra.
Qed.

(** Property X10. In exact arithmetic and for a maturity that is not
    negative (so that [dt] has a square root), every lattice entry is
    [S0] times the exponential of [j] drift terms plus the volatility
    term times the sum of the path's first [j] deviates; it is
    positive when [S0] is. *)
Theorem lattice_closed_form (b : Backend) arena S0 K T r sigma
    num_paths num_steps seed run a' :
  (1 <= num_paths <= INT_MAX)%Z -> (1 <= num_steps)%Z -> (0 < batch_size)%nat ->
  (forall loop i, (omp_thread_num omp loop i < omp_max_threads omp)%nat) ->
  0 <= T ->
  lsm_run batch_size omp b arena S0 K T r sigma num_paths num_steps seed
    = (Ok run, a') ->
  let N := Z.to_nat num_paths in
  let M := Z.to_nat num_steps in
  let S := t_get (backend_layout b (Z.to_nat (num_steps + 1))) (run_S run) in
  let dt := T / IZR num_steps in
  let site := draw_site batch_size omp N M b in
  let Z i j : R :=
    nth_draw (rng_seed (stream_seed b seed (site i j).1)) (site i j).2 in
  forall i j, (i < N)%nat -> (j <= M)%nat ->
    S i j = S0 * exp (INR j * ((r - 1 / 2 * sigma * sigma) * dt)
                      + sigma * R_sqrt.sqrt dt * Rsum (fun k => Z i (Datatypes.S k)) j) /\
    (0 < S0 -> 0 < S i j).
Proof.
  intros HN HM HB Hthr HT Hrun.
  destruct (lsm_run_ok batch_size omp b arena S0 K T r sigma num_paths num_steps
              seed run a' ltac:(lia) ltac:(lia) Hrun) as (HS & _).
  assert (Hdiv : b = CppSimd \/ b = CppUltimate ->
            Z.to_nat num_paths = (Z.to_nat num_paths / batch_size * batch_size)%nat).
  { intros Hb.
    apply (lsm_run_ok_batches batch_size omp b arena S0 K T r sigma num_paths
             num_steps seed run a' ltac:(lia) HB Hb Hrun). }
  pose proof (backend_lattice_spec batch_size omp b S0 r sigma
                (d_div T (d_of_int num_steps)) (Z.to_nat num_paths)
                (Z.to_nat num_steps) (Z.to_nat (num_steps + 1)) seed
                (cols_succ num_steps ltac:(lia)) HB Hdiv Hthr) as [_ Hspec].
  rewrite <- HS in Hspec. cbv zeta. intros i j Hi Hj.
  destruct (Hspec i Hi) as [H0 Hrec].
  assert (Hform : t_get (backend_layout b (Z.to_nat (num_steps + 1))) (run_S run) i j =
            S0 * exp (INR j * ((r - 1 / 2 * sigma * sigma) * (T / IZR num_steps))
                      + sigma * R_sqrt.sqrt (T / IZR num_steps)
                        * Rsum (fun k =>
                                  nth_draw
                                    (rng_seed
                                       (stream_seed b seed
                                          (draw_site batch_size omp (Z.to_nat num_paths)
                                             (Z.to_nat num_steps) b i (Datatypes.S k)).1))
                                    (draw_site batch_size omp (Z.to_nat num_paths)
                                       (Z.to_nat num_steps) b i (Datatypes.S k)).2) j)).
  { induction j as [|j IH].
    - rewrite H0. simpl. rewrite Rmult_0_l, Rmult_0_r, Rplus_0_l, exp_0. lra.
    - rewrite (Hrec (Datatypes.S j)) by lia. cbv zeta.
      replace (Datatypes.S j - 1)%nat with j by lia.
      rewrite IH by lia. unfold growth, drift_term, vol_term. simpl.
      rewrite Rmult_assoc, <- exp_plus. f_equal. f_equal.
      destruct j; simpl; lra. }
  split; [exact Hform|].
  intros HS0. rewrite Hform. apply Rmult_lt_0_compat; [done|apply exp_pos].
Qed.

(** Property X11. In exact arithmetic the OpenMP reduction returns the
    sequential total, whatever thread each path is given and in
    whatever order the partial sums of the [W] threads are combined. *)
Theorem reduction_schedule_independent (L : Layout R) r dt N M W
    (order : list nat) (thread_of : nat -> nat) (cf : table L) :
  Permutation order (seq 0 W) ->
  (forall i, (thread_of i < W)%nat) ->
  total_payoff_omp L r dt N M order thread_of cf = total_payoff L r dt N M cf.
Proof.
  intros Hperm Hthr.
  by rewrite (total_payoff_omp_Rsum L r dt N M order W), total_payoff_Rsum.
Qed.
End RealBounds.

(** ** The arena: regions, wrap-around, and what each variant takes *)

Section ArenaRegions.
Import ArenaModel ArenaMonad.

(** [allocate] on a power-of-two alignment, when nothing wraps. *)
Lemma allocate_pow2 (a : Arena) (size k : Z) :
  0 <= offset a -> 0 <= size -> 0 <= k < 64 ->
  offset a + 2 ^ k - 1 < 2 ^ 64 ->
  round_up (offset a) (2 ^ k) + size < 2 ^ 64 ->
  allocate size (2 ^ k) a =
    if round_up (offset a) (2 ^ k) + size >? memory_size a
    then (Throw bad_alloc, a)
    else (Ok (round_up (offset a) (2 ^ k)),
          mkArena (memory_size a) (round_up (offset a) (2 ^ k) + size)).
Proof.
  intros Hoff Hsize Hk Hx Hfit.
  pose proof (pow2_lt_64 k Hk) as Hp.
  pose proof (round_up_bounds (offset a) (2 ^ k) ltac:(lia)) as [Hb Hm].
  unfold allocate.
  rewrite (to_size_t_small (offset a + 2 ^ k - 1)) by lia.
  rewrite mask_low_bits by lia.
  fold (round_up (offset a) (2 ^ k)).
  by rewrite (to_size_t_small (round_up (offset a) (2 ^ k) + size)) by lia.
Qed.

Lemma pow2_le_61 k : 0 <= k < 62 -> 0 < 2 ^ k <= 2 ^ 61.
Proof.
  intros Hk. split; [apply Z.pow_pos_nonneg; lia|]. apply Z.pow_le_mono_r; lia.
Qed.

(** Property X14. Two allocations in a row, on an arena and with requests below
    [2^62] bytes: both regions start at a multiple of their alignment,
    the second starts at or after the end of the first, both lie inside
    the capacity, and the offset ends just past the second. *)
Theorem allocate_regions_disjoint (a a1 a2 : Arena) (s1 s2 k1 k2 p1 p2 : Z) :
  0 <= offset a <= memory_size a -> memory_size a <= 2 ^ 62 ->
  0 <= s1 <= 2 ^ 62 -> 0 <= s2 <= 2 ^ 62 -> 0 <= k1 < 62 -> 0 <= k2 < 62 ->
  allocate s1 (2 ^ k1) a = (Ok p1, a1) ->
  allocate s2 (2 ^ k2) a1 = (Ok p2, a2) ->
  offset a <= p1 /\ p1 mod 2 ^ k1 = 0 /\
  p1 + s1 <= p2 /\ p2 mod 2 ^ k2 = 0 /\
  p2 + s2 = offset a2 /\ offset a2 <= memory_size a /\
  memory_size a2 = memory_size a.
Proof.
  intros Hoff Hcap Hs1 Hs2 Hk1 Hk2 H1 H2.
  assert (H62 : 2 ^ 62 = 4611686018427387904) by reflexivity.
  assert (H61 : 2 ^ 61 = 2305843009213693952) by reflexivity.
  assert (H64 : 2 ^ 64 = 18446744073709551616) by reflexivity.
  pose proof (pow2_le_61 k1 Hk1) as Hp1. pose proof (pow2_le_61 k2 Hk2) as Hp2.
  pose proof (round_up_bounds (offset a) (2 ^ k1) ltac:(lia)) as [Hb1 Hm1].
  rewrite allocate_pow2 in H1 by lia.
  destruct (_ >? _) eqn:E1; [done|]. injection H1 as <- <-.
  rewrite Z.gtb_ltb in E1. apply Z.ltb_ge in E1. simpl in *.
  pose proof (round_up_bounds (round_up (offset a) (2 ^ k1) + s1) (2 ^ k2)
                ltac:(lia)) as [Hb2 Hm2].
  rewrite allocate_pow2 in H2 by (simpl; lia).
  destruct (_ >? _) eqn:E2; [done|]. injection H2 as <- <-.
  rewrite Z.gtb_ltb in E2. apply Z.ltb_ge in E2. simpl in *.
  repeat split; (done || lia).
Qed.

(** Property X15. The bound test adds in [size_t] and can wrap: on an arena in use,
    a request so large that its end passes [2^64] is granted at the
    current offset, although it exceeds the whole capacity, and the
    offset moves back to the wrapped end. *)
Theorem allocate_wraps_around (a : Arena) (size : Z) :
  0 <= offset a <= memory_size a -> memory_size a < 2 ^ 63 ->
  0 <= size < 2 ^ 64 -> 2 ^ 64 <= offset a + size ->
  memory_size a < size /\
  offset a + size - 2 ^ 64 < offset a /\
  allocate size 1 a =
    (Ok (offset a), mkArena (memory_size a) (offset a + size - 2 ^ 64)).
Proof.
  intros Hoff Hcap Hsize Hwrap.
  assert (H64 : 2 ^ 64 = 18446744073709551616) by reflexivity.
  assert (H63 : 2 ^ 63 = 9223372036854775808) by reflexivity.
  split; [lia|]. split; [lia|].
  unfold allocate.
  replace (offset a + 1 - 1) with (offset a) by lia.
  rewrite (to_size_t_small (offset a)) by lia.
  pose proof (mask_low_bits (offset a) 0 ltac:(lia) ltac:(lia)) as Hmask.
  replace (2 ^ 0 - 1) with (1 - 1) in Hmask by reflexivity.
  rewrite Hmask. replace (2 ^ 0) with 1 by reflexivity.
  rewrite Z.div_1_r, Z.mul_1_r.
  assert (Hw : to_size_t (offset a + size) = offset a + size - 2 ^ 64).
  { unfold to_size_t, size_t_modulus.
    rewrite <- (Z.mod_small (offset a + size - 2 ^ 64) (2 ^ 64)) by lia.
    replace (offset a + size) with (offset a + size - 2 ^ 64 + 1 * 2 ^ 64) at 1 by lia.
    by rewrite Z.mod_add by lia. }
  rewrite Hw. destruct (_ >? _) eqn:E; [|done].
  apply Z.gtb_lt in E. lia.
Qed.
End ArenaRegions.

Section ArenaFootprint.
Import ArenaModel ArenaMonad.

Lemma arena_usage_ret {A} (x : A) off : arena_usage (ret x) off off.
Proof. intros cap. split; [by exists x|lia]. Qed.

Lemma arena_usage_bind {A B} (m : ArenaM A) (k : A -> ArenaM B) off off1 off2 :
  arena_usage m off off1 -> (forall x, arena_usage (k x) off1 off2) ->
  off1 <= off2 -> arena_usage (bind m k) off off2.
Proof.
  intros Hm Hk Hle cap. unfold bind. destruct (Hm cap) as [Hok Hthrow]. split.
  - intros Hfit. destruct (Hok ltac:(lia)) as [x ->]. by apply (Hk x cap).
  - intros Hcap. destruct (Z_le_gt_dec off1 cap) as [Hle1|Hgt1].
    + destruct (Hok Hle1) as [x ->]. apply (Hk x cap). lia.
    + destruct (Hthrow ltac:(lia)) as [a' ->]. by exists a'.
Qed.

(** A vector of [n > 0] elements of size [elt_size], aligned to [2^k]. *)
Lemma arena_usage_vector n elt_size k off :
  0 < n -> 0 < elt_size -> 0 <= k < 62 -> 0 <= off <= 2 ^ 62 ->
  n * elt_size <= 2 ^ 62 ->
  arena_usage (arena_vector n elt_size (2 ^ k)) off
    (round_up off (2 ^ k) + n * elt_size).
Proof.
  intros Hn Hsz Hk Hoff Hbytes cap.
  assert (H62 : 2 ^ 62 = 4611686018427387904) by reflexivity.
  assert (H64 : 2 ^ 64 = 18446744073709551616) by reflexivity.
  pose proof (pow2_le_61 k Hk) as Hp.
  assert (H61 : 2 ^ 61 = 2305843009213693952) by reflexivity.
  pose proof (round_up_bounds off (2 ^ k) ltac:(lia)) as [Hb Hm].
  unfold arena_vector, bind, ret.
  destruct (n <? 0) eqn:E1; [lia|]. destruct (n =? 0) eqn:E2; [lia|].
  rewrite (to_size_t_small (n * elt_size)) by nia.
  rewrite allocate_pow2 by (simpl; nia). simpl.
  split; intros Hc.
  - destruct (_ >? _) eqn:E; [apply Z.gtb_lt in E; lia|]. by exists tt.
  - destruct (_ >? _) eqn:E; [by eexists|].
    rewrite Z.gtb_ltb in E. apply Z.ltb_ge in E. lia.
Qed.

Lemma arena_usage_doubles n off :
  0 < n -> n <= 2 ^ 58 -> 0 <= off <= 2 ^ 62 -> off mod 8 = 0 ->
  arena_usage (arena_vector n sizeof_double alignof_double) off (off + 8 * n).
Proof.
  intros Hn Hn' Hoff Hmod.
  assert (H58 : 2 ^ 58 = 288230376151711744) by reflexivity.
  assert (H62 : 2 ^ 62 = 4611686018427387904) by reflexivity.
  pose proof (arena_usage_vector n 8 3 off Hn ltac:(lia) ltac:(lia) Hoff ltac:(lia))
    as Hu.
  replace (round_up off (2 ^ 3) + n * 8) with (off + 8 * n) in Hu; [exact Hu|].
  unfold round_up. replace (2 ^ 3) with 8 by reflexivity.
  Z.div_mod_to_equations. lia.
Qed.

Lemma arena_usage_ints n off :
  0 < n -> n <= 2 ^ 58 -> 0 <= off <= 2 ^ 62 -> off mod 4 = 0 ->
  arena_usage (arena_vector n sizeof_int alignof_int) off (off + 4 * n).
Proof.
  intros Hn Hn' Hoff Hmod.
  assert (H58 : 2 ^ 58 = 288230376151711744) by reflexivity.
  assert (H62 : 2 ^ 62 = 4611686018427387904) by reflexivity.
  pose proof (arena_usage_vector n 4 2 off Hn ltac:(lia) ltac:(lia) Hoff ltac:(lia))
    as Hu.
  replace (round_up off (2 ^ 2) + n * 4) with (off + 4 * n) in Hu; [exact Hu|].
  unfold round_up. replace (2 ^ 2) with 4 by reflexivity.
  Z.div_mod_to_equations. lia.
Qed.

(** A vector of doubles placed after [n] ints that started at a
    multiple of 8: the padding rounds the ints up to a whole double. *)
Lemma arena_usage_doubles_padded n m off :
  0 < n -> n <= 2 ^ 58 -> 0 <= m <= 2 ^ 58 ->
  0 <= off <= 2 ^ 61 -> off mod 8 = 0 ->
  arena_usage (arena_vector n sizeof_double alignof_double) (off + 4 * m)
    (off + 8 * ((m + 1) / 2) + 8 * n).
Proof.
  intros Hn Hn' Hm Hoff Hmod.
  assert (H58 : 2 ^ 58 = 288230376151711744) by reflexivity.
  assert (H61 : 2 ^ 61 = 2305843009213693952) by reflexivity.
  assert (H62 : 2 ^ 62 = 4611686018427387904) by reflexivity.
  pose proof (arena_usage_vector n 8 3 (off + 4 * m) Hn ltac:(lia) ltac:(lia)
                ltac:(lia) ltac:(lia)) as Hu.
  replace (round_up (off + 4 * m) (2 ^ 3) + n * 8)
    with (off + 8 * ((m + 1) / 2) + 8 * n) in Hu; [exact Hu|].
  unfold round_up. replace (2 ^ 3) with 8 by reflexivity.
  Z.div_mod_to_equations. lia.
Qed.

Lemma arena_usage_repeat k n off :
  0 < n -> Z.of_nat k * (8 * n) <= 2 ^ 60 ->
  0 <= off <= 2 ^ 61 -> off mod 8 = 0 ->
  arena_usage (repeatM k (arena_vector n sizeof_double alignof_double)) off
    (off + Z.of_nat k * (8 * n)).
Proof.
  intros Hn Hk Hoff Hmod.
  assert (H60 : 2 ^ 60 = 1152921504606846976) by reflexivity.
  assert (H58 : 2 ^ 58 = 288230376151711744) by reflexivity.
  assert (H61 : 2 ^ 61 = 2305843009213693952) by reflexivity.
  assert (H62 : 2 ^ 62 = 4611686018427387904) by reflexivity.
  assert (Hgen : forall j : nat, (j <= k)%nat ->
            arena_usage (repeatM j (arena_vector n sizeof_double alignof_double))
              (off + Z.of_nat (k - j) * (8 * n)) (off + Z.of_nat k * (8 * n))).
  { induction j as [|j IH]; intros Hj.
    - simpl. replace (k - 0)%nat with k by lia. apply arena_usage_ret.
    - assert (Hmono : Z.of_nat (k - Datatypes.S j) * (8 * n) + 8 * n
                        <= Z.of_nat k * (8 * n)).
      { replace (Z.of_nat (k - Datatypes.S j) * (8 * n) + 8 * n)
          with (Z.of_nat (k - j) * (8 * n)) by nia.
        apply Z.mul_le_mono_nonneg_r; lia. }
      assert (0 <= Z.of_nat (k - Datatypes.S j) * (8 * n)) by nia.
      simpl. eapply arena_usage_bind.
      + apply arena_usage_doubles; [lia|lia|lia|].
        rewrite Z.add_mod, Hmod by lia.
        replace (Z.of_nat (k - Datatypes.S j) * (8 * n))
          with (Z.of_nat (k - Datatypes.S j) * n * 8) by lia.
        by rewrite Z.mod_mul by lia.
      + intros _.
        replace (off + Z.of_nat (k - Datatypes.S j) * (8 * n) + 8 * n)
          with (off + Z.of_nat (k - j) * (8 * n)) by nia.
        apply IH. lia.
      + lia. }
  specialize (Hgen k ltac:(lia)). by rewrite Nat.sub_diag, Z.add_0_r in Hgen.
Qed.

Lemma arena_usage_rows count n off :
  0 < n -> 0 <= count -> (count + 1) * (8 * n) <= 2 ^ 60 ->
  0 <= off <= 2 ^ 60 -> off mod 8 = 0 ->
  arena_usage (arena_rows count n) off (off + 8 * n + count * (8 * n)).
Proof.
  intros Hn Hc Hb Hoff Hmod.
  assert (H58 : 2 ^ 58 = 288230376151711744) by reflexivity.
  assert (H60 : 2 ^ 60 = 1152921504606846976) by reflexivity.
  assert (H61 : 2 ^ 61 = 2305843009213693952) by reflexivity.
  assert (H62 : 2 ^ 62 = 4611686018427387904) by reflexivity.
  unfold arena_rows. eapply arena_usage_bind.
  - apply arena_usage_doubles; [lia|nia|lia|done].
  - intros _. destruct (count <? 0) eqn:E; [lia|].
    rewrite <- (Z2Nat.id count) at 2 by lia.
    apply arena_usage_repeat; [lia|rewrite Z2Nat.id by lia; nia|nia|].
    Z.div_mod_to_equations. lia.
  - nia.
Qed.

Ltac usage_doubles :=
  eapply arena_usage_bind;
  [ apply arena_usage_doubles;
    [lia|lia|lia|Z.div_mod_to_equations; lia]
  | intros _ | Z.div_mod_to_equations; lia ].

(** The five vectors of the arena and mp variants. *)
Lemma arena_usage_five {A} (n1 N : Z) (x : A) :
  0 < n1 -> n1 <= INT_MAX -> 0 < N -> N <= INT_MAX ->
  arena_usage
    (bind (arena_vector n1 sizeof_double alignof_double) (fun _ =>
     bind (arena_vector n1 sizeof_double alignof_double) (fun _ =>
     bind (arena_vector N sizeof_int alignof_int) (fun _ =>
     bind (arena_vector N sizeof_double alignof_double) (fun _ =>
     bind (arena_vector N sizeof_double alignof_double) (fun _ => ret x))))))
    0 (16 * n1 + 8 * ((N + 1) / 2) + 16 * N).
Proof.
  intros Hn1 Hn1' HN HN'.
  assert (HI : INT_MAX = 2147483647) by reflexivity.
  assert (H58 : 2 ^ 58 = 288230376151711744) by reflexivity.
  assert (H61 : 2 ^ 61 = 2305843009213693952) by reflexivity.
  assert (H62 : 2 ^ 62 = 4611686018427387904) by reflexivity.
  replace (16 * n1 + 8 * ((N + 1) / 2) + 16 * N)
    with (0 + 8 * n1 + 8 * n1 + 8 * ((N + 1) / 2) + 8 * N + 8 * N) by lia.
  usage_doubles. usage_doubles.
  eapply arena_usage_bind;
    [apply arena_usage_ints; [lia|lia|lia|Z.div_mod_to_equations; lia]
    |intros _|Z.div_mod_to_equations; lia].
  eapply arena_usage_bind;
    [apply arena_usage_doubles_padded;
     [lia|lia|lia|lia|Z.div_mod_to_equations; lia]
    |intros _|Z.div_mod_to_equations; lia].
  eapply arena_usage_bind;
    [apply arena_usage_doubles;
     [lia|lia|Z.div_mod_to_equations; lia|Z.div_mod_to_equations; lia]
    |intros _; apply arena_usage_ret|lia].
Qed.

(** The tables of the ultimate variant, then its three vectors. *)
Lemma arena_usage_ultimate {A} (count N : Z) (x : A) :
  0 < N -> N <= INT_MAX -> 0 <= count -> (count + 1) * (16 * N) <= 2 ^ 60 ->
  arena_usage
    (bind (arena_rows count N) (fun _ =>
     bind (arena_rows count N) (fun _ =>
     bind (arena_vector N sizeof_int alignof_int) (fun _ =>
     bind (arena_vector N sizeof_double alignof_double) (fun _ =>
     bind (arena_vector N sizeof_double alignof_double) (fun _ => ret x))))))
    0 (16 * (N * (count + 1)) + 8 * ((N + 1) / 2) + 16 * N).
Proof.
  intros HN HN' Hc Hb.
  assert (HI : INT_MAX = 2147483647) by reflexivity.
  assert (H58 : 2 ^ 58 = 288230376151711744) by reflexivity.
  assert (H60 : 2 ^ 60 = 1152921504606846976) by reflexivity.
  assert (H61 : 2 ^ 61 = 2305843009213693952) by reflexivity.
  assert (H62 : 2 ^ 62 = 4611686018427387904) by reflexivity.
  set (row := 8 * N + count * (8 * N)).
  assert (Hrow : 0 < row /\ 2 * row <= 2 ^ 60 /\ row mod 8 = 0).
  { unfold row. split; [nia|]. split; [nia|].
    replace (8 * N + count * (8 * N)) with ((N + count * N) * 8) by lia.
    by rewrite Z.mod_mul by lia. }
  destruct Hrow as (Hr0 & Hr1 & Hr2).
  replace (16 * (N * (count + 1)) + 8 * ((N + 1) / 2) + 16 * N)
    with (0 + row + row + 8 * ((N + 1) / 2) + 8 * N + 8 * N) by (unfold row; lia).
  eapply arena_usage_bind;
    [apply (arena_usage_rows count N 0); [lia|lia|nia|lia|done]
    |intros _; fold row|fold row; Z.div_mod_to_equations; lia].
  eapply arena_usage_bind;
    [apply (arena_usage_rows count N (0 + row));
     [lia|lia|nia|lia|Z.div_mod_to_equations; lia]
    |intros _; fold row|fold row; Z.div_mod_to_equations; lia].
  replace (0 + row + 8 * N + count * (8 * N)) with (0 + row + row)
    by (unfold row; lia).
  eapply arena_usage_bind;
    [apply arena_usage_ints; [lia|lia|lia|Z.div_mod_to_equations; lia]
    |intros _|Z.div_mod_to_equations; lia].
  eapply arena_usage_bind;
    [apply arena_usage_doubles_padded;
     [lia|lia|lia|lia|Z.div_mod_to_equations; lia]
    |intros _|Z.div_mod_to_equations; lia].
  eapply arena_usage_bind;
    [apply arena_usage_doubles;
     [lia|lia|Z.div_mod_to_equations; lia|Z.div_mod_to_equations; lia]
    |intros _; apply arena_usage_ret|lia].
Qed.
End ArenaFootprint.

Section FootprintTheorems.
Context {D : Type} `{DoubleOps D} `{NormalStream D}.
Import ArenaModel ArenaMonad.
Variable batch_size : nat.
Variable omp : OmpRuntime.

Ltac run_usage Hu :=
  let Hok := fresh "Hok" in
  let Hthrow := fresh "Hthrow" in
  let Hfit := fresh "Hfit" in
  let y := fresh "y" in
  let a' := fresh "a'" in
  match goal with
  | |- context [bind _ (fun _ => bind _ (fun _ => bind _ (fun _ =>
                  bind _ (fun _ => bind _ (fun _ => ret ?x))))) _] =>
      destruct (Hu _ x) as [Hok Hthrow]
  end;
  split;
  [ intros Hfit; destruct (Hok Hfit) as [y ->]; by exists y
  | intros Hfit; destruct (Hthrow ltac:(lia)) as [a' ->]; by exists a' ].

Lemma lsm_arena_run_usage arena S0 K T r sigma num_paths num_steps seed :
  1 <= num_paths -> 0 <= num_steps -> num_paths * (num_steps + 1) <= INT_MAX ->
  0 <= memory_size arena ->
  let need := arena_bytes_needed num_paths num_steps in
  (need <= memory_size arena ->
     exists run, lsm_arena_run arena S0 K T r sigma num_paths num_steps seed =
                 (Ok run, mkArena (memory_size arena) need)) /\
  (memory_size arena < need ->
     exists a', lsm_arena_run arena S0 K T r sigma num_paths num_steps seed =
                (Throw bad_alloc, a')).
Proof.
  intros HN HM Hprod Hcap. cbv zeta.
  assert (HI : INT_MAX = 2147483647) by reflexivity.
  pose proof (fun A (x : A) =>
                arena_usage_five (num_paths * (num_steps + 1)) num_paths x
                  ltac:(nia) Hprod ltac:(lia) ltac:(nia) (memory_size arena)) as Hu.
  assert (HM' : 0 <= num_steps < INT_MAX) by nia.
  assert (Hint : int_counts num_paths num_steps = true).
  { apply int_counts_spec. unfold INT_MIN. nia. }
  pose proof (to_int_succ num_steps HM') as Hrow.
  assert (Hcell : to_int (num_paths * (num_steps + 1)) = num_paths * (num_steps + 1)).
  { apply to_int_small. unfold INT_MIN. nia. }
  assert (Hfb : flat_in_bounds num_paths (num_steps + 1) = true).
  { unfold flat_in_bounds. apply orb_true_iff. right.
    apply andb_true_iff. split; [apply Z.ltb_lt|apply Z.leb_le]; lia. }
  unfold arena_bytes_needed, lsm_arena_run. cbv zeta. unfold reset.
  rewrite Hint, Hrow, Hcell, Hfb. change (negb true) with false. cbv iota.
  run_usage Hu.
Qed.

Lemma lsm_mp_run_usage arena S0 K T r sigma num_paths num_steps seed :
  1 <= num_paths -> 0 <= num_steps -> num_paths * (num_steps + 1) <= INT_MAX ->
  0 <= memory_size arena ->
  let need := arena_bytes_needed num_paths num_steps in
  (need <= memory_size arena ->
     exists run, lsm_mp_run omp arena S0 K T r sigma num_paths num_steps seed =
                 (Ok run, mkArena (memory_size arena) need)) /\
  (memory_size arena < need ->
     exists a', lsm_mp_run omp arena S0 K T r sigma num_paths num_steps seed =
                (Throw bad_alloc, a')).
Proof.
  intros HN HM Hprod Hcap. cbv zeta.
  assert (HI : INT_MAX = 2147483647) by reflexivity.
  pose proof (fun A (x : A) =>
                arena_usage_five (num_paths * (num_steps + 1)) num_paths x
                  ltac:(nia) Hprod ltac:(lia) ltac:(nia) (memory_size arena)) as Hu.
  assert (HM' : 0 <= num_steps < INT_MAX) by nia.
  assert (Hint : int_counts num_paths num_steps = true).
  { apply int_counts_spec. unfold INT_MIN. nia. }
  pose proof (to_int_succ num_steps HM') as Hrow.
  assert (Hcell : to_int (num_paths * (num_steps + 1)) = num_paths * (num_steps + 1)).
  { apply to_int_small. unfold INT_MIN. nia. }
  assert (Hfb : flat_in_bounds num_paths (num_steps + 1) = true).
  { unfold flat_in_bounds. apply orb_true_iff. right.
    apply andb_true_iff. split; [apply Z.ltb_lt|apply Z.leb_le]; lia. }
  unfold arena_bytes_needed, lsm_mp_run. cbv zeta. unfold reset.
  rewrite Hint, Hrow, Hcell, Hfb. change (negb true) with false. cbv iota.
  run_usage Hu.
Qed.

Lemma lsm_ultimate_run_usage arena S0 K T r sigma num_paths num_steps seed :
  to_size_t num_paths mod Z.of_nat batch_size = 0 ->
  1 <= num_paths <= INT_MAX -> 0 <= num_steps < INT_MAX ->
  (num_steps + 2) * (16 * num_paths) <= 2 ^ 60 ->
  0 <= memory_size arena ->
  let need := ultimate_bytes_needed num_paths num_steps in
  (need <= memory_size arena ->
     exists run, lsm_ultimate_run batch_size omp arena S0 K T r sigma
                   num_paths num_steps seed =
                 (Ok run, mkArena (memory_size arena) need)) /\
  (memory_size arena < need ->
     exists a', lsm_ultimate_run batch_size omp arena S0 K T r sigma
                  num_paths num_steps seed =
                (Throw bad_alloc, a')).
Proof.
  intros Hlane HN HM Hprod Hcap. cbv zeta.
  pose proof (fun A (x : A) =>
                arena_usage_ultimate (num_steps + 1) num_paths x
                  ltac:(lia) ltac:(lia) ltac:(lia)
                  ltac:(by replace (num_steps + 1 + 1) with (num_steps + 2) by lia)
                  (memory_size arena)) as Hu.
  unfold ultimate_bytes_needed.
  replace (num_steps + 2) with (num_steps + 1 + 1) by lia.
  assert (Hint : int_counts num_paths num_steps = true).
  { apply int_counts_spec. unfold INT_MIN, INT_MAX in *. lia. }
  pose proof (to_int_succ num_steps HM) as Hrow.
  assert (Hrows : (num_steps + 1 =? 0) = false) by (apply Z.eqb_neq; lia).
  unfold lsm_ultimate_run. apply Z.eqb_eq in Hlane. rewrite Hlane.
  cbv zeta. rewrite Hint, Hrow, Hrows.
  change (negb true) with false. cbv iota. unfold reset.
  run_usage Hu.
Qed.

(** Property X16. The arena and mp variants succeed exactly when the arena holds
    [arena_bytes_needed] bytes, whatever it held before the call (they
    reset it first); they then leave its offset at that number, and
    otherwise throw [std::bad_alloc]. *)
Theorem arena_footprint (b : Backend) arena S0 K T r sigma
    num_paths num_steps seed :
  b = CppArena \/ b = CppMp ->
  1 <= num_paths -> 0 <= num_steps -> num_paths * (num_steps + 1) <= INT_MAX ->
  0 <= memory_size arena ->
  let res := lsm_run batch_size omp b arena S0 K T r sigma num_paths num_steps seed in
  let need := arena_bytes_needed num_paths num_steps in
  (need <= memory_size arena ->
     is_ok res.1 = true /\ res.2 = mkArena (memory_size arena) need) /\
  (memory_size arena < need -> res.1 = Throw bad_alloc).
Proof.
  intros Hb HN HM Hprod Hcap. cbv zeta.
  destruct Hb as [-> | ->]; simpl lsm_run.
  - destruct (lsm_arena_run_usage arena S0 K T r sigma num_paths num_steps seed
                HN HM Hprod Hcap) as [Hok Hthrow].
    split.
    + intros Hfit. destruct (Hok Hfit) as [run ->]. done.
    + intros Hsmall. destruct (Hthrow Hsmall) as [a' ->]. done.
  - destruct (lsm_mp_run_usage arena S0 K T r sigma num_paths num_steps seed
                HN HM Hprod Hcap) as [Hok Hthrow].
    split.
    + intros Hfit. destruct (Hok Hfit) as [run ->]. done.
    + intros Hsmall. destruct (Hthrow Hsmall) as [a' ->]. done.
Qed.

(** Property X17. The ultimate variant allocates, for each of its two
    tables, a prototype row and [num_steps + 1] copies of it.  For at
    least one path, [num_steps] in [0, INT_MAX) and tables of at most
    [2^60] bytes ([(num_steps + 2) * 16 * num_paths <= 2^60]): when
    the lane width divides [num_paths] it succeeds exactly when the
    arena holds [ultimate_bytes_needed] bytes, which is
    [16 * num_paths] more than the arena and mp variants take, and
    otherwise throws [std::bad_alloc]. *)
Theorem ultimate_footprint arena S0 K T r sigma num_paths num_steps seed :
  to_size_t num_paths mod Z.of_nat batch_size = 0 ->
  1 <= num_paths <= INT_MAX -> 0 <= num_steps < INT_MAX ->
  (num_steps + 2) * (16 * num_paths) <= 2 ^ 60 ->
  0 <= memory_size arena ->
  let res := lsm_ultimate_run batch_size omp arena S0 K T r sigma
               num_paths num_steps seed in
  let need := ultimate_bytes_needed num_paths num_steps in
  need = arena_bytes_needed num_paths num_steps + 16 * num_paths /\
  (need <= memory_size arena ->
     is_ok res.1 = true /\ res.2 = mkArena (memory_size arena) need) /\
  (memory_size arena < need -> res.1 = Throw bad_alloc).
Proof.
  intros Hlane HN HM Hprod Hcap. cbv zeta.
  split; [unfold ultimate_bytes_needed, arena_bytes_needed; lia|].
  destruct (lsm_ultimate_run_usage arena S0 K T r sigma num_paths num_steps seed
              Hlane HN HM Hprod Hcap) as [Hok Hthrow].
  split.
  - intros Hfit. destruct (Hok Hfit) as [run ->]. done.
  - intros Hsmall. destruct (Hthrow Hsmall) as [a' ->]. done.
Qed.


End FootprintTheorems.

(** ** polyfit in exact arithmetic *)

Section PolyfitReal.
Existing Instance real_ops.
Local Open Scope R_scope.

Lemma Rabs_le_zero a b : Rltb (Rabs b) (Rabs a) = false -> b = 0 -> a = 0.
Proof.
  intros Hlt ->. apply Rltb_false in Hlt. rewrite Rabs_R0 in Hlt.
  destruct (Req_dec a 0) as [|Hne]; [done|].
  pose proof (Rabs_pos_lt a Hne). lra.
Qed.

Lemma Rabs_lt_nonzero a b : Rltb (Rabs b) (Rabs a) = true -> a <> 0.
Proof.
  intros Hlt ->. apply Rltb_true in Hlt. rewrite Rabs_R0 in Hlt.
  pose proof (Rabs_pos b). lra.
Qed.

Ltac explicit s Hs :=
  rewrite Hs; unfold explicit_system;
  generalize (A_get s 0 0) (A_get s 0 1) (A_get s 0 2)
             (A_get s 1 0) (A_get s 1 1) (A_get s 1 2)
             (A_get s 2 0) (A_get s 2 1) (A_get s 2 2)
             (b_get s 0) (b_get s 1) (b_get s 2);
  clear s Hs; intros a00 a01 a02 a10 a11 a12 a20 a21 a22 b0 b1 b2.



Ltac rcbn := cbn -[Rmult Rplus Rminus Rdiv Rabs Rltb Ropp Rinv IZR INR].
Ltac rcbn_in H := cbn -[Rmult Rplus Rminus Rdiv Rabs Rltb Ropp Rinv IZR INR] in H.

Ltac pivot_nonzero Hdet :=
  first
    [ eapply Rabs_lt_nonzero; eassumption
    | let Hp := fresh "Hp" in
      intros Hp;
      repeat match goal with
             | E : Rltb (Rabs _) (Rabs _) = false |- _ =>
                 let Hq := fresh "Hq" in
                 pose proof (Rabs_le_zero _ _ E Hp) as Hq; clear E
             end;
      subst; apply Hdet; ring ].

Ltac det_preserved Hdet :=
  let Hz := fresh "Hz" in
  intros Hz; apply Hdet;
  match type of Hz with
  | ?d' = 0 =>
      match type of Hdet with
      | ?d <> 0 =>
          first [ transitivity d'; [field; assumption|exact Hz]
                | transitivity (- d'); [field; assumption|rewrite Hz; ring] ]
      end
  end.

Lemma eliminate_column_0_spec (s : @system R) :
  is_3x3 s -> det3 s <> 0 ->
  let s' := eliminate_column s 0 in
  is_3x3 s' /\ A_get s' 1 0 = 0 /\ A_get s' 2 0 = 0 /\ A_get s' 0 0 <> 0 /\
  det3 s' <> 0 /\
  forall c0 c1 c2, solves s' c0 c1 c2 -> solves s c0 c1 c2.
Proof.
  intros Hs. explicit s Hs.
  unfold det3, solves, is_3x3, explicit_system, eliminate_column, find_pivot.
  rcbn. intros Hdet.
  destruct (Rltb (Rabs a00) (Rabs a10)) eqn:E1; rcbn;
    match goal with
    | |- context [Rltb ?x ?y] => destruct (Rltb x y) eqn:E2; rcbn
    end;
    match goal with
    | |- _ /\ _ /\ _ /\ ?p <> 0 /\ _ =>
        assert (Hp : p <> 0) by pivot_nonzero Hdet
    end;
    (split; [reflexivity|]);
    (split; [field; exact Hp|]);
    (split; [field; exact Hp|]);
    (split; [exact Hp|]);
    (split; [det_preserved Hdet|]).
  all: intros c0 c1 c2 (H0 & H1 & H2).
  all: match type of H1 with
       | context [?x / ?p] =>
           pose proof (f_equal (fun v => x / p * v) H0) as H1'; cbv beta in H1'
       end.
  all: match type of H2 with
       | context [?x / ?p] =>
           pose proof (f_equal (fun v => x / p * v) H0) as H2'; cbv beta in H2'
       end.
  all: repeat split; lra.
Qed.

Lemma eliminate_column_1_spec (s : @system R) :
  is_3x3 s -> A_get s 1 0 = 0 -> A_get s 2 0 = 0 -> A_get s 0 0 <> 0 ->
  det3 s <> 0 ->
  let s' := eliminate_column s 1 in
  is_3x3 s' /\ A_get s' 1 0 = 0 /\ A_get s' 2 0 = 0 /\ A_get s' 2 1 = 0 /\
  A_get s' 0 0 <> 0 /\ A_get s' 1 1 <> 0 /\ A_get s' 2 2 <> 0 /\
  forall c0 c1 c2, solves s' c0 c1 c2 -> solves s c0 c1 c2.
Proof.
  intros Hs. explicit s Hs.
  unfold det3, solves, is_3x3, explicit_system, eliminate_column, find_pivot.
  rcbn. intros -> -> Hp0 Hdet.
  destruct (Rltb (Rabs a11) (Rabs a21)) eqn:E1; rcbn.
  - assert (Hp : a21 <> 0) by (eapply Rabs_lt_nonzero; eassumption).
    split; [reflexivity|]. split; [reflexivity|]. split; [reflexivity|].
    split; [field; exact Hp|]. split; [exact Hp0|]. split; [exact Hp|].
    split.
    + intros Hz. apply Hdet.
      transitivity (- (a00 * a21 * (a12 - a11 / a21 * a22))); [field; exact Hp|].
      rewrite Hz. ring.
    + intros c0 c1 c2 (H0 & H1 & H2).
      pose proof (f_equal (fun v => a11 / a21 * v) H1) as H2'. cbv beta in H2'.
      repeat split; lra.
  - assert (Hp : a11 <> 0).
    { intros Hp. pose proof (Rabs_le_zero _ _ E1 Hp). subst. apply Hdet. ring. }
    split; [reflexivity|]. split; [reflexivity|]. split; [reflexivity|].
    split; [field; exact Hp|]. split; [exact Hp0|]. split; [exact Hp|].
    split.
    + intros Hz. apply Hdet.
      transitivity (a00 * a11 * (a22 - a21 / a11 * a12)); [field; exact Hp|].
      rewrite Hz. ring.
    + intros c0 c1 c2 (H0 & H1 & H2).
      pose proof (f_equal (fun v => a21 / a11 * v) H1) as H2'. cbv beta in H2'.
      repeat split; lra.
Qed.

Lemma eliminate_column_2_spec (s : @system R) :
  is_3x3 s -> eliminate_column s 2 = s.
Proof.
  intros Hs. explicit s Hs. reflexivity.
Qed.

Lemma back_substitute_spec (s : @system R) :
  is_3x3 s -> A_get s 1 0 = 0 -> A_get s 2 0 = 0 -> A_get s 2 1 = 0 ->
  A_get s 0 0 <> 0 -> A_get s 1 1 <> 0 -> A_get s 2 2 <> 0 ->
  let coeffs := back_substitute s in
  solves s (vget coeffs 0) (vget coeffs 1) (vget coeffs 2).
Proof.
  intros Hs. explicit s Hs.
  unfold solves, back_substitute. rcbn. intros -> -> -> H0 H1 H2.
  repeat split; field; auto.
Qed.

Lemma gaussian_elimination_solves (s : @system R) :
  is_3x3 s -> det3 s <> 0 ->
  let coeffs := back_substitute (gaussian_elimination s) in
  solves s (vget coeffs 0) (vget coeffs 1) (vget coeffs 2).
Proof.
  intros Hs Hdet. unfold gaussian_elimination. cbn [fold_left seq].
  destruct (eliminate_column_0_spec s Hs Hdet) as (Hs1 & Z10 & Z20 & P0 & Hdet1 & Hsol1).
  destruct (eliminate_column_1_spec _ Hs1 Z10 Z20 P0 Hdet1)
    as (Hs2 & Y10 & Y20 & Y21 & Q0 & Q1 & Q2 & Hsol2).
  rewrite eliminate_column_2_spec by done.
  cbv zeta. apply Hsol1, Hsol2.
  by apply back_substitute_spec.
Qed.

Local Abbreviation psum f l := (Rlist_sum (map (f : R * R -> R) l)).

Lemma power_sums_fold (l : list (R * R)) (s : PowerSums) :
  fold_left sums_step l s =
  {| S_x := S_x s + psum (fun p => p.1) l;
     S_y := S_y s + psum (fun p => p.2) l;
     S_xx := S_xx s + psum (fun p => p.1 * p.1) l;
     S_xy := S_xy s + psum (fun p => p.1 * p.2) l;
     S_xxx := S_xxx s + psum (fun p => p.1 * (p.1 * p.1)) l;
     S_xxy := S_xxy s + psum (fun p => p.1 * p.1 * p.2) l;
     S_xxxx := S_xxxx s + psum (fun p => p.1 * p.1 * (p.1 * p.1)) l |}.
Proof.
  revert s. induction l as [|p l IH]; intros s.
  - destruct s. simpl. unfold Rlist_sum. simpl. f_equal; lra.
  - simpl fold_left. rewrite IH. unfold sums_step, Rlist_sum. simpl.
    f_equal; lra.
Qed.

Lemma psum_length (l : list (R * R)) : psum (fun _ => 1) l = INR (length l).
Proof.
  induction l as [|p l IH]; [done|].
  cbn [map length]. rewrite S_INR. unfold Rlist_sum in *. simpl. rewrite IH. lra.
Qed.

Lemma vget3_0 (a b c : R) : vget [a; b; c] 0 = a.
Proof. reflexivity. Qed.

Lemma vget3_1 (a b c : R) : vget [a; b; c] 1 = b.
Proof. reflexivity. Qed.

Lemma vget3_2 (a b c : R) : vget [a; b; c] 2 = c.
Proof. reflexivity. Qed.

Lemma normal_equations_3x3 n s : is_3x3 (normal_equations n s).
Proof. reflexivity. Qed.

(** The coefficients [polyfit] returns: the solution of the normal
    equations, read back highest power first. *)
Lemma polyfit_solves (x y : list R) :
  let s := normal_equations (length x) (power_sums x y) in
  det3 s <> 0 ->
  solves s (vget (polyfit x y) 2) (vget (polyfit x y) 1) (vget (polyfit x y) 0).
Proof.
  intros s Hdet.
  pose proof (gaussian_elimination_solves s (normal_equations_3x3 _ _) Hdet) as Hsol.
  cbv zeta in Hsol. unfold polyfit. cbv zeta. fold s.
  generalize dependent (back_substitute (gaussian_elimination s)).
  intros coeffs Hsol.
  by rewrite (vget3_0 (vget coeffs 2)), (vget3_1 (vget coeffs 2)),
    (vget3_2 (vget coeffs 2)).
Qed.

Lemma psum_residual (f : R * R -> R) (c2 c1 c0 : R) (l : list (R * R)) :
  psum (fun p => (p.2 - (c2 * p.1 * p.1 + c1 * p.1 + c0)) * f p) l =
  psum (fun p => p.2 * f p) l
  - c2 * psum (fun p => p.1 * p.1 * f p) l
  - c1 * psum (fun p => p.1 * f p) l
  - c0 * psum f l.
Proof.
  induction l as [|p l IH]; unfold Rlist_sum in *; simpl; [lra|].
  rewrite IH. lra.
Qed.

Lemma psum_ext (f g : R * R -> R) l :
  (forall p, f p = g p) -> psum f l = psum g l.
Proof. intros Hfg. f_equal. apply map_ext. exact Hfg. Qed.

(** The three normal equations, read on the residuals. *)
Lemma polyfit_least_squares_det (x y : list R) :
  length x = length y ->
  det3 (normal_equations (length x) (power_sums x y)) <> 0 ->
  let res := residuals (polyfit x y) x y in
  Rlist_sum (map (fun p => p.2) res) = 0 /\
  Rlist_sum (map (fun p => p.2 * p.1) res) = 0 /\
  Rlist_sum (map (fun p => p.2 * (p.1 * p.1)) res) = 0.
Proof.
  intros Hlen Hdet.
  pose proof (polyfit_solves x y Hdet) as Hsol.
  cbv zeta. unfold residuals. rewrite !map_map. cbn [fst snd].
  unfold continuation_value. simpl d_add. simpl d_mul.
  set (k2 := vget (polyfit x y) 0) in *. clearbody k2.
  set (k1 := vget (polyfit x y) 1) in *. clearbody k1.
  set (k0 := vget (polyfit x y) 2) in *. clearbody k0.
  unfold solves, normal_equations, power_sums in Hsol.
  rewrite power_sums_fold in Hsol. rcbn_in Hsol.
  assert (Hn : INR (length x) = psum (fun _ => 1) (zip x y)).
  { rewrite psum_length, length_zip, <- Hlen, Nat.min_id. done. }
  rewrite <- INR_IZR_INZ, Hn in Hsol.
  destruct Hsol as (H0 & H1 & H2).
  set (l := zip x y) in *.
  assert (R0 : psum (fun p => (p.2 - (k2 * p.1 * p.1 + k1 * p.1 + k0))
                              * 1) l = 0).
  { rewrite psum_residual.
    rewrite (psum_ext (fun p => p.2 * 1) (fun p => p.2)) by (intros; lra).
    rewrite (psum_ext (fun p => p.1 * p.1 * 1) (fun p => p.1 * p.1)) by (intros; lra).
    rewrite (psum_ext (fun p => p.1 * 1) (fun p => p.1)) by (intros; lra).
    lra. }
  assert (R1 : psum (fun p => (p.2 - (k2 * p.1 * p.1 + k1 * p.1 + k0))
                              * p.1) l = 0).
  { rewrite psum_residual.
    rewrite (psum_ext (fun p => p.2 * p.1) (fun p => p.1 * p.2)) by (intros; lra).
    rewrite (psum_ext (fun p => p.1 * p.1 * p.1) (fun p => p.1 * (p.1 * p.1)))
      by (intros; lra).
    change (map fst l) with (map (fun p : R * R => p.1) l).
    lra. }
  assert (R2 : psum (fun p => (p.2 - (k2 * p.1 * p.1 + k1 * p.1 + k0))
                              * (p.1 * p.1)) l = 0).
  { rewrite psum_residual.
    rewrite (psum_ext (fun p => p.2 * (p.1 * p.1)) (fun p => p.1 * p.1 * p.2))
      by (intros; lra).
    lra. }
  split; [|split].
  - rewrite <- R0. apply psum_ext. intros p. lra.
  - rewrite <- R1. apply psum_ext. intros p. lra.
  - rewrite <- R2. apply psum_ext. intros p. lra.
Qed.

Lemma cramer_unique a00 a01 a02 a10 a11 a12 a20 a21 a22 u0 u1 u2 :
  a00 * (a11 * a22 - a12 * a21) - a01 * (a10 * a22 - a12 * a20)
    + a02 * (a10 * a21 - a11 * a20) <> 0 ->
  a00 * u0 + a01 * u1 + a02 * u2 = 0 ->
  a10 * u0 + a11 * u1 + a12 * u2 = 0 ->
  a20 * u0 + a21 * u1 + a22 * u2 = 0 ->
  u0 = 0 /\ u1 = 0 /\ u2 = 0.
Proof.
  intros Hdet H0 H1 H2.
  set (det := a00 * (a11 * a22 - a12 * a21) - a01 * (a10 * a22 - a12 * a20)
              + a02 * (a10 * a21 - a11 * a20)) in *.
  assert (E0 : det * u0 = 0).
  { transitivity ((a11 * a22 - a12 * a21) * (a00 * u0 + a01 * u1 + a02 * u2)
                  - (a01 * a22 - a02 * a21) * (a10 * u0 + a11 * u1 + a12 * u2)
                  + (a01 * a12 - a02 * a11) * (a20 * u0 + a21 * u1 + a22 * u2));
      [unfold det; ring|rewrite H0, H1, H2; ring]. }
  assert (E1 : det * u1 = 0).
  { transitivity (- (a10 * a22 - a12 * a20) * (a00 * u0 + a01 * u1 + a02 * u2)
                  + (a00 * a22 - a02 * a20) * (a10 * u0 + a11 * u1 + a12 * u2)
                  - (a00 * a12 - a02 * a10) * (a20 * u0 + a21 * u1 + a22 * u2));
      [unfold det; ring|rewrite H0, H1, H2; ring]. }
  assert (E2 : det * u2 = 0).
  { transitivity ((a10 * a21 - a11 * a20) * (a00 * u0 + a01 * u1 + a02 * u2)
                  - (a00 * a21 - a01 * a20) * (a10 * u0 + a11 * u1 + a12 * u2)
                  + (a00 * a11 - a01 * a10) * (a20 * u0 + a21 * u1 + a22 * u2));
      [unfold det; ring|rewrite H0, H1, H2; ring]. }
  repeat split.
  - by destruct (Rmult_integral _ _ E0).
  - by destruct (Rmult_integral _ _ E1).
  - by destruct (Rmult_integral _ _ E2).
Qed.

Lemma psum_quadratic (f : R * R -> R) (c2 c1 c0 : R) (x : list R) :
  let l := zip x (map (quadratic c2 c1 c0) x) in
  psum (fun p => p.2 * f p) l =
  c2 * psum (fun p => p.1 * p.1 * f p) l
  + c1 * psum (fun p => p.1 * f p) l
  + c0 * psum f l.
Proof.
  induction x as [|xi x IH]; unfold Rlist_sum in *; simpl; [lra|].
  cbv zeta in IH. rewrite IH. unfold quadratic. lra.
Qed.

(** Data on a quadratic, with normal equations that are not singular. *)
Lemma polyfit_recovers_quadratic_det (c2 c1 c0 : R) (x : list R) :
  let y := map (quadratic c2 c1 c0) x in
  det3 (normal_equations (length x) (power_sums x y)) <> 0 ->
  polyfit x y = [c2; c1; c0].
Proof.
  intros y Hdet.
  pose proof (polyfit_solves x y Hdet) as Hsol.
  assert (Hk : vget (polyfit x y) 2 = c0 /\ vget (polyfit x y) 1 = c1 /\
               vget (polyfit x y) 0 = c2).
  { set (k2 := vget (polyfit x y) 0) in *. clearbody k2.
    set (k1 := vget (polyfit x y) 1) in *. clearbody k1.
    set (k0 := vget (polyfit x y) 2) in *. clearbody k0.
    unfold det3, solves, normal_equations, power_sums in Hsol, Hdet.
    rewrite power_sums_fold in Hsol, Hdet. rcbn_in Hsol. rcbn_in Hdet.
    assert (Hn : INR (length x) = psum (fun _ => 1) (zip x y)).
    { rewrite psum_length, length_zip. unfold y.
      by rewrite length_map, Nat.min_id. }
    rewrite <- INR_IZR_INZ, Hn in Hsol, Hdet.
    pose proof (psum_quadratic (fun _ => 1) c2 c1 c0 x) as Q0.
    pose proof (psum_quadratic (fun p => p.1) c2 c1 c0 x) as Q1.
    pose proof (psum_quadratic (fun p => p.1 * p.1) c2 c1 c0 x) as Q2.
    cbv zeta in Q0, Q1, Q2. fold y in Q0, Q1, Q2.
    set (l := zip x y) in *.
    rewrite (psum_ext (fun p => p.2 * 1) (fun p => p.2)) in Q0 by (intros; lra).
    rewrite (psum_ext (fun p => p.1 * p.1 * 1) (fun p => p.1 * p.1)) in Q0
      by (intros; lra).
    rewrite (psum_ext (fun p => p.1 * 1) (fun p => p.1)) in Q0 by (intros; lra).
    rewrite (psum_ext (fun p => p.2 * p.1) (fun p => p.1 * p.2)) in Q1
      by (intros; lra).
    rewrite (psum_ext (fun p => p.1 * p.1 * p.1) (fun p => p.1 * (p.1 * p.1))) in Q1
      by (intros; lra).
    rewrite (psum_ext (fun p => p.2 * (p.1 * p.1)) (fun p => p.1 * p.1 * p.2)) in Q2
      by (intros; lra).
    change (map fst l) with (map (fun p : R * R => p.1) l) in *.
    revert Hdet Hsol Q0 Q1 Q2.
    generalize (psum (fun _ => 1) l) (psum (fun p => p.1) l)
               (psum (fun p => p.1 * p.1) l) (psum (fun p => p.1 * (p.1 * p.1)) l)
               (psum (fun p => p.1 * p.1 * (p.1 * p.1)) l)
               (psum (fun p => p.2) l) (psum (fun p => p.1 * p.2) l)
               (psum (fun p => p.1 * p.1 * p.2) l).
    intros n sx sxx sxxx sxxxx sy sxy sxxy Hdet (H0 & H1 & H2) Q0 Q1 Q2.
    destruct (cramer_unique n (0 + sx) (0 + sxx) (0 + sx) (0 + sxx) (0 + sxxx)
                (0 + sxx) (0 + sxxx) (0 + sxxxx)
                (k0 - c0) (k1 - c1) (k2 - c2) Hdet
                ltac:(lra) ltac:(lra) ltac:(lra)) as (U0 & U1 & U2).
    repeat split; lra. }
  destruct Hk as (Hk0 & Hk1 & Hk2). revert Hk0 Hk1 Hk2.
  unfold polyfit. cbv zeta.
  generalize (back_substitute
                (gaussian_elimination (normal_equations (length x) (power_sums x y)))).
  intros coeffs. rewrite vget3_0, vget3_1, vget3_2. by intros -> -> ->.
Qed.

(** *** Three distinct abscissas make the normal equations regular *)

Local Abbreviation qsum g x := (Rlist_sum (map (g : R -> R) x)).

Lemma psum_fst (g : R -> R) (x y : list R) :
  length x = length y -> psum (fun p => g p.1) (zip x y) = qsum g x.
Proof.
  intros Hlen. rewrite <- (fst_zip x y) at 2 by lia.
  by rewrite <- list_fmap_compose.
Qed.

Lemma quadratic_form (x : list R) (c0 c1 c2 : R) :
  qsum (fun t => (c0 + c1 * t + c2 * (t * t)) * (c0 + c1 * t + c2 * (t * t))) x =
  INR (length x) * (c0 * c0) + 2 * qsum (fun t => t) x * (c0 * c1)
  + qsum (fun t => t * t) x * (2 * c0 * c2 + c1 * c1)
  + 2 * qsum (fun t => t * (t * t)) x * (c1 * c2)
  + qsum (fun t => t * t * (t * t)) x * (c2 * c2).
Proof.
  induction x as [|t x IH]; unfold Rlist_sum in *.
  - simpl. lra.
  - cbn [map fold_right length]. rewrite S_INR, IH. lra.
Qed.

Lemma sum_of_squares_zero (g : R -> R) (x : list R) :
  qsum (fun t => g t * g t) x = 0 -> forall t, In t x -> g t = 0.
Proof.
  assert (Hnn : forall l, 0 <= qsum (fun t => g t * g t) l).
  { induction l as [|t l IH]; unfold Rlist_sum in *; simpl; [lra|].
    pose proof (Rle_0_sqr (g t)) as Hsq. unfold Rsqr in Hsq. lra. }
  induction x as [|t x IH]; intros Hsum u Hu; [done|].
  unfold Rlist_sum in Hsum. cbn [map fold_right] in Hsum.
  pose proof (Hnn x) as Hx. unfold Rlist_sum in Hx.
  pose proof (Rle_0_sqr (g t)) as Hsq. unfold Rsqr in Hsq.
  destruct Hu as [<-|Hu].
  - assert (Hz : g t * g t = 0) by lra.
    by destruct (Rmult_integral _ _ Hz).
  - apply IH; [|done]. unfold Rlist_sum. lra.
Qed.

Lemma normal_det_nonzero (x : list R) (a b c : R) :
  In a x -> In b x -> In c x -> a <> b -> a <> c -> b <> c ->
  let n := INR (length x) in
  let sx := qsum (fun t => t) x in
  let sxx := qsum (fun t => t * t) x in
  let sxxx := qsum (fun t => t * (t * t)) x in
  let sxxxx := qsum (fun t => t * t * (t * t)) x in
  n * (sxx * sxxxx - sxxx * sxxx) - sx * (sx * sxxxx - sxxx * sxx)
    + sxx * (sx * sxxx - sxx * sxx) <> 0.
Proof.
  intros Ha Hb Hc Hab Hac Hbc n sx sxx sxxx sxxxx Hdet.
  (* the last column of the adjugate is in the kernel *)
  set (v0 := sx * sxxx - sxx * sxx).
  set (v1 := - (n * sxxx - sxx * sx)).
  set (v2 := n * sxx - sx * sx).
  assert (Hq : qsum (fun t => (v0 + v1 * t + v2 * (t * t))
                              * (v0 + v1 * t + v2 * (t * t))) x = 0).
  { rewrite quadratic_form. fold n sx sxx sxxx sxxxx.
    transitivity (v2 * (n * (sxx * sxxxx - sxxx * sxxx)
                        - sx * (sx * sxxxx - sxxx * sxx)
                        + sxx * (sx * sxxx - sxx * sxx)));
      [unfold v0, v1, v2; ring|rewrite Hdet; ring]. }
  pose proof (sum_of_squares_zero (fun t => v0 + v1 * t + v2 * (t * t)) x Hq) as Hroot.
  pose proof (Hroot a Ha) as Ra. pose proof (Hroot b Hb) as Rb.
  pose proof (Hroot c Hc) as Rc. cbv beta in Ra, Rb, Rc.
  assert (Hv2 : v2 = 0).
  { assert (E1 : (a - b) * (v1 + v2 * (a + b)) = 0) by lra.
    assert (E2 : (a - c) * (v1 + v2 * (a + c)) = 0) by lra.
    destruct (Rmult_integral _ _ E1) as [|E1']; [lra|].
    destruct (Rmult_integral _ _ E2) as [|E2']; [lra|].
    assert (E3 : (b - c) * v2 = 0) by lra.
    destruct (Rmult_integral _ _ E3); [lra|done]. }
  (* then all abscissas are equal *)
  assert (Hw : qsum (fun t => (sx + (- n) * t + 0 * (t * t))
                              * (sx + (- n) * t + 0 * (t * t))) x = 0).
  { rewrite quadratic_form. fold n sx sxx sxxx sxxxx.
    transitivity (n * v2); [unfold v2; ring|rewrite Hv2; ring]. }
  pose proof (sum_of_squares_zero (fun t => sx + (- n) * t + 0 * (t * t)) x Hw)
    as Hall.
  pose proof (Hall a Ha) as Wa. pose proof (Hall b Hb) as Wb. cbv beta in Wa, Wb.
  assert (Hn : 0 < n).
  { unfold n. destruct x as [|t x]; [done|]. rewrite length_cons, S_INR.
    pose proof (pos_INR (length x)). lra. }
  assert (E : n * (a - b) = 0) by lra.
  destruct (Rmult_integral _ _ E); lra.
Qed.

Lemma normal_equations_regular (x y : list R) (a b c : R) :
  length x = length y ->
  In a x -> In b x -> In c x -> a <> b -> a <> c -> b <> c ->
  det3 (normal_equations (length x) (power_sums x y)) <> 0.
Proof.
  intros Hlen Ha Hb Hc Hab Hac Hbc.
  pose proof (normal_det_nonzero x a b c Ha Hb Hc Hab Hac Hbc) as Hdet.
  cbv zeta in Hdet.
  unfold det3, normal_equations, power_sums. rewrite power_sums_fold. rcbn.
  rewrite <- INR_IZR_INZ.
  rewrite (psum_fst (fun t => t) x y Hlen).
  rewrite (psum_fst (fun t => t * t) x y Hlen).
  rewrite (psum_fst (fun t => t * (t * t)) x y Hlen).
  rewrite (psum_fst (fun t => t * t * (t * t)) x y Hlen).
  intros Hz. apply Hdet. rewrite <- Hz. ring.
Qed.

(** Property X12. In exact arithmetic, on data with at least three distinct
    abscissas, the quadratic [polyfit] returns is the least-squares
    one: its residuals over the data sum to zero, and so do the residuals
    weighted by [x] and by [x * x]. *)
Theorem polyfit_least_squares (x y : list R) (a b c : R) :
  length x = length y ->
  In a x -> In b x -> In c x -> a <> b -> a <> c -> b <> c ->
  let res := residuals (polyfit x y) x y in
  Rlist_sum (map (fun p => p.2) res) = 0 /\
  Rlist_sum (map (fun p => p.2 * p.1) res) = 0 /\
  Rlist_sum (map (fun p => p.2 * (p.1 * p.1)) res) = 0.
Proof.
  intros Hlen Ha Hb Hc Hab Hac Hbc.
  apply polyfit_least_squares_det; [done|].
  by apply (normal_equations_regular x y a b c).
Qed.

(** Property X13. In exact arithmetic, data that lie on a quadratic and have at
    least three distinct abscissas are fitted by that quadratic:
    [polyfit] returns its three coefficients, highest power first. *)
Theorem polyfit_recovers_quadratic (c2 c1 c0 : R) (x : list R) (a b c : R) :
  In a x -> In b x -> In c x -> a <> b -> a <> c -> b <> c ->
  polyfit x (map (quadratic c2 c1 c0) x) = [c2; c1; c0].
Proof.
  intros Ha Hb Hc Hab Hac Hbc.
  apply polyfit_recovers_quadratic_det.
  apply (normal_equations_regular x _ a b c); try done.
  by rewrite length_map.
Qed.
End PolyfitReal.

(** ** Paths that are never exercised early, and the price as a sum *)

Section TerminalSurvives.
Context {D : Type} `{DoubleOps D} `{NormalStream D}.
Variable batch_size : nat.
Variable omp : OmpRuntime.

Lemma backward_keeps_row (L : Layout D) N M wf (laws : LayoutLaws L N (M + 1) wf)
    (S : nat -> nat -> D) K r dt cf i :
  wf cf -> (i < N)%nat ->
  (forall t, (1 <= t < M)%nat -> d_gt (d_sub K (S i t)) d_zero = false) ->
  forall j, (j <= M)%nat ->
    t_get L (backward_down_to L S K r dt N M 1 cf) i j = t_get L cf i j.
Proof.
  intros Hwf Hi Hotm j Hj. unfold backward_down_to.
  enough (Hboth : wf (fold_left (process_date L S K r dt N M) (dates_down_to M 1) cf) /\
                  t_get L (fold_left (process_date L S K r dt N M)
                             (dates_down_to M 1) cf) i j = t_get L cf i j)
    by apply Hboth.
  apply (fold_left_invariant _
           (fun cf' => wf cf' /\ t_get L cf' i j = t_get L cf i j)); [done|].
  intros cf' t Ht [Hwf' Heq].
  unfold dates_down_to in Ht. apply in_rev, in_seq in Ht.
  apply (process_date_invariant L N M S K r dt
           (fun cf'' => wf cf'' /\ t_get L cf'' i j = t_get L cf i j)); [done|].
  intros cf'' i0 Hi0 Hitm [Hwf'' Heq''].
  split; [by apply (exercise_update_wf L N M wf laws)|].
  rewrite (exercise_update_get L N M wf laws) by (done || lia).
  case_decide as Hd; [|done]. subst i0.
  rewrite Hotm in Hitm by lia. done.
Qed.

(** Property X2. A path that is out of the money at every interior date is never
    touched by the backward induction: in the final table it holds its
    terminal payoff [max(0, K - S(i, num_steps))] at the last date and
    zero before. *)
Theorem out_of_the_money_keeps_terminal (b : Backend) arena S0 K T r sigma
    num_paths num_steps seed run a' :
  1 <= num_paths -> 1 <= num_steps ->
  lsm_run batch_size omp b arena S0 K T r sigma num_paths num_steps seed
    = (Ok run, a') ->
  let N := Z.to_nat num_paths in
  let M := Z.to_nat num_steps in
  let L := backend_layout b (Z.to_nat (num_steps + 1)) in
  let S := t_get L (run_S run) in
  let CF := t_get L (run_CF run) in
  forall i, (i < N)%nat ->
    (forall t, (1 <= t < M)%nat -> d_gt (d_sub K (S i t)) d_zero = false) ->
    CF i M = d_max d_zero (d_sub K (S i M)) /\
    forall j, (j < M)%nat -> CF i j = d_zero.
Proof.
  intros HN HM Hrun.
  destruct (lsm_run_ok batch_size omp b arena S0 K T r sigma num_paths num_steps
              seed run a' ltac:(lia) ltac:(lia) Hrun) as (_ & HCF & _).
  cbv zeta. rewrite HCF. unfold cash_flow_table, backward_induction.
  generalize (run_S run). clear HCF Hrun run. unfold backend_table.
  rewrite (cols_succ num_steps) by lia.
  set (N := Z.to_nat num_paths). set (M := Z.to_nat num_steps).
  intros Slat i Hi Hotm.
  pose proof (backend_laws b N (M + 1)) as laws.
  pose proof (cf0_wf _ N M _ laws (t_get _ Slat) K) as Hwf0.
  split.
  - rewrite (backward_keeps_row _ N M _ laws) by (done || lia).
    rewrite (terminal_payoffs_get _ N M _ laws)
      by (done || lia || apply (wf_zero _ _ _ _ laws)).
    by rewrite decide_True.
  - intros j Hj.
    rewrite (backward_keeps_row _ N M _ laws) by (done || lia).
    rewrite (terminal_payoffs_get _ N M _ laws)
      by (done || lia || apply (wf_zero _ _ _ _ laws)).
    rewrite decide_False by lia.
    apply (get_zero _ _ _ _ laws); [done|lia].
Qed.
End TerminalSurvives.

Section PriceAsSum.
Context {rng : NormalStream R}.
Existing Instance real_ops.
Variable batch_size : nat.
Variable omp : OmpRuntime.
Local Open Scope R_scope.

(** A sum in which one term at most is not zero. *)
Lemma Rsum_single (f : nat -> R) n k :
  (k < n)%nat -> (forall j, (j < n)%nat -> j <> k -> f j = 0) -> Rsum f n = f k.
Proof.
  intros Hk Hz. induction n as [|n IH]; [lia|]. simpl.
  destruct (decide (k = n)) as [->|Hne].
  - assert (Hzero : Rsum f n = 0).
    { rewrite <- (Rsum_ext (fun _ => 0)).
      - rewrite Rsum_const. lra.
      - intros j Hj. symmetry. apply Hz; lia. }
    lra.
  - rewrite IH by (lia || intros; apply Hz; lia). rewrite (Hz n) by lia. lra.
Qed.

Lemma Rsum_zero (f : nat -> R) n :
  (forall j, (j < n)%nat -> f j = 0) -> Rsum f n = 0.
Proof.
  intros Hz. rewrite <- (Rsum_ext (fun _ => 0)).
  - rewrite Rsum_const. lra.
  - intros j Hj. symmetry. by apply Hz.
Qed.

(** On a row with one exercise at most and no negative entry, the scan
    that stops at the first positive cash flow adds up the whole row. *)
Lemma payoff_or_zero_row_sum (L : Layout R) N M r dt cf i :
  single_exercise L N M cf -> cf_sign L N M cf -> (i < N)%nat ->
  payoff_or_zero L r dt M cf i =
  Rsum (fun k => t_get L cf i (Datatypes.S k)
                 * exp (- r * IZR (Z.of_nat (Datatypes.S k)) * dt)) M.
Proof.
  intros Hone Hsign Hi. unfold payoff_or_zero, path_payoff.
  destruct (first_positive L M cf i 1) as [j|] eqn:Ej.
  - unfold first_positive in Ej.
    apply find_seq_first in Ej as (Hj & Hpos & _).
    unfold d_gt in Hpos. simpl in Hpos. apply Rltb_true in Hpos.
    assert (Hjr : (1 <= j <= M)%nat) by lia.
    rewrite (Rsum_single _ M (j - 1)) by
      (lia || (intros k Hk Hne;
               destruct (Req_dec (t_get L cf i (Datatypes.S k)) 0) as [->|Hnz];
               [lra|];
               assert (Datatypes.S k = j)
                 by (apply (Hone i (Datatypes.S k) j Hi ltac:(lia) Hjr Hnz);
                     simpl; lra);
               lia)).
    replace (Datatypes.S (j - 1)) with j by lia. unfold discount. simpl. done.
  - symmetry. apply Rsum_zero. intros k Hk.
    unfold first_positive in Ej.
    pose proof (find_seq_none _ _ _ Ej (Datatypes.S k) ltac:(lia)) as Hnp.
    unfold d_gt in Hnp. simpl in Hnp. apply Rltb_false in Hnp.
    destruct (Hsign i (Datatypes.S k) Hi ltac:(lia)) as [Hz|Hp].
    + simpl in Hz. rewrite Hz. lra.
    + simpl in Hp. apply Rltb_true in Hp. lra.
Qed.

(** Property X9. In exact arithmetic the value returned is the sum over all paths
    and all dates of the cash-flow table, each entry discounted from its
    date, divided by the number of paths: stopping at a path's first
    positive entry loses nothing, since a path holds one at most. *)
Theorem price_is_discounted_table_sum (b : Backend) arena S0 K T r sigma
    num_paths num_steps seed run a' :
  (1 <= num_paths)%Z -> (1 <= num_steps)%Z ->
  (forall loop i, (omp_thread_num omp loop i < omp_max_threads omp)%nat) ->
  lsm_run batch_size omp b arena S0 K T r sigma num_paths num_steps seed
    = (Ok run, a') ->
  let N := Z.to_nat num_paths in
  let M := Z.to_nat num_steps in
  let CF := t_get (backend_layout b (Z.to_nat (num_steps + 1))) (run_CF run) in
  let dt := T / IZR num_steps in
  run_price run =
    Rsum (fun i =>
            Rsum (fun k => CF i (Datatypes.S k)
                           * exp (- r * IZR (Z.of_nat (Datatypes.S k)) * dt)) M) N
    / IZR num_paths.
Proof.
  intros HN HM Hthr Hrun.
  destruct (lsm_run_ok batch_size omp b arena S0 K T r sigma num_paths num_steps
              seed run a' ltac:(lia) ltac:(lia) Hrun) as (_ & HCF & Htot & Hprice).
  cbv zeta. rewrite Hprice, Htot, backend_total_Rsum by done.
  unfold average. simpl d_div. simpl d_of_int. rewrite Z2Nat.id by lia.
  f_equal. apply Rsum_ext. intros i Hi.
  assert (Hinv : single_exercise (backend_layout b (Z.to_nat (num_steps + 1)))
                   (Z.to_nat num_paths) (Z.to_nat num_steps) (run_CF run) /\
                 cf_sign (backend_layout b (Z.to_nat (num_steps + 1)))
                   (Z.to_nat num_paths) (Z.to_nat num_steps) (run_CF run)).
  { rewrite HCF. unfold cash_flow_table, backward_induction.
    generalize (run_S run). clear HCF Htot Hprice Hrun run. unfold backend_table.
    rewrite (cols_succ num_steps) by lia.
    intros Slat.
    pose proof (backend_laws b (Z.to_nat num_paths) (Z.to_nat num_steps + 1)) as laws.
    split.
    - apply (table_after_single_exercise _ _ _ _ laws). lia.
    - apply (backward_down_to_cf_sign _ _ _ _ laws);
        [apply (cf0_wf _ _ _ _ laws)|apply (cf0_cf_sign _ _ _ _ laws)]. }
  destruct Hinv as [Hone Hsign].
  by apply (payoff_or_zero_row_sum _ (Z.to_nat num_paths)).
Qed.
End PriceAsSum.

(** ** Instances of the theorems on sample inputs *)

Section Witnesses.
Import ArenaModel.
Existing Instance sample_ops.
Existing Instance sample_stream.

Lemma two_threads_ok loop i :
  (omp_thread_num two_threads loop i < omp_max_threads two_threads)%nat.
Proof. apply (Nat.mod_upper_bound i 2). lia. Qed.

Lemma lattice_time0_is_S0_witness :
  exists run a',
    @lsm_run float sample_ops sample_stream 2 two_threads CppUltimate
      sample_arena 100%float 105%float 1%float 0.0625%float 0.25%float 4 3 42 = (Ok run, a') /\
    forall i, (i < 4)%nat -> t_get time_major (run_S run) i 0 = 100%float.
Proof.
  eexists _, _. split; [vm_compute; reflexivity|].
  intros i Hi.
  eapply (@lattice_time0_is_S0 float sample_ops sample_stream 2 two_threads
           CppUltimate sample_arena 100%float 105%float 1%float 0.0625%float 0.25%float 4 3 42 _ _);
    [vm_compute; split; discriminate|lia|lia|apply two_threads_ok
    |vm_compute; reflexivity|exact Hi].
Defined.

Lemma forward_lattice_recurrence_witness :
  exists run a',
    @lsm_run float sample_ops sample_stream 2 two_threads CppMp
      sample_arena 100%float 105%float 1%float 0.0625%float 0.25%float 4 3 42 = (Ok run, a') /\
    t_get (flat 4) (run_S run) 1 0 = 100%float.
Proof.
  eexists _, _. split; [vm_compute; reflexivity|].
  eapply (@forward_lattice_recurrence float sample_ops sample_stream 2
           two_threads CppMp sample_arena 100%float 105%float 1%float 0.0625%float 0.25%float 4 3 42 _ _);
    [vm_compute; split; discriminate|lia|lia|apply two_threads_ok
    |vm_compute; reflexivity|simpl; lia].
Defined.

Lemma single_exercise_cash_flows_witness :
  exists run a',
    @lsm_run float sample_ops sample_stream 2 two_threads CppArena
      sample_arena 100%float 105%float 1%float 0.0625%float 0.25%float 4 3 42
      = (Ok run, a') /\
    single_exercise (flat 4) 4 3 (run_CF run).
Proof.
  eexists _, _. split; [vm_compute; reflexivity|].
  refine (proj1 (proj2 (@single_exercise_cash_flows float sample_ops sample_stream 2
                          two_threads CppArena sample_arena 100%float 105%float 1%float
                          0.0625%float 0.25%float 4 3 42 _ _ _ _ _)));
    [lia|lia|vm_compute; reflexivity].
Defined.

Lemma regression_target_first_positive_witness :
  exists y,
    y_itm path_major sample_lattice 100%float 0%float 1%float 2 2 sample_cash_flows 1 !! 0%nat
      = Some y /\
    ((exists j, (1 < j <= 2)%nat /\
        d_gt (t_get path_major sample_cash_flows 0 j) d_zero = true /\
        (forall j', (1 < j' < j)%nat ->
           d_gt (t_get path_major sample_cash_flows 0 j') d_zero = false) /\
        y = d_mul (t_get path_major sample_cash_flows 0 j)
                  (d_exp (d_mul (d_mul (d_neg 0%float)
                                       (d_of_int (Z.of_nat j - Z.of_nat 1)))
                                1%float))) \/
     ((forall j, (1 < j <= 2)%nat ->
         d_gt (t_get path_major sample_cash_flows 0 j) d_zero = false) /\
      y = d_zero)).
Proof.
  exact (proj2 (proj1 (@regression_target_first_positive float sample_ops path_major
                         sample_lattice 100%float 0%float 1%float 2 2 sample_cash_flows
                         1 0 0 eq_refl))).
Defined.

Lemma lane_mismatch_rejected_witness :
  @price_american_put_lsm_simd float sample_ops sample_stream 4
    100%float 105%float 1%float 0.0625%float 0.25%float 6 3 42 = Throw runtime_error /\
  @price_american_put_lsm_ultimate float sample_ops sample_stream 4 two_threads
    sample_arena 100%float 105%float 1%float 0.0625%float 0.25%float 6 3 42
    = (Throw runtime_error, reset sample_arena).
Proof.
  apply (@lane_mismatch_rejected float sample_ops sample_stream 4 two_threads).
  unfold lane_mismatch. vm_compute. discriminate.
Defined.


Existing Instance real_ops.
Existing Instance sample_stream_R.

Lemma price_nonnegative_witness :
  (exists run a',
     @lsm_run float sample_ops sample_stream 2 two_threads CppMp sample_arena
       100%float 105%float 1%float 0.0625%float 0.25%float 4 3 42 = (Ok run, a') /\
     run_price run = (run_total run / 4)%float) /\
  (exists run a',
     @lsm_run R real_ops sample_stream_R 2 two_threads Cpp sample_arena
       100%R 105%R 1%R (1 / 20)%R (1 / 5)%R 4 3 42 = (Ok run, a') /\
     (0 <= run_price run)%R).
Proof.
  split.
  - eexists _, _. split; [vm_compute; reflexivity|].
    refine (proj2 (proj2 (proj1 (@price_nonnegative sample_stream_R 2 two_threads CppMp
                                   sample_arena 4 3 42 _ _)
                            float sample_ops sample_stream
                            100%float 105%float 1%float 0.0625%float 0.25%float
                            _ _ _)));
      [lia|lia|vm_compute; reflexivity].
  - eexists _, _. split; [reflexivity|].
    refine (proj2 (proj2 (proj2 (@price_nonnegative sample_stream_R 2 two_threads Cpp
                                   sample_arena 4 3 42 _ _)
                            100%R 105%R 1%R (1 / 20)%R (1 / 5)%R _ _ _ _ _)));
      [lia|lia|lra|apply two_threads_ok|reflexivity].
Defined.

Lemma single_step_is_european_witness :
  (exists run a',
     @lsm_run float sample_ops sample_stream 2 two_threads CppSimd sample_arena
       100%float 105%float 1%float 0.0625%float 0.25%float 4 1 42 = (Ok run, a') /\
     run_price run = (run_total run / 4)%float) /\
  (exists run a',
     @lsm_run R real_ops sample_stream_R 2 two_threads Cpp sample_arena
       100%R 105%R 1%R (1 / 20)%R (1 / 5)%R 4 1 42 = (Ok run, a') /\
     run_price run =
       (Rsum (fun i => Rmax 0 (105 - t_get (backend_layout Cpp 2) (run_S run) i 1%nat)
                       * Rtrigo_def.exp (- (1 / 20) * 1)) (Z.to_nat 4) / IZR 4)%R).
Proof.
  split.
  - eexists _, _. split; [vm_compute; reflexivity|].
    refine (proj2 (proj2 (proj2 (proj2
             (proj1 (@single_step_is_european sample_stream_R 2 two_threads CppSimd
                       sample_arena 4 42 _)
                float sample_ops sample_stream
                100%float 105%float 1%float 0.0625%float 0.25%float _ _ _)))));
      [lia|vm_compute; reflexivity].
  - eexists _, _. split; [reflexivity|].
    refine (proj2 (@single_step_is_european sample_stream_R 2 two_threads Cpp
                     sample_arena 4 42 _)
              100%R 105%R 1%R (1 / 20)%R (1 / 5)%R _ _ _ _ _);
      [lia|lra|apply two_threads_ok|reflexivity].
Defined.

End Witnesses.

(** ** The claims that fail, on concrete inputs *)

Section Counterexamples.
#[local] Set Warnings "-inexact-float".
Import ArenaModel.
Existing Instance sample_ops.
Existing Instance sample_stream.


(** Claim C3 as stated fails: on a lane-width mismatch the ultimate
    variant has already reset the arena it was given (offset 64 before
    the call, 0 after it). *)
Lemma ultimate_resets_arena_counterexample :
  offset sample_arena = 64 /\
  price_american_put_lsm_ultimate 4 two_threads sample_arena
    100%float 105%float 1%float 0.0625%float 0.25%float 6 3 42
    = (Throw runtime_error, mkArena 4096 0).
Proof. split; vm_compute; reflexivity. Qed.


(** The value above does not depend on the stand-in exponential: the
    only arguments it is given are zeros. *)
Lemma degenerate_price_any_exp (other : float -> float) :
  @price_american_put_lsm_cpp float (float_ops (exp_at_zero other)) sample_stream
    36.4%float 46.5%float 1%float 0%float 0%float 7 2 42
  = Ok 10.100000000000003%float.
Proof. vm_compute. reflexivity. Qed.

(** Claim C4 as stated fails in double arithmetic. With [S0 = 36.4],
    [K = 46.5], [r = 0], [sigma = 0], seven paths and one step, the
    discounted terminal payoff of every path is 10.100000000000001,
    and so is their average; yet the value returned, their rounded
    sum 70.70000000000002 divided by 7, is 10.100000000000003. *)
Lemma european_average_counterexample :
  exists run,
    lsm_cpp_run 36.4%float 46.5%float 1%float 0%float 0%float 7 1 42 = Ok run /\
    map (path_payoff path_major 0%float (1 / 1)%float 1 (run_CF run)) (seq 0 7)
      = replicate 7 (Some 10.100000000000001%float) /\
    run_total run = 70.700000000000017%float /\
    run_price run = 10.100000000000003%float /\
    PrimFloat.eqb (run_price run) 10.100000000000001%float = false.
Proof. eexists. repeat split; vm_compute; reflexivity. Qed.

(** This value, too, is the same for every exponential that is exact
    at zero. *)
Lemma european_average_any_exp (other : float -> float) :
  @price_american_put_lsm_cpp float (float_ops (exp_at_zero other)) sample_stream
    36.4%float 46.5%float 1%float 0%float 0%float 7 1 42
  = Ok 10.100000000000003%float.
Proof. vm_compute. reflexivity. Qed.

(** Claim C10 as stated fails in double arithmetic; the preconditions
    leave [S0] free. With [S0 = -1e308], [K = 1e308], [T = 1],
    [r = 1000], [sigma = 0.2], one path and one step, the growth
    factor [exp(1000.08)] overflows to [+infinity], the price at
    maturity is [-infinity] and the terminal payoff [+infinity]; its
    discount factor [exp(-1000)] underflows to 0, and their product
    is NaN: the total and the value returned are NaN, which is not at
    least 0. *)
Lemma price_nan_counterexample :
  exists run,
    @lsm_cpp_run float (float_ops (exp_out_of_range (fun x => (1 + x + x * x / 2)%float)))
      sample_stream (-1e308)%float 1e308%float 1%float 1000%float 0.2%float 1 1 42
      = Ok run /\
    t_get path_major (run_S run) 0 1 = neg_infinity /\
    t_get path_major (run_CF run) 0 1 = infinity /\
    run_total run = nan /\
    run_price run = nan /\
    PrimFloat.leb 0 (run_price run) = false.
Proof. eexists. repeat split; vm_compute; reflexivity. Qed.

(** The exponential is only asked outside the range of binary64, so
    the value is the same whatever it answers inside. *)
Lemma price_nan_any_exp (other : float -> float) :
  @price_american_put_lsm_cpp float (float_ops (exp_out_of_range other)) sample_stream
    (-1e308)%float 1e308%float 1%float 1000%float 0.2%float 1 1 42
  = Ok nan.
Proof. vm_compute. reflexivity. Qed.
End Counterexamples.

(** ** Instances of the further properties on sample inputs *)

Section FurtherWitnesses.
Import ArenaModel.
Existing Instance sample_ops.
Existing Instance sample_stream.

Ltac concrete :=
  first [ reflexivity
        | vm_compute; first [ reflexivity | discriminate
                            | split; first [discriminate | reflexivity] ] ].

Lemma one_thread_single : single_threaded one_thread.
Proof. by split. Qed.

Lemma arena_matches_scalar_witness :
  exists run a',
    @lsm_arena_run float sample_ops sample_stream sample_arena
      100%float 105%float 1%float 0.0625%float 0.25%float 4 3 42 = (Ok run, a') /\
    price_american_put_lsm_cpp 100%float 105%float 1%float 0.0625%float 0.25%float
      4 3 42 = Ok (run_price run).
Proof.
  eexists _, _. split; [vm_compute; reflexivity|].
  destruct (@arena_matches_scalar float sample_ops sample_stream sample_arena
              100%float 105%float 1%float 0.0625%float 0.25%float 4 3 42 _ _
              ltac:(lia) ltac:(lia) ltac:(lia) ltac:(vm_compute; reflexivity))
    as (run_c & _ & _ & _ & _ & _ & Hp).
  exact Hp.
Defined.

Lemma mp_single_thread_matches_scalar_witness :
  exists run a' run_c,
    @lsm_mp_run float sample_ops sample_stream one_thread sample_arena
      100%float 105%float 1%float 0.0625%float 0.25%float 4 3 42 = (Ok run, a') /\
    lsm_cpp_run 100%float 105%float 1%float 0.0625%float 0.25%float 4 3 42
      = Ok run_c /\
    run_total run = d_add d_zero (run_total run_c).
Proof.
  eexists _, _.
  destruct (@mp_single_thread_matches_scalar float sample_ops sample_stream one_thread
              sample_arena 100%float 105%float 1%float 0.0625%float 0.25%float 4 3 42
              _ _ one_thread_single ltac:(lia) ltac:(lia) ltac:(lia)
              ltac:(vm_compute; reflexivity))
    as (run_c & Hc & _ & _ & Ht & _).
  exists run_c. split; [vm_compute; reflexivity|]. split; [exact Hc|exact Ht].
Defined.

Lemma ultimate_single_thread_matches_simd_witness :
  exists run a' run_s,
    @lsm_ultimate_run float sample_ops sample_stream 2 one_thread sample_arena
      100%float 105%float 1%float 0.0625%float 0.25%float 4 3 42 = (Ok run, a') /\
    lsm_simd_run 2 100%float 105%float 1%float 0.0625%float 0.25%float 4 3 42
      = Ok run_s /\
    run_total run = d_add d_zero (run_total run_s).
Proof.
  eexists _, _.
  destruct (@ultimate_single_thread_matches_simd float sample_ops sample_stream 2
              one_thread sample_arena 100%float 105%float 1%float 0.0625%float
              0.25%float 4 3 42 _ _ one_thread_single ltac:(lia)
              ltac:(vm_compute; split; discriminate) ltac:(lia)
              ltac:(vm_compute; reflexivity))
    as (run_s & Hs & _ & _ & Ht & _).
  exists run_s. split; [vm_compute; reflexivity|]. split; [exact Hs|exact Ht].
Defined.

Lemma cash_flows_are_exercise_values_witness :
  exists run a',
    @lsm_run float sample_ops sample_stream 2 two_threads CppSimd
      sample_arena 100%float 105%float 1%float 0.0625%float 0.25%float 4 3 42
      = (Ok run, a') /\
    t_get time_major (run_CF run) 1 0 = 0%float.
Proof.
  eexists _, _. split; [vm_compute; reflexivity|].
  refine (proj1 (@cash_flows_are_exercise_values float sample_ops sample_stream 2
                   two_threads CppSimd sample_arena 100%float 105%float 1%float
                   0.0625%float 0.25%float 4 3 42 _ _ _ _ _ 1%nat _));
    [lia|lia|vm_compute; reflexivity|simpl; lia].
Defined.

Lemma empty_configuration_price_witness :
  exists run a',
    @lsm_run float sample_ops sample_stream 2 two_threads Cpp
      sample_arena 100%float 105%float 1%float 0.0625%float 0.25%float 4 0 42
      = (Ok run, a') /\
    run_price run = (0 / 4)%float.
Proof.
  eexists _, _. split; [vm_compute; reflexivity|].
  refine (proj2 (@empty_configuration_price float sample_ops sample_stream 2
                   two_threads Cpp sample_arena 100%float 105%float 1%float
                   0.0625%float 0.25%float 4 0 42 _ _ _ _ _ _ _));
    [by left|lia|lia|by right|vm_compute; reflexivity].
Defined.

Lemma negative_path_count_throws_witness :
  (@price float sample_ops sample_stream 2 two_threads CppArena sample_arena
     100%float 105%float 1%float 0.0625%float 0.25%float (-4) 3 42).1
  = Throw length_error /\
  (@price float sample_ops sample_stream 2 two_threads CppMp sample_arena
     100%float 105%float 1%float 0.0625%float 0.25%float (-65537) 32767 42).1
  = Throw bad_alloc.
Proof.
  split.
  - refine (proj1 (@negative_path_count_throws float sample_ops sample_stream 2
                     two_threads CppArena sample_arena 100%float 105%float 1%float
                     0.0625%float 0.25%float (-4) 3 42 _ _) _);
      [unfold INT_MIN; lia|unfold INT_MAX; lia|intros _; unfold INT_MIN; lia].
  - refine (proj2 (@negative_path_count_throws float sample_ops sample_stream 2
                     two_threads CppMp sample_arena 100%float 105%float 1%float
                     0.0625%float 0.25%float (-65537) 32767 42 _ _) _ _ _);
      [unfold INT_MIN; lia|unfold INT_MAX; lia|by right
      |vm_compute; reflexivity|vm_compute; reflexivity].
Defined.

Lemma allocate_regions_disjoint_witness :
  offset (mkArena 4096 5) <= 8 /\ 8 mod 2 ^ 3 = 0 /\
  8 + 24 <= 32 /\ 32 mod 2 ^ 2 = 0 /\
  32 + 10 = offset (mkArena 4096 42) /\
  offset (mkArena 4096 42) <= memory_size (mkArena 4096 5) /\
  memory_size (mkArena 4096 42) = memory_size (mkArena 4096 5).
Proof.
  apply (allocate_regions_disjoint (mkArena 4096 5) (mkArena 4096 32)
           (mkArena 4096 42) 24 10 3 2 8 32);
    concrete.
Defined.

Lemma allocate_wraps_around_witness :
  allocate (2 ^ 64 - 64) 1 (mkArena 4096 64)
  = (Ok 64, mkArena 4096 (64 + (2 ^ 64 - 64) - 2 ^ 64)).
Proof.
  refine (proj2 (proj2 (allocate_wraps_around (mkArena 4096 64) (2 ^ 64 - 64)
                          _ _ _ _)));
    concrete.
Defined.

Lemma arena_footprint_witness :
  (@lsm_run float sample_ops sample_stream 2 two_threads CppArena sample_arena
     100%float 105%float 1%float 0.0625%float 0.25%float 4 3 42).2
  = mkArena 4096 (arena_bytes_needed 4 3).
Proof.
  refine (proj2 (proj1 (@arena_footprint float sample_ops sample_stream 2 two_threads
                          CppArena sample_arena 100%float 105%float 1%float
                          0.0625%float 0.25%float 4 3 42 _ _ _ _ _) _));
    [by left|lia|lia|vm_compute; discriminate|vm_compute; discriminate
    |vm_compute; discriminate].
Defined.

Lemma ultimate_footprint_witness :
  (@lsm_ultimate_run float sample_ops sample_stream 2 two_threads sample_arena
     100%float 105%float 1%float 0.0625%float 0.25%float 4 3 42).2
  = mkArena 4096 (ultimate_bytes_needed 4 3).
Proof.
  refine (proj2 (proj1 (proj2 (@ultimate_footprint float sample_ops sample_stream 2
                                 two_threads sample_arena 100%float 105%float 1%float
                                 0.0625%float 0.25%float 4 3 42 _ _ _ _ _)) _));
    [vm_compute; reflexivity|vm_compute; split; discriminate|unfold INT_MAX; lia
    |vm_compute; discriminate|vm_compute; discriminate|vm_compute; discriminate].
Defined.



Lemma out_of_the_money_keeps_terminal_witness :
  exists run a',
    @lsm_run float sample_ops sample_stream 2 two_threads CppMp
      sample_arena 100%float 50%float 1%float 0.0625%float 0.25%float 4 3 42
      = (Ok run, a') /\
    t_get (flat 4) (run_CF run) 0 3
    = d_max 0%float (50 - t_get (flat 4) (run_S run) 0 3)%float.
Proof.
  eexists _, _. split; [vm_compute; reflexivity|].
  refine (proj1 (@out_of_the_money_keeps_terminal float sample_ops sample_stream 2
                   two_threads CppMp sample_arena 100%float 50%float 1%float
                   0.0625%float 0.25%float 4 3 42 _ _ _ _ _ 0%nat _ _));
    [lia|lia|vm_compute; reflexivity|simpl; lia|].
  intros t Ht. assert (Hcases : t = 1%nat \/ t = 2%nat) by (simpl in Ht; lia).
  destruct Hcases as [-> | ->]; vm_compute; reflexivity.
Defined.
End FurtherWitnesses.

Section FurtherWitnessesReal.
Import ArenaModel.
Existing Instance real_ops.
Existing Instance sample_stream_R.
Local Open Scope R_scope.

Lemma price_at_most_strike_witness :
  exists run a',
    @lsm_run R real_ops sample_stream_R 2 two_threads CppSimd sample_arena
      100 105 1 (1 / 20) (1 / 5) 4 3 42 = (Ok run, a') /\
    run_price run <= Rmax 0 105.
Proof.
  eexists _, _. split; [reflexivity|].
  refine (@price_at_most_strike sample_stream_R 2 two_threads CppSimd sample_arena
            100 105 1 (1 / 20) (1 / 5) 4 3 42 _ _ _ _ _ _ _ _ _ _);
    [vm_compute; split; discriminate|lia|lia|apply two_threads_ok
    |lra|lra|lra|reflexivity].
Defined.

Lemma lattice_closed_form_witness :
  exists run a',
    @lsm_run R real_ops sample_stream_R 2 two_threads Cpp sample_arena
      100 105 1 (1 / 20) (1 / 5) 4 3 42 = (Ok run, a') /\
    0 < t_get path_major (run_S run) 1 2.
Proof.
  eexists _, _. split; [reflexivity|].
  refine (proj2 (@lattice_closed_form sample_stream_R 2 two_threads Cpp sample_arena
                   100 105 1 (1 / 20) (1 / 5) 4 3 42 _ _ _ _ _ _ _ _ 1%nat 2%nat _ _) _);
    [vm_compute; split; discriminate|lia|lia|apply two_threads_ok|lra
    |reflexivity|simpl; lia|simpl; lia|lra].
Defined.

Lemma reduction_schedule_independent_witness :
  total_payoff_omp path_major (1 / 20) (1 / 4) 2 2 (finish_order two_threads)
    (fun i => (i mod 2)%nat) [[0; 0; 1]; [0; 2; 0]]
  = total_payoff path_major (1 / 20) (1 / 4) 2 2 [[0; 0; 1]; [0; 2; 0]].
Proof.
  apply (reduction_schedule_independent path_major (1 / 20) (1 / 4) 2 2 2
           (finish_order two_threads) (fun i => (i mod 2)%nat)).
  - apply (finish_order_perm two_threads).
  - intros i. apply (Nat.mod_upper_bound i 2). lia.
Defined.

Lemma polyfit_least_squares_witness :
  Rlist_sum (map (fun p => p.2)
               (residuals (polyfit [0; 1; 2; 1] [1; 2; 7; 3]) [0; 1; 2; 1] [1; 2; 7; 3]))
  = 0.
Proof.
  refine (proj1 (polyfit_least_squares [0; 1; 2; 1] [1; 2; 7; 3] 0 1 2 _ _ _ _ _ _ _));
    [reflexivity|simpl; auto|simpl; auto|simpl; auto|lra|lra|lra].
Defined.

Lemma polyfit_recovers_quadratic_witness :
  polyfit [0; 1; 2; 5] (map (quadratic 3 (-1) 2) [0; 1; 2; 5]) = [3; -1; 2].
Proof.
  apply (polyfit_recovers_quadratic 3 (-1) 2 [0; 1; 2; 5] 0 1 2);
    [simpl; auto|simpl; auto|simpl; auto|lra|lra|lra].
Defined.

Lemma price_is_discounted_table_sum_witness :
  exists run a',
    @lsm_run R real_ops sample_stream_R 2 two_threads CppArena sample_arena
      100 105 1 (1 / 20) (1 / 5) 4 3 42 = (Ok run, a') /\
    run_price run =
      Rsum (fun i =>
              Rsum (fun k => t_get (flat 4) (run_CF run) i (Datatypes.S k)
                             * exp (- (1 / 20) * IZR (Z.of_nat (Datatypes.S k))
                                    * (1 / IZR 3))) 3) 4
      / IZR 4.
Proof.
  eexists _, _. split; [unfold lsm_run, lsm_arena_run; reflexivity|].
  refine (@price_is_discounted_table_sum sample_stream_R 2 two_threads CppArena
            sample_arena 100 105 1 (1 / 20) (1 / 5) 4 3 42 _ _ _ _ _ _);
    [lia|lia|apply two_threads_ok|unfold lsm_run, lsm_arena_run; reflexivity].
Defined.
End FurtherWitnessesReal.
